(** * The Node.js resource-registration client (sdk/nodejs/runtime/resource.ts)

    A shallow embedding of [readResource], [registerResource],
    [registerResourceOutputs], [prepareResource], [resolveOutputs],
    [runAsyncResourceOp] and [waitForDeath].

    The file is asynchronous JavaScript.  Every promise the file allocates is
    a slot of the program state ([None] while pending), and the code between
    two suspension points that wait for something outside the function (the
    dependencies of a preparation, the chain, the engine, [resolveOutputs])
    is one transition of a small machine.  The order in which the runtime
    fires the enabled continuations is left to the environment (an [Event]
    per continuation), so every run of the program is a run of the machine.
    The property codec (./rpc), the settings (./settings) and the transport
    are collaborators of the file: the codec enters as a parameter, the
    answers of the engine as events. *)

From Stdlib Require Import ZArith Lia.
From stdpp Require Import base option list gmap strings pretty.

(** ** JavaScript values *)

(** The values the file inspects: it tests them for truthiness, compares them
    with [undefined] and splices them into template strings.  Promises,
    [Output]s and other objects are references. *)
Inductive Value :=
| VUndefined
| VNull
| VBool (b : bool)
| VNum (n : Z)
| VStr (s : string)
| VObj (ref : nat).

#[global] Instance Value_eq_dec : EqDecision Value.
Proof. solve_decision. Defined.

(** [!v] is [negb (truthy v)]. *)
Definition truthy (v : Value) : bool :=
  match v with
  | VUndefined | VNull => false
  | VBool b => b
  | VNum n => negb (n =? 0)%Z
  | VStr s => negb (bool_decide (s = ""))
  | VObj _ => true
  end.

(** [a || b] *)
Definition js_or (a b : Value) : Value := if truthy a then a else b.

(** [v !== undefined] *)
Definition is_defined (v : Value) : bool := negb (bool_decide (v = VUndefined)).

(** [`${v}`] *)
Definition to_string (v : Value) : string :=
  match v with
  | VUndefined => "undefined"
  | VNull => "null"
  | VBool true => "true"
  | VBool false => "false"
  | VNum n => pretty n
  | VStr s => s
  | VObj _ => "[object Object]"
  end.

(** A wire-level [google.protobuf.Struct] and a JavaScript property bag. *)
Abbreviation Struct := (gmap string Value).
Abbreviation Bag := (gmap string Value).

(** ** Errors *)

Record JsError := mkError {
  e_message : string;
  e_code : option Z;      (* [code] of a grpc.ServiceError *)
  e_stack : string;
}.

#[global] Instance JsError_eq_dec : EqDecision JsError.
Proof. solve_decision. Defined.

(** [new Error(msg)] *)
Definition new_Error (msg : string) : JsError := mkError msg None "".

(** The error of reading a property of [undefined]. *)
Definition TypeError (msg : string) : JsError := mkError msg None "".

(** [grpc.status.UNAVAILABLE] *)
Definition UNAVAILABLE : Z := 14.

(** ** The property codec (./rpc)

    The codec awaits the promises nested in a value; here it is a function of
    the value, and the time it takes is the environment's choice of when to
    fire the continuation that waits for it. *)
Record Codec := {
  (** [await serializeProperty(label, v, [])]; [VUndefined] when dropped *)
  serializeProperty : Value -> Value;
  (** [await serializeResourceProperties(label, props, implicitDependencies)]:
      the serialized bag and the resources pushed to [implicitDependencies] *)
  serializeResourceProperties : Bag -> Bag * list nat;
  (** [(await serializeProperties(label, { outputs })).outputs] *)
  serializeProperties : Value -> Value;
  (** [deserializeProperties(struct)] *)
  deserializeProperties : Struct -> Bag;
  (** [deserializeProperty(v)] *)
  deserializeProperty : Value -> Value;
  (** [unknownValue] *)
  unknownValue : Value;
}.

(** ** Options, resources and requests *)

(** [opts.dependsOn]: absent, one resource, or an array of resources. *)
Inductive DependsOn :=
| DependsOnNone
| DependsOnOne (r : nat)
| DependsOnMany (rs : list nat).

Record ResourceOptions := {
  opt_id : Value;               (* [Input<ID> | undefined] *)
  opt_parent : option nat;
  opt_dependsOn : DependsOn;
  opt_protect : Value;
  opt_provider : option nat;
}.

(** Modelled from the spec: an [Output] of ../resource is a deferred value
    owned by one resource, with two independently resolvable channels, the
    raw value (what [.promise()] yields) and the apply-eligibility flag.
    [Output.create(res, value, performApply)] is given the two promises, so
    an [Output] is named here by the [prepareResource] call that allocated
    its promises; a [Resource] object is the two fields this file assigns on
    it, [res.urn] and [res.id]. *)
Record ResourceObj := {
  r_urn : option nat;
  r_id : option nat;
}.

Inductive Request :=
| ReadResourceRequest (type name : string) (id : Value) (parent : option Value)
    (provider : option string) (properties : Bag) (dependenciesList : list Value)
| RegisterResourceRequest (type name : string) (parent : option Value)
    (custom : bool) (object : Bag) (protect : Value) (provider : option string)
    (dependenciesList : list Value)
| RegisterResourceOutputsRequest (urn : Value) (outputs : Value).

(** What the engine answers: [getUrn()], [getId()] and [getProperties()]
    (read) or [getObject()] (register). *)
Record Response := {
  getUrn : string;
  getId : Value;
  getProperties : option Struct;
}.

(** [interface ResourceResolverOperation].  A resolver is the closure over the
    promises of one [prepareResource] call and is named by that call. *)
Record ResourceResolverOperation := {
  resolveURN : nat;
  resolveID : option nat;
  resolvers : nat;
  parentURN : option Value;
  providerRef : option string;
  serializedProps : Bag;
  dependencies : list Value;
}.

(** ** The promises of the file *)

(** The continuation the caller attaches to a preparation with [then], and
    what it captures: [readResource] (type, name and [opts.id]) or
    [registerResource] (type and name). *)
Inductive PrepKind :=
| ThenRead (t name : string) (id : Value)
| ThenRegister (t name : string).

(** [Preparing]: [prepareResource] is suspended at an [await];
    [Handed]: it returned its bundle and the caller's [then] ran;
    [PrepFailed]: it rejected. *)
Inductive PrepPhase := Preparing | Handed | PrepFailed.

#[global] Instance PrepPhase_eq_dec : EqDecision PrepPhase.
Proof. solve_decision. Defined.

(** One call of [prepareResource]: its arguments, and the promises it
    allocates before its first [await]. *)
Record Prep := mkPrep {
  p_kind : PrepKind;
  p_label : string;
  p_res : nat;
  p_custom : bool;
  p_props : Bag;
  p_opts : ResourceOptions;
  (** [dependsOn.map(d => d.urn.promise())], evaluated before the first
      [await]; [None] when some [d.urn] is [undefined] *)
  p_dependsOn : option (list nat);
  (** the promise of [res.urn] *)
  p_urn : option Value;
  (** the [performApply] promise of [res.urn] *)
  p_urnApply : option bool;
  (** the two promises of [res.id] (custom resources only) *)
  p_idValue : option Value;
  p_idApply : option bool;
  (** the bag [resolveProperties] received for the property promises *)
  p_outputs : option Bag;
  p_phase : PrepPhase;
}.

(** The value of [resourceChain]: the initial [Promise.resolve()], or the
    [finalOp] of the [i]-th call of [runAsyncResourceOp]. *)
Inductive ChainRef :=
| ChainInit
| ChainFinal (i : nat).

#[global] Instance ChainRef_eq_dec : EqDecision ChainRef.
Proof. solve_decision. Defined.

(** The three closures the file passes to [runAsyncResourceOp], with the
    variables each one captures. *)
Inductive Callback :=
| CbRead (res : nat) (t name : string) (props : Bag)
    (resop : ResourceResolverOperation) (resolvedID : Value) (req : Request)
| CbRegister (res : nat) (t name : string) (props : Bag)
    (resop : ResourceResolverOperation) (req : Request)
| CbOutputs (res : nat) (outputs : Value).

(** Where the [resourceOp] promise of one [runAsyncResourceOp] call stands:
    [Waiting] for [resourceChain]; [AwaitingUrn k]: the attach-outputs
    callback awaits the URN promise [k]; [InFlight]: the remote call is
    issued; [Resolving]: the engine has answered and the callback awaits
    [resolveOutputs]; [Fulfilled], [Rejected] or [Failed]: settled.
    [Rejected e]: the callback rejected before it took an answer of the
    engine; [Failed resp e]: it took the answer [resp], resolved the URN and
    the id, and [resolveOutputs] threw [e]. *)
Inductive Phase :=
| Waiting
| AwaitingUrn (k : nat)
| InFlight (req : Request)
| Resolving (resp : Response)
| Fulfilled
| Rejected (e : JsError)
| Failed (resp : Response) (e : JsError).

Record Op := mkOp {
  o_label : string;
  o_serial : bool;
  o_chain : ChainRef;        (* the [resourceChain] this operation was chained on *)
  o_callback : Callback;
  o_phase : Phase;
}.

Definition settled (ph : Phase) : bool :=
  match ph with
  | Fulfilled | Rejected _ | Failed _ _ => true
  | _ => false
  end.

Definition started (ph : Phase) : bool :=
  match ph with
  | Waiting => false
  | _ => true
  end.

Definition set_phase (ph : Phase) (op : Op) : Op :=
  mkOp (o_label op) (o_serial op) (o_chain op) (o_callback op) ph.

(** ** Program state *)

Record State := mkState {
  serialize : bool;                     (* settings: [serialize()] *)
  resourceChain : ChainRef;
  resourceChainLabel : option string;
  keepAlive : nat;                      (* tokens of [rpcKeepAlive()] not yet released *)
  resources : gmap nat ResourceObj;
  preps : list Prep;                    (* the calls of [prepareResource], oldest first *)
  ops : list Op;                        (* the calls of [runAsyncResourceOp], oldest first *)
  rpcLog : list (nat * Request);        (* the remote calls issued, oldest first,
                                           each with the operation that issued it *)
  unhandled : list JsError;             (* rejections nobody handles: top-level reporting *)
  errorLog : list string;               (* [log.error] *)
}.

Definition initial (serial : bool) : State :=
  mkState serial ChainInit None 0 ∅ [] [] [] [] [].

Definition with_chain (c : ChainRef) (s : State) : State :=
  mkState (serialize s) c (resourceChainLabel s) (keepAlive s) (resources s)
    (preps s) (ops s) (rpcLog s) (unhandled s) (errorLog s).
Definition with_chainLabel (l : option string) (s : State) : State :=
  mkState (serialize s) (resourceChain s) l (keepAlive s) (resources s)
    (preps s) (ops s) (rpcLog s) (unhandled s) (errorLog s).
Definition with_keepAlive (n : nat) (s : State) : State :=
  mkState (serialize s) (resourceChain s) (resourceChainLabel s) n (resources s)
    (preps s) (ops s) (rpcLog s) (unhandled s) (errorLog s).
Definition with_resources (r : gmap nat ResourceObj) (s : State) : State :=
  mkState (serialize s) (resourceChain s) (resourceChainLabel s) (keepAlive s) r
    (preps s) (ops s) (rpcLog s) (unhandled s) (errorLog s).
Definition with_preps (p : list Prep) (s : State) : State :=
  mkState (serialize s) (resourceChain s) (resourceChainLabel s) (keepAlive s)
    (resources s) p (ops s) (rpcLog s) (unhandled s) (errorLog s).
Definition with_ops (o : list Op) (s : State) : State :=
  mkState (serialize s) (resourceChain s) (resourceChainLabel s) (keepAlive s)
    (resources s) (preps s) o (rpcLog s) (unhandled s) (errorLog s).
Definition with_rpcLog (l : list (nat * Request)) (s : State) : State :=
  mkState (serialize s) (resourceChain s) (resourceChainLabel s) (keepAlive s)
    (resources s) (preps s) (ops s) l (unhandled s) (errorLog s).
Definition with_unhandled (l : list JsError) (s : State) : State :=
  mkState (serialize s) (resourceChain s) (resourceChainLabel s) (keepAlive s)
    (resources s) (preps s) (ops s) (rpcLog s) l (errorLog s).
Definition with_errorLog (l : list string) (s : State) : State :=
  mkState (serialize s) (resourceChain s) (resourceChainLabel s) (keepAlive s)
    (resources s) (preps s) (ops s) (rpcLog s) (unhandled s) l.

(** A [Resource] object the file has not touched has neither field. *)
Definition resource (s : State) (r : nat) : ResourceObj :=
  default {| r_urn := None; r_id := None |} (resources s !! r).

(** ** Control: results, exceptions, and the loop that never ends *)

(** A piece of synchronous code returns ([Ok]), throws ([Throw]) or never
    gives control back ([Spin]: the event loop is blocked for good, no
    continuation runs after it). *)
Inductive Result (A : Type) :=
| Ok (a : A) (s : State)
| Throw (e : JsError) (s : State)
| Spin (s : State).
Arguments Ok {A} a s.
Arguments Throw {A} e s.
Arguments Spin {A} s.

Definition M (A : Type) : Type := State -> Result A.

Definition ret {A} (a : A) : M A := fun s => Ok a s.
Definition bind {A B} (m : M A) (f : A -> M B) : M B :=
  fun s => match m s with
           | Ok a s' => f a s'
           | Throw e s' => Throw e s'
           | Spin s' => Spin s'
           end.
Definition throw {A} (e : JsError) : M A := fun s => Throw e s.
Definition get : M State := fun s => Ok s s.
Definition modify (f : State -> State) : M unit := fun s => Ok tt (f s).

Declare Scope js_scope.
Delimit Scope js_scope with js.
Notation "'do' x <- m ; k" := (bind m (fun x => k))
  (at level 10, x name, m at level 100, k at level 200) : js_scope.
Notation "'run' m ; k" := (bind m (fun _ => k))
  (at level 10, m at level 100, k at level 200) : js_scope.
Open Scope js_scope.

(** [while (true) {}] run for [fuel] turns: the state it leaves the loop in,
    or [None] when it is still inside. *)
Fixpoint while_true (fuel : nat) (s : State) : option State :=
  match fuel with
  | 0 => None
  | S fuel' => while_true fuel' s
  end.

(** [function waitForDeath(): never { while (true) {} }]: the loop has no
    exit ([while_true] is [None] for every fuel), so the call has no
    continuation. *)
Definition waitForDeath {A} : M A := fun s => Spin s.

(** ** Awaiting *)

(** What an [await] finds: the value, a promise still pending, or an
    exception. *)
Inductive Await (A : Type) :=
| Ready (a : A)
| Pending
| Fails (e : JsError).
Arguments Ready {A} a.
Arguments Pending {A}.
Arguments Fails {A} e.

#[global] Instance Await_ret : MRet Await := @Ready.
#[global] Instance Await_bind : MBind Await := λ A B f m,
  match m with
  | Ready a => f a
  | Pending => Pending
  | Fails e => Fails e
  end.
#[global] Instance Await_fmap : FMap Await := λ A B f m,
  match m with
  | Ready a => Ready (f a)
  | Pending => Pending
  | Fails e => Fails e
  end.

(** A promise is resolved once; a second [resolve] is ignored. *)
Definition resolve_once {A} (slot : option A) (v : A) : option A :=
  match slot with
  | None => Some v
  | Some _ => slot
  end.

(** The promise of the [k]-th [res.urn], and of the [k]-th [res.id]. *)
Definition urn_promise (s : State) (k : nat) : Await Value :=
  match preps s !! k with
  | Some p => match p_urn p with Some v => Ready v | None => Pending end
  | None => Pending
  end.

Definition id_promise (s : State) (k : nat) : Await Value :=
  match preps s !! k with
  | Some p => match p_idValue p with Some v => Ready v | None => Pending end
  | None => Pending
  end.

(** [await r.urn.promise()] and [await r.id.promise()] *)
Definition await_urn (s : State) (r : nat) : Await Value :=
  match r_urn (resource s r) with
  | Some k => urn_promise s k
  | None => Fails (TypeError "Cannot read property 'promise' of undefined")
  end.

Definition await_id (s : State) (r : nat) : Await Value :=
  match r_id (resource s r) with
  | Some k => id_promise s k
  | None => Fails (TypeError "Cannot read property 'promise' of undefined")
  end.

(** ** [Set<URN>]: insertion-ordered, no element twice *)

Definition Set_add (x : Value) (set : list Value) : list Value :=
  if bool_decide (x ∈ set) then set else set ++ [x].

Definition new_Set (l : list Value) : list Value :=
  foldl (λ set x, Set_add x set) [] l.

(** ** Updating one promise record *)

Definition set_p_urn (v : option Value) (p : Prep) : Prep :=
  mkPrep (p_kind p) (p_label p) (p_res p) (p_custom p) (p_props p) (p_opts p)
    (p_dependsOn p) v (p_urnApply p) (p_idValue p) (p_idApply p) (p_outputs p)
    (p_phase p).
Definition set_p_id (v : option Value) (a : option bool) (p : Prep) : Prep :=
  mkPrep (p_kind p) (p_label p) (p_res p) (p_custom p) (p_props p) (p_opts p)
    (p_dependsOn p) (p_urn p) (p_urnApply p) v a (p_outputs p) (p_phase p).
Definition set_p_outputs (o : option Bag) (p : Prep) : Prep :=
  mkPrep (p_kind p) (p_label p) (p_res p) (p_custom p) (p_props p) (p_opts p)
    (p_dependsOn p) (p_urn p) (p_urnApply p) (p_idValue p) (p_idApply p) o
    (p_phase p).
Definition set_p_phase (ph : PrepPhase) (p : Prep) : Prep :=
  mkPrep (p_kind p) (p_label p) (p_res p) (p_custom p) (p_props p) (p_opts p)
    (p_dependsOn p) (p_urn p) (p_urnApply p) (p_idValue p) (p_idApply p)
    (p_outputs p) ph.

(** ** The code of resource.ts *)

Section Client.

Context (codec : Codec).

(** *** [prepareResource] *)

Definition dependsOn_list (d : DependsOn) : list nat :=
  match d with
  | DependsOnMany rs => rs       (* Array.isArray(opts.dependsOn) *)
  | DependsOnOne r => [r]        (* else if (opts.dependsOn) *)
  | DependsOnNone => []
  end.

(** The part that runs before the first [await]: the URN [Output] (its
    [performApply] is [Promise.resolve(true)]), the id [Output] of a custom
    resource, the transfer of the properties, and the argument of
    [Promise.all].  It returns the name of the promises it allocated. *)
Definition prepareResource (next : PrepKind) (label : string) (res : nat)
    (custom : bool) (props : Bag) (opts : ResourceOptions) : M nat :=
  do s <- get;
  let k := length (preps s) in
  let obj := {| r_urn := Some k;
                r_id := if custom then Some k else r_id (resource s res) |} in
  run modify (λ s, with_resources (<[res := obj]> (resources s)) s);
  do s <- get;
  let explicit := mapM (λ d, r_urn (resource s d)) (dependsOn_list (opt_dependsOn opts)) in
  run modify (λ s, with_preps
                (preps s ++ [mkPrep next label res custom props opts explicit
                               None (Some true) None None None Preparing]) s);
  ret k.

(** [for (const implicitDep of implicitDependencies)
       dependencies.add(await implicitDep.urn.promise())] *)
Fixpoint add_implicit (s : State) (dependencies : list Value)
    (implicitDependencies : list nat) : Await (list Value) :=
  match implicitDependencies with
  | [] => Ready dependencies
  | implicitDep :: rest =>
      u ← await_urn s implicitDep;
      add_implicit s (Set_add u dependencies) rest
  end.

(** The part after the first [await], read against the promises as they
    stand: it is [Pending] while one awaited promise is, and the bundle once
    all are resolved (a resolved promise never changes). *)
Definition prepareResource_resume (s : State) (k : nat) (p : Prep)
    : Await ResourceResolverOperation :=
  explicitURNDeps ← match p_dependsOn p with
                    | Some ks => mapM (urn_promise s) ks
                    | None => Fails (TypeError "Cannot read property 'promise' of undefined")
                    end;
  let '(serializedProps, implicitDependencies) :=
    serializeResourceProperties codec (p_props p) in
  parentURN ← match opt_parent (p_opts p) with
              | Some parent => Some <$> await_urn s parent
              | None => Ready None
              end;
  providerRef ← match opt_provider (p_opts p) with
                | Some provider =>
                    if p_custom p then
                      providerURN ← await_urn s provider;
                      providerID ← await_id s provider;
                      Ready (Some (to_string providerURN +:+ "::" +:+
                                   to_string (js_or providerID (unknownValue codec))))
                    else Ready None
                | None => Ready None
                end;
  dependencies ← add_implicit s (new_Set explicitURNDeps) implicitDependencies;
  Ready {| resolveURN := k;
           resolveID := if p_custom p then Some k else None;
           resolvers := k;
           parentURN := parentURN;
           providerRef := providerRef;
           serializedProps := serializedProps;
           dependencies := dependencies |}.

(** *** [resolveOutputs] *)

(** [Object.keys(props)] lists every own key of the inputs once, in the order
    in which the caller's object got its properties.  A bag does not record
    that order: [keys] is one such listing. *)
Definition Object_keys (props : Bag) (keys : list string) : Prop :=
  NoDup keys ∧ list_to_set keys =@{gset string} dom props.

#[global] Instance Object_keys_dec props keys : Decision (Object_keys props keys).
Proof. unfold Object_keys. apply _. Defined.

(** [allProps.hasOwnProperty(key)].  The method is looked up on [allProps]
    itself before [Object.prototype]: a property of the bag that is named
    [hasOwnProperty] is what the call finds, no value of a bag is a function,
    and the call throws. *)
Definition hasOwnProperty (allProps : Bag) (key : string) : JsError + bool :=
  match allProps !! "hasOwnProperty" with
  | Some _ => inl (TypeError "allProps.hasOwnProperty is not a function")
  | None => inr (bool_decide (is_Some (allProps !! key)))
  end.

(** One turn of [for (const key of Object.keys(props))]. *)
Definition resolveOutputs_key (props : Bag) (allProps : Bag) (key : string)
    : JsError + Bag :=
  match hasOwnProperty allProps key with
  | inl e => inl e
  | inr true => inr allProps
  | inr false =>
      let inputProp := serializeProperty codec (default VUndefined (props !! key)) in
      if bool_decide (inputProp = VUndefined) then inr allProps
      else inr (<[key := deserializeProperty codec inputProp]> allProps)
  end.

(** The loop, left at the first turn that throws. *)
Fixpoint resolveOutputs_loop (props : Bag) (allProps : Bag) (keys : list string)
    : JsError + Bag :=
  match keys with
  | [] => inr allProps
  | key :: rest =>
      match resolveOutputs_key props allProps key with
      | inl e => inl e
      | inr allProps' => resolveOutputs_loop props allProps' rest
      end
  end.

(** The bag [allProps] that [resolveOutputs] hands to [resolveProperties],
    or the exception it throws before it gets there. *)
Definition resolveOutputs_allProps (props : Bag) (outputs : option Struct)
    (keys : list string) : JsError + Bag :=
  let allProps := match outputs with
                  | Some o => deserializeProperties codec o
                  | None => ∅
                  end in
  resolveOutputs_loop props allProps keys.

Definition alter_prep (f : Prep -> Prep) (k : nat) : M unit :=
  modify (λ s, with_preps (alter f k (preps s)) s).

(** Modelled from the spec: [resolveProperties] of ./rpc, which feeds the
    final bag into the bundle's per-property resolvers, resolving each
    pending deferred property once.  The promises of the properties are kept
    as the one bag they are resolved from. *)
Definition resolveProperties (resolvers : nat) (allProps : Bag) : M unit :=
  alter_prep (λ p, set_p_outputs (resolve_once (p_outputs p) allProps) p) resolvers.

Definition resolveOutputs (props : Bag) (keys : list string)
    (outputs : option Struct) (resolvers : nat) : M unit :=
  match resolveOutputs_allProps props outputs keys with
  | inl e => throw e
  | inr allProps => resolveProperties resolvers allProps
  end.

(** [resop.resolveURN(urn)] and [resop.resolveID(v, performApply)] *)
Definition call_resolveURN (k : nat) (urn : Value) : M unit :=
  alter_prep (λ p, set_p_urn (resolve_once (p_urn p) urn) p) k.

Definition call_resolveID (k : nat) (v : Value) (performApply : bool) : M unit :=
  alter_prep (λ p, set_p_id (resolve_once (p_idValue p) v)
                            (resolve_once (p_idApply p) performApply) p) k.

(** *** [runAsyncResourceOp] *)

(** Modelled from the spec: the keep-alive token acquire/release pair of
    ./settings; [rpcKeepAlive()] takes a token and returns [done], which
    gives it back. *)
Definition rpcKeepAlive : M unit :=
  modify (λ s, with_keepAlive (S (keepAlive s)) s).
Definition done : M unit :=
  modify (λ s, with_keepAlive (pred (keepAlive s)) s).

(** The synchronous body: chain [resourceOp] on [resourceChain], take the
    token, and make [finalOp] the chain when serial. *)
Definition runAsyncResourceOp (label : string) (callback : Callback)
    (serial : option bool) : M unit :=
  do s <- get;
  let serial := match serial with Some b => b | None => serialize s end in
  let i := length (ops s) in
  run modify (λ s, with_ops
                (ops s ++ [mkOp label serial (resourceChain s) callback Waiting]) s);
  run rpcKeepAlive;
  if serial then modify (with_chain (ChainFinal i)) else ret tt.

(** [finalOp] is fulfilled as soon as [resourceOp] settles, either way. *)
Definition chain_settled (s : State) (c : ChainRef) : bool :=
  match c with
  | ChainInit => true
  | ChainFinal i => match ops s !! i with
                    | Some op => settled (o_phase op)
                    | None => false
                    end
  end.

Definition set_op_phase (i : nat) (ph : Phase) : M unit :=
  modify (λ s, with_ops (alter (set_phase ph) i (ops s)) s).

(** [resourceOp] fulfilled: [finalOp] runs [done()]. *)
Definition fulfil (i : nat) : M unit :=
  run set_op_phase i Fulfilled;
  done.

(** [resourceOp] rejected: [finalOp] runs [done()] and swallows the error;
    [resourceOp.catch(err => Promise.reject(err))] leaves a rejection that
    nobody handles. *)
Definition reject (i : nat) (e : JsError) : M unit :=
  run set_op_phase i (Rejected e);
  run done;
  modify (λ s, with_unhandled (unhandled s ++ [e]) s).

(** The remote call leaves. *)
Definition issue (i : nat) (req : Request) : M unit :=
  run modify (λ s, with_rpcLog (rpcLog s ++ [(i, req)]) s);
  set_op_phase i (InFlight req).

(** The continuation of [resourceChain.then]: it notes the label of a serial
    operation and enters the callback, which runs up to its first [await]. *)
Definition resourceOp_start (i : nat) (op : Op) : M unit :=
  run (if o_serial op then modify (with_chainLabel (Some (o_label op))) else ret tt);
  match o_callback op with
  | CbRead _ _ _ _ _ _ req => issue i req
  | CbRegister _ _ _ _ _ req => issue i req
  | CbOutputs res _ =>
      do s <- get;
      match r_urn (resource s res) with
      | Some k => set_op_phase i (AwaitingUrn k)
      | None => reject i (TypeError "Cannot read property 'promise' of undefined")
      end
  end.

(** *** The three remote operations *)

(** The callback of [monitor.readResource] and the operation up to its
    [await resolveOutputs(...)]. *)
Definition readResource_callback (i : nat) (t name : string)
    (resop : ResourceResolverOperation) (resolvedID : Value)
    (err : option JsError) (resp : Response) : M unit :=
  match err with
  | Some err =>
      reject i (new_Error ("failed to read resource #" +:+ to_string resolvedID +:+
                           " '" +:+ name +:+ "' [" +:+ t +:+ "]: " +:+ e_message err))
  | None =>
      run call_resolveURN (resolveURN resop) (VStr (getUrn resp));
      match resolveID resop with
      | Some k =>
          run call_resolveID k resolvedID (is_defined resolvedID);
          set_op_phase i (Resolving resp)
      | None => reject i (TypeError "resop.resolveID is not a function")
      end
  end.

(** The callback of [monitor.registerResource] and the operation up to its
    [await resolveOutputs(...)]. *)
Definition registerResource_callback (i : nat) (t name : string)
    (resop : ResourceResolverOperation)
    (err : option JsError) (resp : Response) : M unit :=
  match err with
  | Some err =>
      run (if bool_decide (e_code err = Some UNAVAILABLE) then waitForDeath else ret tt);
      reject i (new_Error ("failed to register new resource " +:+ name +:+
                           " [" +:+ t +:+ "]: " +:+ e_message err))
  | None =>
      run call_resolveURN (resolveURN resop) (VStr (getUrn resp));
      run match resolveID resop with
          | Some k =>
              let id := js_or (getId resp) VUndefined in
              call_resolveID k id (is_defined id)
          | None => ret tt
          end;
      set_op_phase i (Resolving resp)
  end.

(** [resourceOp] rejected by an exception of [resolveOutputs], after the
    answer [resp] was taken: [finalOp] runs [done()], and the rejection is
    one that nobody handles. *)
Definition reject_after (i : nat) (resp : Response) (e : JsError) : M unit :=
  run set_op_phase i (Failed resp e);
  run done;
  modify (λ s, with_unhandled (unhandled s ++ [e]) s).

(** [await resolveOutputs(res, t, name, props, resp.getProperties(),
    resop.resolvers)] is through, and with it the read or register
    operation: the callback returns, or the exception of [resolveOutputs]
    leaves it. *)
Definition resolveOutputs_return (i : nat) (props : Bag) (keys : list string)
    (resop : ResourceResolverOperation) (resp : Response) : M unit :=
  fun s => match resolveOutputs props keys (getProperties resp) (resolvers resop) s with
           | Ok _ s' => fulfil i s'
           | Throw e s' => reject_after i resp e s'
           | Spin s' => Spin s'
           end.

(** The callback of [monitor.registerResourceOutputs]. *)
Definition registerResourceOutputs_callback (i : nat) (urn : Value)
    (err : option JsError) : M unit :=
  match err with
  | Some err =>
      run (if bool_decide (e_code err = Some UNAVAILABLE) then waitForDeath else ret tt);
      run modify (λ s, with_errorLog
                    (errorLog s ++ ["Failed to end new resource registration '" +:+
                                    to_string urn +:+ "': " +:+ e_stack err]) s);
      reject i err
  | None => fulfil i
  end.

(** [readResource] up to its return. *)
Definition readResource (res : nat) (t name : string) (props : Bag)
    (opts : ResourceOptions) : M unit :=
  let id := opt_id opts in
  if negb (truthy id) then
    throw (new_Error "Cannot read resource whose options are lacking an ID value")
  else
    let label := "resource:" +:+ name +:+ "[" +:+ t +:+ "]#..." in
    do _ <- prepareResource (ThenRead t name id) label res true props opts;
    ret tt.

(** [registerResource] up to its return. *)
Definition registerResource (res : nat) (t name : string) (custom : bool)
    (props : Bag) (opts : ResourceOptions) : M unit :=
  let label := "resource:" +:+ name +:+ "[" +:+ t +:+ "]" in
  do _ <- prepareResource (ThenRegister t name) label res custom props opts;
  ret tt.

(** The function passed to [resopAsync.then]: it builds the request and hands
    the remote call to [runAsyncResourceOp]. *)
Definition prepared (p : Prep) (resop : ResourceResolverOperation) : M unit :=
  match p_kind p with
  | ThenRead t name id =>
      let resolvedID := serializeProperty codec id in
      let req := ReadResourceRequest t name resolvedID (parentURN resop)
                   (providerRef resop) (serializedProps resop) (dependencies resop) in
      let opLabel := "monitor.readResource(" +:+ p_label p +:+ ")" in
      runAsyncResourceOp opLabel
        (CbRead (p_res p) t name (p_props p) resop resolvedID req) None
  | ThenRegister t name =>
      let req := RegisterResourceRequest t name (parentURN resop) (p_custom p)
                   (serializedProps resop) (opt_protect (p_opts p))
                   (providerRef resop) (dependencies resop) in
      let opLabel := "monitor.registerResource(" +:+ p_label p +:+ ")" in
      runAsyncResourceOp opLabel
        (CbRegister (p_res p) t name (p_props p) resop req) None
  end.

(** [registerResourceOutputs]: never serial. *)
Definition registerResourceOutputs (res : nat) (outputs : Value) : M unit :=
  runAsyncResourceOp "monitor.registerResourceOutputs(...)"
    (CbOutputs res outputs) (Some false).

(** ** The machine *)

(** The calls the program makes, and the continuations the runtime fires:
    a preparation gets past its [await]s ([PrepareDone]), [resourceChain.then]
    runs the continuation of an operation ([ChainTurn]), the attach-outputs
    callback gets past its [await]s ([OutputsReady]), the engine answers a
    remote call ([RpcReturn]), [resolveOutputs] returns to the callback that
    awaits it, or throws ([OutputsResolved], with the order in which
    [Object.keys] lists the inputs). *)
Inductive Event :=
| CallReadResource (res : nat) (t name : string) (props : Bag) (opts : ResourceOptions)
| CallRegisterResource (res : nat) (t name : string) (custom : bool) (props : Bag)
    (opts : ResourceOptions)
| CallRegisterResourceOutputs (res : nat) (outputs : Value)
| PrepareDone (k : nat)
| ChainTurn (i : nat)
| OutputsReady (i : nat)
| RpcReturn (i : nat) (err : option JsError) (resp : Response)
| OutputsResolved (i : nat) (keys : list string).

(** [None]: the event cannot happen in this state. *)
Definition step (s : State) (ev : Event) : option (Result unit) :=
  match ev with
  | CallReadResource res t name props opts =>
      Some (readResource res t name props opts s)
  | CallRegisterResource res t name custom props opts =>
      Some (registerResource res t name custom props opts s)
  | CallRegisterResourceOutputs res outputs =>
      Some (registerResourceOutputs res outputs s)
  | PrepareDone k =>
      p ← preps s !! k;
      match p_phase p with
      | Preparing =>
          match prepareResource_resume s k p with
          | Ready resop =>
              Some ((run alter_prep (set_p_phase Handed) k; prepared p resop) s)
          | Fails e =>
              Some ((run alter_prep (set_p_phase PrepFailed) k;
                     modify (λ s, with_unhandled (unhandled s ++ [e]) s)) s)
          | Pending => None
          end
      | _ => None
      end
  | ChainTurn i =>
      op ← ops s !! i;
      match o_phase op with
      | Waiting =>
          if chain_settled s (o_chain op) then Some (resourceOp_start i op s) else None
      | _ => None
      end
  | OutputsReady i =>
      op ← ops s !! i;
      match o_phase op, o_callback op with
      | AwaitingUrn k, CbOutputs _ outputs =>
          match urn_promise s k with
          | Ready urn =>
              Some (issue i (RegisterResourceOutputsRequest urn
                               (serializeProperties codec outputs)) s)
          | _ => None
          end
      | _, _ => None
      end
  | RpcReturn i err resp =>
      op ← ops s !! i;
      match o_phase op with
      | InFlight req =>
          match o_callback op, req with
          | CbRead _ t name _ resop resolvedID _, _ =>
              Some (readResource_callback i t name resop resolvedID err resp s)
          | CbRegister _ t name _ resop _, _ =>
              Some (registerResource_callback i t name resop err resp s)
          | CbOutputs _ _, RegisterResourceOutputsRequest urn _ =>
              Some (registerResourceOutputs_callback i urn err s)
          | _, _ => None
          end
      | _ => None
      end
  | OutputsResolved i keys =>
      op ← ops s !! i;
      match o_phase op, o_callback op with
      | Resolving resp, CbRead _ _ _ props resop _ _ =>
          if bool_decide (Object_keys props keys)
          then Some (resolveOutputs_return i props keys resop resp s) else None
      | Resolving resp, CbRegister _ _ _ props resop _ =>
          if bool_decide (Object_keys props keys)
          then Some (resolveOutputs_return i props keys resop resp s) else None
      | _, _ => None
      end
  end.

(** A run of the machine.  A thrown exception returns to the calling program,
    which goes on; after [Spin] nothing runs any more. *)
Fixpoint exec (s : State) (evs : list Event) : option (Result unit) :=
  match evs with
  | [] => Some (Ok tt s)
  | ev :: evs' =>
      match step s ev with
      | Some (Ok _ s') => exec s' evs'
      | Some (Throw _ s') => exec s' evs'
      | Some (Spin s') => Some (Spin s')
      | None => None
      end
  end.

Inductive reachable (s0 : State) : State -> Prop :=
| reach_start : reachable s0 s0
| reach_step s ev s' :
    reachable s0 s -> step s ev = Some (Ok tt s') -> reachable s0 s'
| reach_throw s ev e s' :
    reachable s0 s -> step s ev = Some (Throw e s') -> reachable s0 s'.

End Client.

(** ** Vocabulary of the properties *)

(** [Array.from(resop.dependencies)] for given awaited URNs. *)
Definition dependency_set (explicitURNs implicitURNs : list Value) : list Value :=
  foldl (λ set x, Set_add x set) (new_Set explicitURNs) implicitURNs.

(** The request a callback sends, when it is built before the callback runs. *)
Definition callback_request (cb : Callback) : option Request :=
  match cb with
  | CbRead _ _ _ _ _ _ req => Some req
  | CbRegister _ _ _ _ _ req => Some req
  | CbOutputs _ _ => None
  end.

(** The bundle a callback resolves. *)
Definition callback_resop (cb : Callback) : option ResourceResolverOperation :=
  match cb with
  | CbRead _ _ _ _ resop _ _ => Some resop
  | CbRegister _ _ _ _ resop _ => Some resop
  | CbOutputs _ _ => None
  end.

(** [req.getDependenciesList()] *)
Definition request_dependencies (req : Request) : list Value :=
  match req with
  | ReadResourceRequest _ _ _ _ _ _ deps => deps
  | RegisterResourceRequest _ _ _ _ _ _ _ deps => deps
  | RegisterResourceOutputsRequest _ _ => []
  end.

(** The tokens that should be out: one per operation not yet settled. *)
Definition outstanding (l : list Op) : nat :=
  length (filter (λ op, settled (o_phase op) = false) l).

(** No promise of a preparation is resolved. *)
Definition pending (p : Prep) : Prop :=
  p_urn p = None ∧ p_idValue p = None ∧ p_idApply p = None.

(** ** Invariants of the machine *)

(** What [readResource] puts into a preparation: a custom resource, and the
    [opts.id] it tested. *)
Definition kind_ok (p : Prep) : Prop :=
  ∀ t name id, p_kind p = ThenRead t name id →
               p_custom p = true ∧ id = opt_id (p_opts p).

(** A callback built by [prepared] from the preparation [k]: its resolvers
    are the ones of [k], and what it captured comes from [k]'s arguments. *)
Definition owns (codec : Codec) (k : nat) (p : Prep) (cb : Callback) : Prop :=
  ∃ resop,
    callback_resop cb = Some resop ∧
    resolveURN resop = k ∧ resolvers resop = k ∧
    resolveID resop = (if p_custom p then Some k else None) ∧
    match cb with
    | CbRead res t name props _ resolvedID _ =>
        p_kind p = ThenRead t name (opt_id (p_opts p)) ∧
        resolvedID = serializeProperty codec (opt_id (p_opts p)) ∧
        props = p_props p ∧ res = p_res p
    | CbRegister res t name props _ _ =>
        p_kind p = ThenRegister t name ∧ props = p_props p ∧ res = p_res p
    | CbOutputs _ _ => False
    end.

(** The engine has answered the operation with success. *)
Definition answered (ph : Phase) : bool :=
  match ph with
  | Resolving _ | Fulfilled | Failed _ _ => true
  | _ => false
  end.

(** The error an operation was rejected with. *)
Definition failure (ph : Phase) : list JsError :=
  match ph with
  | Rejected e | Failed _ e => [e]
  | _ => []
  end.

(** Two states of one preparation that differ in its promises only. *)
Definition same_static (p p' : Prep) : Prop :=
  p_kind p' = p_kind p ∧ p_custom p' = p_custom p ∧ p_props p' = p_props p ∧
  p_opts p' = p_opts p ∧ p_res p' = p_res p ∧ p_urnApply p' = p_urnApply p ∧
  p_phase p' = p_phase p.

(** How a piece of code left the state: it returned or it threw. *)
Definition outcome (r : Result unit) (s' : State) : Prop :=
  r = Ok tt s' ∨ ∃ e, r = Throw e s'.

(** The ways one transition changes the two tables, the chain, the tokens and
    the unhandled rejections. *)
Inductive change (codec : Codec) (s s' : State) : Prop :=
| ch_none :
    preps s' = preps s → ops s' = ops s →
    resourceChain s' = resourceChain s → keepAlive s' = keepAlive s →
    unhandled s' = unhandled s → rpcLog s' = rpcLog s → change codec s s'
| ch_declare p :
    pending p → p_phase p = Preparing → p_urnApply p = Some true → kind_ok p →
    preps s' = preps s ++ [p] → ops s' = ops s →
    resourceChain s' = resourceChain s → keepAlive s' = keepAlive s →
    unhandled s' = unhandled s → rpcLog s' = rpcLog s → change codec s s'
| ch_prep_failed k p e :
    preps s !! k = Some p → p_phase p = Preparing →
    preps s' = <[k := set_p_phase PrepFailed p]> (preps s) → ops s' = ops s →
    resourceChain s' = resourceChain s → keepAlive s' = keepAlive s →
    unhandled s' = unhandled s ++ [e] → rpcLog s' = rpcLog s →
    change codec s s'
| ch_schedule k p op :
    preps s !! k = Some p → p_phase p = Preparing →
    preps s' = <[k := set_p_phase Handed p]> (preps s) →
    owns codec k p (o_callback op) →
    o_phase op = Waiting → o_chain op = resourceChain s →
    o_serial op = serialize s →
    ops s' = ops s ++ [op] →
    resourceChain s' =
      (if o_serial op then ChainFinal (length (ops s)) else resourceChain s) →
    keepAlive s' = S (keepAlive s) →
    unhandled s' = unhandled s → rpcLog s' = rpcLog s → change codec s s'
| ch_outputs op :
    callback_resop (o_callback op) = None → o_serial op = false →
    o_phase op = Waiting → o_chain op = resourceChain s →
    preps s' = preps s → ops s' = ops s ++ [op] →
    resourceChain s' = resourceChain s → keepAlive s' = S (keepAlive s) →
    unhandled s' = unhandled s → rpcLog s' = rpcLog s → change codec s s'
| ch_move i op ph :
    ops s !! i = Some op → settled (o_phase op) = false → started ph = true →
    (o_phase op = Waiting → chain_settled s (o_chain op) = true) →
    (callback_resop (o_callback op) ≠ None →
     answered ph = false ∧ answered (o_phase op) = false) →
    preps s' = preps s → ops s' = <[i := set_phase ph op]> (ops s) →
    resourceChain s' = resourceChain s →
    keepAlive s' = (if settled ph then pred (keepAlive s) else keepAlive s) →
    unhandled s' = unhandled s ++ failure ph →
    rpcLog s' = rpcLog s ++ match ph with InFlight req => [(i, req)] | _ => [] end →
    change codec s s'
| ch_resolve i op resop p p' ph :
    ops s !! i = Some op → settled (o_phase op) = false →
    started (o_phase op) = true → answered ph = true →
    callback_resop (o_callback op) = Some resop →
    preps s !! resolveURN resop = Some p → same_static p p' →
    preps s' = <[resolveURN resop := p']> (preps s) →
    ops s' = <[i := set_phase ph op]> (ops s) →
    resourceChain s' = resourceChain s →
    keepAlive s' = (if settled ph then pred (keepAlive s) else keepAlive s) →
    unhandled s' = unhandled s ++ failure ph → rpcLog s' = rpcLog s →
    change codec s s'.

(** [c] is the [finalOp] of the last serial operation among the first [j],
    or the initial promise when there is none. *)
Definition chain_points (l : list Op) (j : nat) (c : ChainRef) : Prop :=
  match c with
  | ChainInit => ∀ i op, i < j → l !! i = Some op → o_serial op = false
  | ChainFinal c =>
      c < j ∧ (∃ op, l !! c = Some op ∧ o_serial op = true) ∧
      ∀ i op, c < i < j → l !! i = Some op → o_serial op = false
  end.

Record queue_inv (s : State) : Prop := {
  qi_chain : chain_points (ops s) (length (ops s)) (resourceChain s);
  qi_pred : ∀ j op, ops s !! j = Some op → chain_points (ops s) j (o_chain op);
  qi_started : ∀ j op, ops s !! j = Some op → started (o_phase op) = true →
                       chain_settled s (o_chain op) = true;
  qi_tokens : keepAlive s = outstanding (ops s);
  qi_mode : ∀ j op, ops s !! j = Some op → o_serial op = true → serialize s = true;
  qi_reported : ∀ j op e, ops s !! j = Some op → e ∈ failure (o_phase op) →
                          e ∈ unhandled s;
  qi_issued : ∀ j req, (j, req) ∈ rpcLog s →
                       ∃ op, ops s !! j = Some op ∧ started (o_phase op) = true;
}.

Record cells_inv (codec : Codec) (s : State) : Prop := {
  ci_static : ∀ k p, preps s !! k = Some p → p_urnApply p = Some true ∧ kind_ok p;
  ci_fresh : ∀ k p, preps s !! k = Some p → p_phase p ≠ Handed → pending p;
  ci_unowned : ∀ k p i op resop,
      preps s !! k = Some p → p_phase p ≠ Handed →
      ops s !! i = Some op → callback_resop (o_callback op) = Some resop →
      resolveURN resop ≠ k;
  ci_handed : ∀ k p, preps s !! k = Some p → p_phase p = Handed →
      ∃ i op resop, ops s !! i = Some op ∧
                    callback_resop (o_callback op) = Some resop ∧
                    resolveURN resop = k;
  ci_owner : ∀ i op resop,
      ops s !! i = Some op → callback_resop (o_callback op) = Some resop →
      ∃ p, preps s !! resolveURN resop = Some p ∧ p_phase p = Handed ∧
           owns codec (resolveURN resop) p (o_callback op) ∧
           (answered (o_phase op) = false → pending p);
  ci_unique : ∀ i j opi opj ri rj,
      ops s !! i = Some opi → ops s !! j = Some opj →
      callback_resop (o_callback opi) = Some ri →
      callback_resop (o_callback opj) = Some rj →
      resolveURN ri = resolveURN rj → i = j;
}.

(** ** Three properties of the specification that the code does not have,
       as the specification words them *)


(** Attach-outputs neither joins the chain nor waits for it: once scheduled,
    its callback can run whatever is pending in the chain. *)
Definition outputs_never_wait (codec : Codec) : Prop :=
  ∀ mode s res outputs s1,
    reachable codec (initial mode) s →
    registerResourceOutputs res outputs s = Ok tt s1 →
    resourceChain s1 = resourceChain s ∧
    is_Some (step codec s1 (ChainTurn (length (ops s)))).

(** [readResource] throws when [opts.id] is absent and does not throw when it
    is present. *)
Definition read_throws_exactly_without_id : Prop :=
  ∀ s res t name props opts,
    (opt_id opts = VUndefined →
     ∃ e, readResource res t name props opts s = Throw e s) ∧
    (opt_id opts ≠ VUndefined →
     ∀ e s', readResource res t name props opts s ≠ Throw e s').

(** ** A small codec and small programs, to run the machine on *)

(** Scalars travel unchanged, [undefined] and objects are dropped, and an
    object [VObj r] among the inputs stands for an [Output] of resource [r]. *)
Definition toyCodec : Codec := {|
  serializeProperty v := match v with VObj _ => VUndefined | _ => v end;
  serializeResourceProperties props :=
    (omap (λ v, match v with VObj _ => None | _ => Some v end) props,
     omap (λ kv, match kv.2 with VObj r => Some r | _ => None end) (map_to_list props));
  serializeProperties v := v;
  deserializeProperties o := o;
  deserializeProperty v := v;
  unknownValue := VStr "04da6b54-80e4-46f7-96ec-b56ff0331ba9";
|}.

Definition noOpts : ResourceOptions :=
  {| opt_id := VUndefined; opt_parent := None; opt_dependsOn := DependsOnNone;
     opt_protect := VUndefined; opt_provider := None |}.

Definition withId (id : Value) : ResourceOptions :=
  {| opt_id := id; opt_parent := None; opt_dependsOn := DependsOnNone;
     opt_protect := VUndefined; opt_provider := None |}.

Definition dependingOn (d : DependsOn) : ResourceOptions :=
  {| opt_id := VUndefined; opt_parent := None; opt_dependsOn := d;
     opt_protect := VUndefined; opt_provider := None |}.

Definition answer (urn : string) (id : Value) (props : option Struct) : Response :=
  {| getUrn := urn; getId := id; getProperties := props |}.

Definition unavailable : JsError :=
  mkError "14 UNAVAILABLE: Connect Failed" (Some UNAVAILABLE) "".

(** The state a run ends in. *)
Definition final (r : option (Result unit)) : option State :=
  match r with
  | Some (Ok _ s) => Some s
  | _ => None
  end.

(** Resources 1 and 2 are registered and answered; then resource 0 is
    declared with resource 1 listed twice in [dependsOn] and with inputs that
    refer to resources 1 and 2. *)
Definition depStart : State :=
  default (initial true) (final (exec toyCodec (initial true)
    [CallRegisterResource 1 "t" "b" true ∅ noOpts;
     CallRegisterResource 2 "t" "c" true ∅ noOpts;
     PrepareDone 0; ChainTurn 0;
     RpcReturn 0 None (answer "urn:b" (VStr "id-b") None); OutputsResolved 0 [];
     PrepareDone 1; ChainTurn 1;
     RpcReturn 1 None (answer "urn:c" (VStr "id-c") None); OutputsResolved 1 []])).

Definition depState : State :=
  default (initial true) (final (exec toyCodec depStart
    [CallRegisterResource 0 "t" "a" true
       (<["p" := VObj 2]> (<["q" := VObj 1]> (<["r" := VNum 7]> ∅)))
       (dependingOn (DependsOnMany [1; 1]))])).

Definition depPrep : Prep :=
  mkPrep (ThenRegister "t" "a") "resource:a[t]" 0 true
    (<["p" := VObj 2]> (<["q" := VObj 1]> (<["r" := VNum 7]> ∅)))
    (dependingOn (DependsOnMany [1; 1])) (Some [0; 0])
    None (Some true) None None None Preparing.

Definition depBundle : ResourceResolverOperation :=
  {| resolveURN := 2; resolveID := Some 2; resolvers := 2;
     parentURN := None; providerRef := None;
     serializedProps := {[ "r" := VNum 7 ]};
     dependencies := [VStr "urn:b"; VStr "urn:c"] |}.




(** Serialize-mode on.  The component [a] is registered and answered; the
    registration of [b] is in flight. *)
Definition outputsTrace : list Event :=
  [CallRegisterResource 0 "t" "a" false ∅ noOpts;
   CallRegisterResource 1 "t" "b" true ∅ noOpts;
   PrepareDone 0; ChainTurn 0;
   RpcReturn 0 None (answer "urn:a" VUndefined None); OutputsResolved 0 [];
   PrepareDone 1; ChainTurn 1].

Definition outputsState : State :=
  default (initial true) (final (exec toyCodec (initial true) outputsTrace)).

(** A read of resource 0 with the id ["i-1"], its remote call in flight. *)
Definition readTrace : list Event :=
  [CallReadResource 0 "t" "a" ∅ (withId (VStr "i-1"));
   PrepareDone 0; ChainTurn 0].

Definition readState : State :=
  default (initial true) (final (exec toyCodec (initial true) readTrace)).

(** A registration of resource 0, its remote call in flight. *)
Definition registerTrace : list Event :=
  [CallRegisterResource 0 "t" "a" true ∅ noOpts;
   PrepareDone 0; ChainTurn 0].

Definition registerState : State :=
  default (initial true) (final (exec toyCodec (initial true) registerTrace)).

(** ** The life of an operation and of a preparation *)

(** What the transition [ev] does to the phase of operation [j], and the
    remote call it issues with it: the continuation of [resourceChain.then]
    enters a read or register callback, which sends its request
    ([ps_issue]), or the attach-outputs callback, which awaits
    [res.urn.promise()] ([ps_await]) or finds no [res.urn] ([ps_no_urn]);
    the attach-outputs callback sends its request ([ps_attach]); the engine
    answers ([ps_answer], [ps_ack], [ps_fail]); [resolveOutputs] returns
    ([ps_done]) or throws ([ps_thrown]). *)
Inductive phase_step (codec : Codec) (s : State) (ev : Event) (j : nat) (op : Op)
    : Phase → list (nat * Request) → Prop :=
| ps_issue req :
    ev = ChainTurn j →
    o_phase op = Waiting → chain_settled s (o_chain op) = true →
    callback_request (o_callback op) = Some req →
    phase_step codec s ev j op (InFlight req) [(j, req)]
| ps_await res outputs k :
    ev = ChainTurn j →
    o_phase op = Waiting → chain_settled s (o_chain op) = true →
    o_callback op = CbOutputs res outputs → r_urn (resource s res) = Some k →
    phase_step codec s ev j op (AwaitingUrn k) []
| ps_no_urn res outputs e :
    ev = ChainTurn j →
    o_phase op = Waiting → chain_settled s (o_chain op) = true →
    o_callback op = CbOutputs res outputs → r_urn (resource s res) = None →
    phase_step codec s ev j op (Rejected e) []
| ps_attach res outputs k urn :
    ev = OutputsReady j →
    o_phase op = AwaitingUrn k → o_callback op = CbOutputs res outputs →
    urn_promise s k = Ready urn →
    phase_step codec s ev j op
      (InFlight (RegisterResourceOutputsRequest urn (serializeProperties codec outputs)))
      [(j, RegisterResourceOutputsRequest urn (serializeProperties codec outputs))]
| ps_answer req resp :
    ev = RpcReturn j None resp →
    o_phase op = InFlight req → callback_resop (o_callback op) ≠ None →
    phase_step codec s ev j op (Resolving resp) []
| ps_ack req resp :
    ev = RpcReturn j None resp →
    o_phase op = InFlight req → callback_resop (o_callback op) = None →
    phase_step codec s ev j op Fulfilled []
| ps_fail req e err resp :
    ev = RpcReturn j err resp →
    o_phase op = InFlight req → phase_step codec s ev j op (Rejected e) []
| ps_done resp keys :
    ev = OutputsResolved j keys →
    o_phase op = Resolving resp → phase_step codec s ev j op Fulfilled []
| ps_thrown resp keys e :
    ev = OutputsResolved j keys →
    o_phase op = Resolving resp → phase_step codec s ev j op (Failed resp e) [].

(** The URNs a request names: the dependencies and the parent of a read or
    a register, the resource of an attach-outputs. *)
Definition request_urns (req : Request) : list Value :=
  match req with
  | ReadResourceRequest _ _ _ parent _ _ deps => deps ++ option_list parent
  | RegisterResourceRequest _ _ parent _ _ _ _ deps => deps ++ option_list parent
  | RegisterResourceOutputsRequest urn _ => [urn]
  end.

(** The callback that [prepared] builds from the preparation [p] and its
    bundle [resop], with the request in it. *)
Definition built (codec : Codec) (p : Prep) (resop : ResourceResolverOperation)
    (cb : Callback) : Prop :=
  match p_kind p with
  | ThenRead t name id =>
      cb = CbRead (p_res p) t name (p_props p) resop (serializeProperty codec id)
             (ReadResourceRequest t name (serializeProperty codec id) (parentURN resop)
                (providerRef resop) (serializedProps resop) (dependencies resop))
  | ThenRegister t name =>
      cb = CbRegister (p_res p) t name (p_props p) resop
             (RegisterResourceRequest t name (parentURN resop) (p_custom p)
                (serializedProps resop) (opt_protect (p_opts p))
                (providerRef resop) (dependencies resop))
  end.

(** What the transition [ev] does to the queue and to the log of remote calls:
    nothing; or one operation enters, waiting, built by [prepared] from a
    preparation that just returned the bundle [resop], or by
    [registerResourceOutputs]; or one operation changes phase. *)
Inductive queue_step (codec : Codec) (s : State) (ev : Event) (s' : State) : Prop :=
| qs_same :
    ops s' = ops s → rpcLog s' = rpcLog s → queue_step codec s ev s'
| qs_outputs op :
    ops s' = ops s ++ [op] → rpcLog s' = rpcLog s → o_phase op = Waiting →
    callback_resop (o_callback op) = None →
    callback_request (o_callback op) = None →
    queue_step codec s ev s'
| qs_prepared op k p resop req :
    ops s' = ops s ++ [op] → rpcLog s' = rpcLog s → o_phase op = Waiting →
    preps s !! k = Some p → p_phase p = Preparing →
    prepareResource_resume codec s k p = Ready resop →
    built codec p resop (o_callback op) →
    callback_resop (o_callback op) = Some resop →
    callback_request (o_callback op) = Some req →
    request_urns req = dependencies resop ++ option_list (parentURN resop) →
    queue_step codec s ev s'
| qs_phase j op ph log :
    ops s !! j = Some op → phase_step codec s ev j op ph log →
    ops s' = <[j := set_phase ph op]> (ops s) → rpcLog s' = rpcLog s ++ log →
    queue_step codec s ev s'.

(** One preparation at two moments: what it was called with is the same, and
    a promise that was resolved is resolved to the same value. *)
Definition grows (p p' : Prep) : Prop :=
  p_kind p' = p_kind p ∧ p_label p' = p_label p ∧ p_res p' = p_res p ∧
  p_custom p' = p_custom p ∧ p_props p' = p_props p ∧ p_opts p' = p_opts p ∧
  p_dependsOn p' = p_dependsOn p ∧ p_urnApply p' = p_urnApply p ∧
  (∀ v, p_urn p = Some v → p_urn p' = Some v) ∧
  (∀ v, p_idValue p = Some v → p_idValue p' = Some v) ∧
  (∀ b, p_idApply p = Some b → p_idApply p' = Some b) ∧
  (∀ o, p_outputs p = Some o → p_outputs p' = Some o).

(** How the phase of the preparation [k] moves in one transition: not at
    all, or from [Preparing] to [Handed] when [prepareResource] returns its
    bundle, or to [PrepFailed] when it throws. *)
Definition prep_phase_step (codec : Codec) (s : State) (k : nat) (p p' : Prep) : Prop :=
  p_phase p' = p_phase p ∨
  (p_phase p = Preparing ∧
   ((p_phase p' = Handed ∧ ∃ resop, prepareResource_resume codec s k p = Ready resop) ∨
    (p_phase p' = PrepFailed ∧ ∃ e, prepareResource_resume codec s k p = Fails e))).

(** The engine has returned the URN [u] in its answer to operation [i]: the
    operation is answered and the URN promise it resolves holds [u]. *)
Definition urn_answered (s : State) (i : nat) (u : Value) : Prop :=
  ∃ op resop p,
    ops s !! i = Some op ∧ callback_resop (o_callback op) = Some resop ∧
    preps s !! resolveURN resop = Some p ∧ p_urn p = Some u ∧
    answered (o_phase op) = true.

(** The request [req] is the one the callback [cb] sends. *)
Definition request_of (codec : Codec) (cb : Callback) (req : Request) : Prop :=
  match cb with
  | CbRead _ _ _ _ _ _ req0 => req = req0
  | CbRegister _ _ _ _ _ req0 => req = req0
  | CbOutputs _ outputs =>
      ∃ urn, req = RegisterResourceOutputsRequest urn (serializeProperties codec outputs)
  end.

(** The remote call of an operation has left; it has not left yet.  (An
    operation that was rejected before it took an answer is in neither
    class: it may have been rejected before or after its call.) *)
Definition issued (ph : Phase) : bool :=
  match ph with
  | InFlight _ | Resolving _ | Fulfilled | Failed _ _ => true
  | _ => false
  end.

Definition unissued (ph : Phase) : bool :=
  match ph with
  | Waiting | AwaitingUrn _ => true
  | _ => false
  end.

(** The log of remote calls against the queue: the URNs a queued request
    names have been returned by the engine; an operation has an entry once
    its call has left, none before, and never two; an entry holds the
    request of its operation; and the URNs it names were returned to
    operations whose entries come before it. *)
Record log_inv (codec : Codec) (s : State) : Prop := {
  li_queued : ∀ i op req u,
      ops s !! i = Some op → callback_request (o_callback op) = Some req →
      u ∈ request_urns req → ∃ j, urn_answered s j u;
  li_sent : ∀ i op, ops s !! i = Some op → issued (o_phase op) = true →
                    i ∈ (rpcLog s).*1;
  li_unsent : ∀ i op, ops s !! i = Some op → unissued (o_phase op) = true →
                      i ∉ (rpcLog s).*1;
  li_once : NoDup (rpcLog s).*1;
  li_request : ∀ j req, (j, req) ∈ rpcLog s →
      ∃ op, ops s !! j = Some op ∧ request_of codec (o_callback op) req;
  li_order : ∀ l1 j req l2 u,
      rpcLog s = l1 ++ (j, req) :: l2 → u ∈ request_urns req →
      ∃ i, i ∈ l1.*1 ∧ urn_answered s i u;
}.

(** A preparation that awaits what never comes: some [d.urn] of its
    [dependsOn] was undefined, so that the argument of [Promise.all] was never
    built, or its own URN promise is among those it awaits. *)
Definition stuck (k : nat) (p : Prep) : Prop :=
  p_dependsOn p = None ∨ ∃ ks, p_dependsOn p = Some ks ∧ k ∈ ks.

(** Every read or register operation in the queue carries the callback that
    [prepared] builds from its preparation, with the inputs of the call
    serialized. *)
Definition requests_built (codec : Codec) (s : State) : Prop :=
  ∀ i op resop,
    ops s !! i = Some op → callback_resop (o_callback op) = Some resop →
    ∃ p, preps s !! resolveURN resop = Some p ∧
         built codec p resop (o_callback op) ∧
         serializedProps resop = (serializeResourceProperties codec (p_props p)).1.

(** One preparation at two moments between which its URN or id promise may
    have been resolved, and nothing else has happened to it. *)
Definition kept (p p' : Prep) : Prop :=
  grows p p' ∧ p_phase p' = p_phase p ∧ p_outputs p' = p_outputs p.

(** The output properties of a resource are resolved last: only by its own
    operation as it completes, and an answered operation has resolved the
    URN, and the id of a custom resource. *)
Record outputs_inv (s : State) : Prop := {
  oi_last : ∀ k p, preps s !! k = Some p → is_Some (p_outputs p) →
      ∃ i op resop, ops s !! i = Some op ∧
                    callback_resop (o_callback op) = Some resop ∧
                    resolveURN resop = k ∧ o_phase op = Fulfilled;
  oi_urn : ∀ i op resop p,
      ops s !! i = Some op → callback_resop (o_callback op) = Some resop →
      answered (o_phase op) = true → preps s !! resolveURN resop = Some p →
      is_Some (p_urn p) ∧
      (p_custom p = true → is_Some (p_idValue p) ∧ is_Some (p_idApply p));
}.

(** Serialize-mode on.  Resource 0 is registered and answered; the component
    1, with resource 0 as its parent and in its [dependsOn], is registered
    and answered; the outputs of the component are attached and their remote
    call is in flight. *)
Definition childOf (parent : nat) (d : DependsOn) : ResourceOptions :=
  {| opt_id := VUndefined; opt_parent := Some parent; opt_dependsOn := d;
     opt_protect := VUndefined; opt_provider := None |}.

Definition familyTrace : list Event :=
  [CallRegisterResource 0 "t" "x" true ∅ noOpts; PrepareDone 0; ChainTurn 0;
   RpcReturn 0 None (answer "urn:x" (VStr "id-x") None); OutputsResolved 0 [];
   CallRegisterResource 1 "t" "a" false ∅ (childOf 0 (DependsOnOne 0));
   PrepareDone 1; ChainTurn 1;
   RpcReturn 1 None (answer "urn:a" VUndefined None); OutputsResolved 1 [];
   CallRegisterResourceOutputs 1 (VStr "out"); ChainTurn 2; OutputsReady 2].

Definition familyState : State :=
  default (initial true) (final (exec toyCodec (initial true) familyTrace)).

(** Resource 0 lists itself in its [dependsOn]; resource 1 is declared after
    it and its remote call is in flight. *)
Definition selfCall : Event :=
  CallRegisterResource 0 "t" "a" true ∅ (dependingOn (DependsOnOne 0)).

Definition selfTrace : list Event :=
  [CallRegisterResource 1 "t" "b" true ∅ noOpts; PrepareDone 1; ChainTurn 0].

Definition selfStart : State :=
  default (initial true) (final (exec toyCodec (initial true) [selfCall])).

Definition selfState : State :=
  default (initial true) (final (exec toyCodec selfStart selfTrace)).

(** The registration of resource 0 has failed; resource 1, which depends on
    it, and resource 2, which does not, have been declared, and the
    preparation of resource 2 has returned. *)
Definition boom : JsError := mkError "boom" (Some 2%Z) "at Object.<anonymous>".

Definition failedTrace : list Event :=
  [CallRegisterResource 0 "t" "x" true ∅ noOpts; PrepareDone 0; ChainTurn 0;
   RpcReturn 0 (Some boom) (answer "" VUndefined None);
   CallRegisterResource 1 "t" "a" true ∅ (dependingOn (DependsOnOne 0));
   CallRegisterResource 2 "t" "b" true ∅ noOpts; PrepareDone 2].

Definition failedState : State :=
  default (initial true) (final (exec toyCodec (initial true) failedTrace)).

(** The provider 0 is registered and the engine answers with an empty id;
    the custom resource 1 is declared with provider 0. *)
Definition withProvider (provider : nat) : ResourceOptions :=
  {| opt_id := VUndefined; opt_parent := None; opt_dependsOn := DependsOnNone;
     opt_protect := VUndefined; opt_provider := Some provider |}.

Definition providerTrace : list Event :=
  [CallRegisterResource 0 "pulumi:providers:aws" "prov" true ∅ noOpts;
   PrepareDone 0; ChainTurn 0;
   RpcReturn 0 None (answer "urn:prov" (VStr "") None); OutputsResolved 0 [];
   CallRegisterResource 1 "t" "a" true ∅ (withProvider 0)].

Definition providerState : State :=
  default (initial true) (final (exec toyCodec (initial true) providerTrace)).

Definition provPrep : Prep :=
  mkPrep (ThenRegister "t" "a") "resource:a[t]" 1 true ∅ (withProvider 0) (Some [])
    None (Some true) None None None Preparing.

Definition provBundle : ResourceResolverOperation :=
  {| resolveURN := 1; resolveID := Some 1; resolvers := 1;
     parentURN := None;
     providerRef := Some "urn:prov::04da6b54-80e4-46f7-96ec-b56ff0331ba9";
     serializedProps := ∅; dependencies := [] |}.

(** A registration of resource 0 with two inputs; the engine has answered
    with one property, and [resolveOutputs] has not returned yet. *)
Definition mergeTrace : list Event :=
  [CallRegisterResource 0 "t" "a" true
     (<["in" := VStr "i"]> (<["out" := VStr "mine"]> ∅)) noOpts;
   PrepareDone 0; ChainTurn 0;
   RpcReturn 0 None (answer "urn:a" (VStr "id-a") (Some {[ "out" := VStr "v" ]}))].

Definition mergeState : State :=
  default (initial true) (final (exec toyCodec (initial true) mergeTrace)).



(** A registration of the component 0 with the input [a]; the engine has
    answered with a property named [hasOwnProperty], and [resolveOutputs]
    has not returned yet. *)
Definition shadowTrace : list Event :=
  [CallRegisterResource 0 "t" "a" false {[ "a" := VStr "1" ]} noOpts;
   PrepareDone 0; ChainTurn 0;
   RpcReturn 0 None
     (answer "urn:a" VUndefined (Some {[ "hasOwnProperty" := VStr "e" ]}))].

Definition shadowState : State :=
  default (initial true) (final (exec toyCodec (initial true) shadowTrace)).

(** After that, [resolveOutputs] has thrown, and the outputs of the
    component are attached. *)
Definition thrownTrace : list Event :=
  shadowTrace ++
  [OutputsResolved 0 ["a"]; CallRegisterResourceOutputs 0 (VStr "out"); ChainTurn 1].

Definition thrownState : State :=
  default (initial true) (final (exec toyCodec (initial true) thrownTrace)).

(** Resource 0 is registered and answered; then the component 1 is declared
    with resource 0 as its [dependsOn], not in an array. *)
Definition aloneState : State :=
  default (initial true) (final (exec toyCodec (initial true)
    [CallRegisterResource 0 "t" "x" true ∅ noOpts; PrepareDone 0; ChainTurn 0;
     RpcReturn 0 None (answer "urn:x" (VStr "id-x") None); OutputsResolved 0 []])).

Definition singleState : State :=
  default (initial true) (final (exec toyCodec aloneState
    [CallRegisterResource 1 "t" "a" false ∅ (dependingOn (DependsOnOne 0))])).
(** * Output merge *)

Section OutputMerge.

Context (codec : Codec).

Lemma Object_keys_elem props keys key :
  Object_keys props keys → (key ∈ keys ↔ is_Some (props !! key)).
Proof.
  intros [_ Hdom]. rewrite <- elem_of_dom, <- Hdom. by rewrite elem_of_list_to_set.
Qed.

Lemma Object_keys_map_to_list (props : Bag) : Object_keys props (map_to_list props).*1.
Proof.
  split; [apply NoDup_fst_map_to_list|].
  apply set_eq. intros key. rewrite elem_of_list_to_set, elem_of_dom. split.
  - intros Hin. apply list_elem_of_fmap in Hin as [[k x] [-> Hin]].
    apply elem_of_map_to_list in Hin. eauto.
  - intros [x Hx]. apply list_elem_of_fmap. exists (key, x). split; [done|].
    by apply elem_of_map_to_list.
Qed.

(** One turn of the loop on a bag that has no property named
    [hasOwnProperty]: the key keeps the value it has, or gets the input
    value after the round trip unless the serialization is [undefined]; no
    other key changes. *)
Lemma resolveOutputs_key_plain props allProps key :
  allProps !! "hasOwnProperty" = None →
  ∃ a, resolveOutputs_key codec props allProps key = inr a ∧
       a !! key =
         match allProps !! key with
         | Some v => Some v
         | None =>
             let w := serializeProperty codec (default VUndefined (props !! key)) in
             if bool_decide (w = VUndefined) then None
             else Some (deserializeProperty codec w)
         end ∧
       ∀ k, k ≠ key → a !! k = allProps !! k.
Proof.
  intros Hplain. unfold resolveOutputs_key, hasOwnProperty. rewrite Hplain.
  destruct (allProps !! key) as [v|] eqn:Hk.
  - rewrite bool_decide_eq_true_2 by eauto. exists allProps. by rewrite Hk.
  - rewrite bool_decide_eq_false_2 by (intros [? ?]; congruence). cbn zeta.
    case_bool_decide.
    + exists allProps. by rewrite Hk.
    + eexists. split; [reflexivity|]. split; [apply lookup_insert_eq|].
      intros k Hne. apply lookup_insert_ne. congruence.
Qed.

(** The loop on such a bag, over keys none of which is [hasOwnProperty]. *)
Lemma resolveOutputs_loop_plain props keys : ∀ allProps,
  allProps !! "hasOwnProperty" = None → "hasOwnProperty" ∉ keys →
  ∃ a, resolveOutputs_loop codec props allProps keys = inr a ∧
       ∀ k, a !! k =
            if bool_decide (k ∈ keys) then
              match allProps !! k with
              | Some v => Some v
              | None =>
                  let w := serializeProperty codec (default VUndefined (props !! k)) in
                  if bool_decide (w = VUndefined) then None
                  else Some (deserializeProperty codec w)
              end
            else allProps !! k.
Proof.
  induction keys as [|key keys IH]; intros allProps Hplain Hkeys.
  - exists allProps. split; [done|]. intros k.
    rewrite bool_decide_eq_false_2; [done|]. apply not_elem_of_nil.
  - apply not_elem_of_cons in Hkeys as [Hne Hkeys].
    destruct (resolveOutputs_key_plain props allProps key Hplain) as (a1 & H1 & Hself & Hother).
    destruct (IH a1) as (a & Ha & Hlook); [by rewrite Hother|done|].
    exists a. split; [simpl; by rewrite H1|].
    intros k. rewrite Hlook. destruct (decide (k = key)) as [->|Hk].
    + rewrite (bool_decide_eq_true_2 (key ∈ key :: keys)) by (apply elem_of_cons; by left).
      rewrite Hself. case_bool_decide; [|done].
      destruct (allProps !! key) as [v|]; [done|]. cbn zeta. by case_bool_decide.
    + rewrite (Hother k Hk). case_bool_decide as Hin.
      * rewrite bool_decide_eq_true_2 by (apply elem_of_cons; by right). done.
      * rewrite bool_decide_eq_false_2; [done|].
        intros Hc. apply elem_of_cons in Hc as [?|?]; done.
Qed.

(** A property named [hasOwnProperty] makes the first turn throw. *)
Lemma resolveOutputs_loop_shadowed props allProps key keys v :
  allProps !! "hasOwnProperty" = Some v →
  resolveOutputs_loop codec props allProps (key :: keys) =
  inl (TypeError "allProps.hasOwnProperty is not a function").
Proof.
  intros Hv. simpl. unfold resolveOutputs_key, hasOwnProperty. by rewrite Hv.
Qed.

(** The bag of the merge, key by key. *)
Lemma resolveOutputs_allProps_lookup props outputs keys :
  Object_keys props keys →
  from_option (deserializeProperties codec) ∅ outputs !! "hasOwnProperty" = None →
  props !! "hasOwnProperty" = None →
  ∃ allProps,
    resolveOutputs_allProps codec props outputs keys = inr allProps ∧
    ∀ key, allProps !! key =
           match from_option (deserializeProperties codec) ∅ outputs !! key with
           | Some v => Some v
           | None =>
               x ← props !! key;
               let w := serializeProperty codec x in
               if bool_decide (w = VUndefined) then None
               else Some (deserializeProperty codec w)
           end.
Proof.
  intros Hkeys Hengine Hinputs. unfold resolveOutputs_allProps.
  replace (match outputs with Some o => deserializeProperties codec o | None => ∅ end)
    with (from_option (deserializeProperties codec) ∅ outputs) by (by destruct outputs).
  set (engine := from_option (deserializeProperties codec) ∅ outputs) in *.
  destruct (resolveOutputs_loop_plain props keys engine Hengine) as (a & Ha & Hlook).
  { rewrite (Object_keys_elem _ _ _ Hkeys), Hinputs. by intros [? ?]. }
  exists a. split; [done|]. intros key. rewrite Hlook.
  destruct (props !! key) as [x|] eqn:Hx; simpl.
  - rewrite bool_decide_eq_true_2; [done|].
    apply (Object_keys_elem _ _ _ Hkeys). by rewrite Hx.
  - rewrite bool_decide_eq_false_2; [by destruct (engine !! key)|].
    rewrite (Object_keys_elem _ _ _ Hkeys), Hx. by intros [? ?].
Qed.

(** C3.  Where no property is named [hasOwnProperty] or [__proto__] (an
    assignment to [__proto__] sets the prototype of [allProps] and creates no
    property), the merge is what the specification says, in whatever order
    [Object.keys] lists the inputs: the merged bag holds the engine's value
    under every key the engine returned; under any other input key it holds
    the input value after the serialize-then-deserialize round trip, and
    nothing when the serialization is [undefined]; it holds no other key.
    Engine output [{foo: x}] with inputs [{foo: y, bar: z, baz: b}], where
    [z] survives the round trip and [b] serializes to [undefined], gives
    exactly [{foo: x, bar: z}].  But when the engine returns a property
    named [hasOwnProperty] and the inputs are not empty, no bag is built:
    the call [allProps.hasOwnProperty(key)] of the first turn finds that
    property, not the method, and throws. *)
Theorem resolveOutputs_merge :
  (∀ props outputs keys,
     Object_keys props keys →
     from_option (deserializeProperties codec) ∅ outputs !! "hasOwnProperty" = None →
     from_option (deserializeProperties codec) ∅ outputs !! "__proto__" = None →
     props !! "hasOwnProperty" = None → props !! "__proto__" = None →
     ∃ allProps,
       resolveOutputs_allProps codec props outputs keys = inr allProps ∧
       ∀ key, allProps !! key =
              match from_option (deserializeProperties codec) ∅ outputs !! key with
              | Some v => Some v
              | None =>
                  x ← props !! key;
                  let w := serializeProperty codec x in
                  if bool_decide (w = VUndefined) then None
                  else Some (deserializeProperty codec w)
              end) ∧
  (∀ o x y z b keys,
     Object_keys (<["foo" := y]> (<["bar" := z]> (<["baz" := b]> ∅))) keys →
     deserializeProperties codec o = {[ "foo" := x ]} →
     serializeProperty codec z ≠ VUndefined →
     deserializeProperty codec (serializeProperty codec z) = z →
     serializeProperty codec b = VUndefined →
     resolveOutputs_allProps codec
       (<["foo" := y]> (<["bar" := z]> (<["baz" := b]> ∅))) (Some o) keys =
     inr (<["foo" := x]> (<["bar" := z]> ∅))) ∧
  (∀ props o keys v,
     Object_keys props keys → props ≠ ∅ →
     deserializeProperties codec o !! "hasOwnProperty" = Some v →
     resolveOutputs_allProps codec props (Some o) keys =
     inl (TypeError "allProps.hasOwnProperty is not a function")).
Proof.
  split_and!.
  - intros props outputs keys Hkeys He _ Hi _.
    by apply resolveOutputs_allProps_lookup.
  - intros o x y z b keys Hkeys Ho Hz Hzz Hb.
    destruct (resolveOutputs_allProps_lookup
                (<["foo" := y]> (<["bar" := z]> (<["baz" := b]> ∅))) (Some o) keys Hkeys)
      as (a & Ha & Hlook).
    { simpl. rewrite Ho. by rewrite lookup_singleton_ne. }
    { by rewrite !lookup_insert_ne, lookup_empty. }
    rewrite Ha. f_equal. apply map_eq. intros key. rewrite Hlook. simpl. rewrite Ho.
    destruct (decide (key = "foo")) as [->|Hfoo].
    { by rewrite lookup_singleton_eq, lookup_insert_eq. }
    rewrite lookup_singleton_ne by done.
    rewrite !(lookup_insert_ne _ "foo") by done.
    destruct (decide (key = "bar")) as [->|Hbar].
    { rewrite !lookup_insert_eq. simpl.
      rewrite bool_decide_eq_false_2 by done. by rewrite Hzz. }
    rewrite !(lookup_insert_ne _ "bar") by done.
    destruct (decide (key = "baz")) as [->|Hbaz].
    { rewrite lookup_insert_eq. simpl. by rewrite Hb. }
    by rewrite lookup_insert_ne, lookup_empty.
  - intros props o keys v Hkeys Hne Hv. unfold resolveOutputs_allProps.
    destruct keys as [|key keys].
    + destruct Hne. apply map_eq. intros k. rewrite lookup_empty.
      destruct (props !! k) as [x|] eqn:Hx; [|done].
      assert (Hin : k ∈ []) by (apply (Object_keys_elem _ _ _ Hkeys); by rewrite Hx).
      by apply elem_of_nil in Hin.
    + by eapply resolveOutputs_loop_shadowed.
Qed.

End OutputMerge.

Lemma resolveOutputs_merge_witness :
  resolveOutputs_allProps toyCodec
    (<["foo" := VStr "y"]> (<["bar" := VStr "z"]> (<["baz" := VUndefined]> ∅)))
    (Some {[ "foo" := VStr "x" ]}) ["baz"; "foo"; "bar"] =
  inr (<["foo" := VStr "x"]> (<["bar" := VStr "z"]> ∅)) ∧
  resolveOutputs_allProps toyCodec {[ "a" := VStr "1" ]}
    (Some {[ "hasOwnProperty" := VStr "e" ]}) ["a"] =
  inl (TypeError "allProps.hasOwnProperty is not a function").
Proof.
  split.
  - apply (proj1 (proj2 (resolveOutputs_merge toyCodec)));
      [apply (bool_decide_unpack _); vm_compute; exact I|reflexivity|discriminate|reflexivity..].
  - apply (proj2 (proj2 (resolveOutputs_merge toyCodec)) _ _ _ (VStr "e"));
      [apply (bool_decide_unpack _); vm_compute; exact I| |reflexivity].
    intros H. apply (f_equal (λ m : Bag, m !! "a")) in H. vm_compute in H. discriminate.
Defined.

(** * The effect of the primitive operations *)

Lemma runAsyncResourceOp_run label cb serial s :
  runAsyncResourceOp label cb serial s =
  let b := default (serialize s) serial in
  Ok tt (mkState (serialize s)
           (if b then ChainFinal (length (ops s)) else resourceChain s)
           (resourceChainLabel s) (S (keepAlive s)) (resources s) (preps s)
           (ops s ++ [mkOp label b (resourceChain s) cb Waiting])
           (rpcLog s) (unhandled s) (errorLog s)).
Proof.
  unfold runAsyncResourceOp, bind, get, modify, rpcKeepAlive, ret. simpl.
  destruct s as [mode ? ? ? ? ? ? ? ? ?].
  destruct serial as [[]|]; [reflexivity..|]. by destruct mode.
Qed.

(** * The dependency set *)

Section Dependencies.

Context (codec : Codec).

Lemma Set_add_elem x set u : u ∈ Set_add x set ↔ u = x ∨ u ∈ set.
Proof.
  unfold Set_add. case_bool_decide as Hin.
  - split; [by right|]. by intros [->|?].
  - rewrite elem_of_app, list_elem_of_singleton. tauto.
Qed.

Lemma Set_add_NoDup x set : NoDup set → NoDup (Set_add x set).
Proof.
  intros Hnd. unfold Set_add. case_bool_decide as Hin; [done|].
  apply NoDup_app. split_and!; [done| |apply NoDup_singleton].
  intros y Hy Hx. apply list_elem_of_singleton in Hx. by subst.
Qed.

Lemma Set_add_all_elem l : ∀ set u,
  u ∈ foldl (λ set x, Set_add x set) set l ↔ u ∈ set ∨ u ∈ l.
Proof.
  induction l as [|x l IH]; intros set u; simpl.
  - rewrite elem_of_nil. tauto.
  - rewrite IH, Set_add_elem, elem_of_cons. tauto.
Qed.

Lemma Set_add_all_NoDup l : ∀ set,
  NoDup set → NoDup (foldl (λ set x, Set_add x set) set l).
Proof.
  induction l as [|x l IH]; intros set Hnd; simpl; [done|].
  by apply IH, Set_add_NoDup.
Qed.

Lemma dependency_set_elem ex im u :
  u ∈ dependency_set ex im ↔ u ∈ ex ∨ u ∈ im.
Proof.
  unfold dependency_set, new_Set.
  rewrite !Set_add_all_elem, elem_of_nil. tauto.
Qed.

Lemma dependency_set_NoDup ex im : NoDup (dependency_set ex im).
Proof.
  unfold dependency_set, new_Set.
  apply Set_add_all_NoDup, Set_add_all_NoDup, NoDup_nil_2.
Qed.

(** The loop over the implicit dependencies awaits each URN in turn. *)
Lemma add_implicit_ready s im : ∀ set deps,
  add_implicit s set im = Ready deps →
  ∃ urns, mapM (await_urn s) im = Ready urns ∧
          deps = foldl (λ set x, Set_add x set) set urns.
Proof.
  induction im as [|r im IH]; intros set deps H; simpl in *.
  - exists []. by inversion H.
  - destruct (await_urn s r) as [u| |e] eqn:Hu; simpl in H; try discriminate.
    apply IH in H as (urns & Hm & ->).
    exists (u :: urns). split; [|done].
    unfold mbind, Await_bind in Hm |- *. simpl. by rewrite Hm.
Qed.

(** The bundle a finished preparation returns. *)
Lemma prepareResource_resume_ready s k p resop :
  prepareResource_resume codec s k p = Ready resop →
  ∃ ks explicitURNs implicitURNs,
    p_dependsOn p = Some ks ∧
    mapM (urn_promise s) ks = Ready explicitURNs ∧
    mapM (await_urn s) (serializeResourceProperties codec (p_props p)).2
      = Ready implicitURNs ∧
    dependencies resop = dependency_set explicitURNs implicitURNs ∧
    serializedProps resop = (serializeResourceProperties codec (p_props p)).1 ∧
    resolveURN resop = k ∧ resolvers resop = k ∧
    resolveID resop = (if p_custom p then Some k else None).
Proof.
  unfold prepareResource_resume. intros H.
  destruct (p_dependsOn p) as [ks|]; [|discriminate].
  destruct (mapM (urn_promise s) ks) as [ex| |] eqn:Hex; try discriminate.
  simpl in H.
  destruct (serializeResourceProperties codec (p_props p)) as [sp im] eqn:Hser.
  match type of H with (?m ≫= _) = _ => destruct m as [parent| |]; try discriminate end.
  simpl in H.
  match type of H with (?m ≫= _) = _ => destruct m as [prov| |]; try discriminate end.
  simpl in H.
  destruct (add_implicit s (new_Set ex) im) as [deps| |] eqn:Him; try discriminate.
  simpl in H. injection H as <-. simpl.
  apply add_implicit_ready in Him as (urns & Hm & ->).
  exists ks, ex, urns. by repeat split.
Qed.

End Dependencies.

(** * The operation queue *)

Section Queue.

Lemma chain_settled_ops s s' c :
  ops s' = ops s → chain_settled s' c = chain_settled s c.
Proof. intros H. unfold chain_settled. by rewrite H. Qed.

(** Changing the phase of one operation keeps its flag, its chain and its
    callback. *)
Lemma lookup_set_phase (l : list Op) i op ph j :
  l !! i = Some op →
  <[i := set_phase ph op]> l !! j =
  if decide (i = j) then Some (set_phase ph op) else l !! j.
Proof.
  intros Hi. destruct (decide (i = j)) as [<-|Hne].
  - apply list_lookup_insert_eq. by eapply lookup_lt_Some.
  - by apply list_lookup_insert_ne.
Qed.

Lemma lookup_set_phase_Some (l : list Op) i op ph j op' :
  l !! i = Some op →
  <[i := set_phase ph op]> l !! j = Some op' →
  ∃ op0, l !! j = Some op0 ∧ o_serial op' = o_serial op0 ∧
         o_chain op' = o_chain op0 ∧ o_callback op' = o_callback op0 ∧
         o_phase op' = (if decide (i = j) then ph else o_phase op0).
Proof.
  intros Hi. rewrite (lookup_set_phase _ _ _ _ _ Hi).
  destruct (decide (i = j)) as [<-|]; intros H.
  - injection H as <-. by exists op.
  - by exists op'.
Qed.

Lemma lookup_set_phase_inv (l : list Op) i op ph j op0 :
  l !! i = Some op → l !! j = Some op0 →
  ∃ op', <[i := set_phase ph op]> l !! j = Some op' ∧
         o_serial op' = o_serial op0 ∧
         o_phase op' = (if decide (i = j) then ph else o_phase op0).
Proof.
  intros Hi Hj. rewrite (lookup_set_phase _ _ _ _ _ Hi).
  destruct (decide (i = j)) as [<-|]; [|by exists op0].
  exists (set_phase ph op). split; [done|]. simpl. split; [congruence|done].
Qed.

Lemma chain_points_set_phase l i op ph j c :
  l !! i = Some op →
  chain_points l j c → chain_points (<[i := set_phase ph op]> l) j c.
Proof.
  intros Hi. destruct c as [|c]; simpl.
  - intros H i' op' Hlt Hl.
    apply (lookup_set_phase_Some _ _ _ _ _ _ Hi) in Hl as (op0 & Hl & -> & _).
    eauto.
  - intros (Hlt & (opc & Hc & Hser) & H). split; [done|]. split.
    + destruct (lookup_set_phase_inv _ _ _ ph _ _ Hi Hc) as (op' & Hl & Hs & _).
      exists op'. split; [done|congruence].
    + intros i' op' Hr Hl.
      apply (lookup_set_phase_Some _ _ _ _ _ _ Hi) in Hl as (op0 & Hl & -> & _).
      eauto.
Qed.

Lemma chain_points_app l op j c :
  j ≤ length l → chain_points l j c → chain_points (l ++ [op]) j c.
Proof.
  intros Hj. destruct c as [|c]; simpl.
  - intros H i op' Hlt Hl. rewrite lookup_app_l in Hl by lia. eauto.
  - intros (Hlt & (opc & Hc & Hser) & H). split; [done|]. split.
    + exists opc. split; [|done]. by apply lookup_app_l_Some.
    + intros i op' Hr Hl. rewrite lookup_app_l in Hl by lia. eauto.
Qed.

Lemma chain_points_snoc l op :
  chain_points l (length l) (o_chain op) →
  chain_points (l ++ [op]) (S (length l))
    (if o_serial op then ChainFinal (length l) else o_chain op).
Proof.
  intros H. destruct (o_serial op) eqn:Hs.
  - simpl. split; [lia|]. split; [|intros; lia].
    exists op. split; [|done]. by apply list_lookup_middle.
  - destruct (o_chain op) as [|c]; simpl in *.
    + intros i op' Hlt Hl. destruct (decide (i = length l)) as [->|].
      * rewrite list_lookup_middle in Hl by done. congruence.
      * rewrite lookup_app_l in Hl by lia. apply (H i); [lia|done].
    + destruct H as (Hlt & (opc & Hc & Hser) & H). split; [lia|]. split.
      * exists opc. split; [|done]. by apply lookup_app_l_Some.
      * intros i op' Hr Hl. destruct (decide (i = length l)) as [->|].
        -- rewrite list_lookup_middle in Hl by done. congruence.
        -- rewrite lookup_app_l in Hl by lia. apply (H i); [lia|done].
Qed.

Lemma outstanding_snoc l op :
  outstanding (l ++ [op]) =
  if settled (o_phase op) then outstanding l else S (outstanding l).
Proof.
  unfold outstanding. rewrite filter_app, length_app.
  destruct (settled (o_phase op)) eqn:Hs.
  - rewrite filter_cons_False by (simpl; congruence). simpl. lia.
  - rewrite filter_cons_True by done. simpl. lia.
Qed.

Lemma outstanding_middle l1 op l2 :
  outstanding (l1 ++ op :: l2) =
  outstanding l1 + (if settled (o_phase op) then 0 else 1) + outstanding l2.
Proof.
  unfold outstanding. rewrite filter_app, length_app.
  destruct (settled (o_phase op)) eqn:Hs.
  - rewrite filter_cons_False by (simpl; congruence). lia.
  - rewrite filter_cons_True by done. simpl. lia.
Qed.

Lemma outstanding_set_phase l i op ph :
  l !! i = Some op → settled (o_phase op) = false →
  outstanding (<[i := set_phase ph op]> l) =
  if settled ph then pred (outstanding l) else outstanding l.
Proof.
  intros Hi Hs.
  rewrite insert_take_drop by (by eapply lookup_lt_Some).
  rewrite outstanding_middle. simpl.
  pose proof (take_drop_middle l i op Hi) as Hl.
  apply (f_equal outstanding) in Hl. rewrite outstanding_middle, Hs in Hl.
  destruct (settled ph); lia.
Qed.

Lemma chain_settled_push s s' op c :
  ops s' = ops s ++ [op] →
  chain_settled s c = true → chain_settled s' c = true.
Proof.
  intros Hops. destruct c as [|c]; [done|]. simpl. rewrite Hops.
  destruct (ops s !! c) as [opc|] eqn:Hc; [|done].
  by rewrite (lookup_app_l_Some _ _ _ _ Hc).
Qed.

Lemma chain_settled_move s s' i op ph c :
  ops s !! i = Some op → settled (o_phase op) = false →
  ops s' = <[i := set_phase ph op]> (ops s) →
  chain_settled s c = true → chain_settled s' c = true.
Proof.
  intros Hi Hs Hops. destruct c as [|c]; [done|]. simpl. rewrite Hops.
  rewrite (lookup_set_phase _ _ _ _ _ Hi).
  destruct (decide (i = c)) as [<-|]; [|done].
  rewrite Hi. congruence.
Qed.

(** A transition that leaves the queue alone. *)
Lemma queue_inv_same s s' :
  serialize s' = serialize s → ops s' = ops s →
  resourceChain s' = resourceChain s → keepAlive s' = keepAlive s →
  (∀ e, e ∈ unhandled s → e ∈ unhandled s') → rpcLog s' = rpcLog s →
  queue_inv s → queue_inv s'.
Proof.
  intros Hm Ho Hc Hk Hu Hl [I1 I2 I3 I4 I5 I6 I7].
  split; rewrite ?Ho, ?Hc, ?Hk, ?Hm, ?Hl; try done.
  - intros j op Hj Hst. rewrite (chain_settled_ops _ _ _ Ho). eauto.
  - intros j op e Hj Hr. eauto.
Qed.

(** A call of [runAsyncResourceOp]. *)
Lemma queue_inv_push s s' op :
  serialize s' = serialize s →
  ops s' = ops s ++ [op] →
  o_phase op = Waiting → o_chain op = resourceChain s →
  (o_serial op = true → serialize s = true) →
  resourceChain s' =
    (if o_serial op then ChainFinal (length (ops s)) else resourceChain s) →
  keepAlive s' = S (keepAlive s) →
  unhandled s' = unhandled s → rpcLog s' = rpcLog s →
  queue_inv s → queue_inv s'.
Proof.
  intros Hm Ho Hph Hch Hser Hc Hk Hu Hl [I1 I2 I3 I4 I5 I6 I7].
  split; rewrite ?Ho, ?Hc, ?Hk, ?Hm, ?Hu, ?Hl.
  - rewrite length_app. simpl. rewrite Nat.add_1_r.
    rewrite <- Hch. apply chain_points_snoc. by rewrite Hch.
  - intros j op' Hj. apply lookup_app_Some in Hj as [Hj|[Hlen Hj]].
    + apply chain_points_app; [apply lookup_lt_Some in Hj; lia|eauto].
    + destruct (j - length (ops s)) as [|n] eqn:Hn; [|done].
      injection Hj as <-. assert (j = length (ops s)) as -> by lia.
      rewrite Hch. by apply chain_points_app.
  - intros j op' Hj Hst. apply (chain_settled_push s s' op); [done|].
    apply lookup_app_Some in Hj as [Hj|[Hlen Hj]]; [eauto|].
    destruct (j - length (ops s)) as [|n]; [|done].
    injection Hj as <-. by rewrite Hph in Hst.
  - rewrite outstanding_snoc, Hph. simpl. by rewrite I4.
  - intros j op' Hj Hs. apply lookup_app_Some in Hj as [Hj|[Hlen Hj]]; [eauto|].
    destruct (j - length (ops s)) as [|n]; [|done].
    injection Hj as <-. auto.
  - intros j op' e Hj Hr. apply lookup_app_Some in Hj as [Hj|[Hlen Hj]]; [eauto|].
    destruct (j - length (ops s)) as [|n]; [|done].
    injection Hj as <-. rewrite Hph in Hr. by apply elem_of_nil in Hr.
  - intros j req Hin. destruct (I7 j req Hin) as (op' & Hj & Hst).
    exists op'. split; [by apply lookup_app_l_Some|done].
Qed.

(** One operation starts, goes on, or settles. *)
Lemma queue_inv_move s s' i op ph :
  serialize s' = serialize s →
  ops s !! i = Some op → settled (o_phase op) = false → started ph = true →
  (o_phase op = Waiting → chain_settled s (o_chain op) = true) →
  ops s' = <[i := set_phase ph op]> (ops s) →
  resourceChain s' = resourceChain s →
  keepAlive s' = (if settled ph then pred (keepAlive s) else keepAlive s) →
  unhandled s' = unhandled s ++ failure ph →
  rpcLog s' = rpcLog s ++ match ph with InFlight req => [(i, req)] | _ => [] end →
  queue_inv s → queue_inv s'.
Proof.
  intros Hm Hi Hs Hst Hw Ho Hc Hk Hu Hl [I1 I2 I3 I4 I5 I6 I7].
  split; rewrite ?Ho, ?Hc, ?Hk, ?Hm.
  - rewrite length_insert. by apply chain_points_set_phase.
  - intros j op' Hj.
    apply (lookup_set_phase_Some _ _ _ _ _ _ Hi) in Hj as (op0 & Hj & _ & -> & _).
    apply chain_points_set_phase; eauto.
  - intros j op' Hj Hst'.
    apply (lookup_set_phase_Some _ _ _ _ _ _ Hi) in Hj
      as (op0 & Hj & _ & Hch & _ & Hph).
    rewrite Hch. apply (chain_settled_move s s' i op ph); try done.
    destruct (decide (i = j)) as [<-|].
    + assert (op0 = op) as -> by congruence.
      destruct (o_phase op) eqn:Hop; try (apply (I3 i op); [done|by rewrite Hop]).
      by apply Hw.
    + apply (I3 j op0); [done|congruence].
  - rewrite (outstanding_set_phase _ _ _ _ Hi Hs). by rewrite I4.
  - intros j op' Hj Hser.
    apply (lookup_set_phase_Some _ _ _ _ _ _ Hi) in Hj as (op0 & Hj & Hs' & _).
    apply (I5 j op0); congruence.
  - intros j op' e Hj Hr.
    apply (lookup_set_phase_Some _ _ _ _ _ _ Hi) in Hj
      as (op0 & Hj & _ & _ & _ & Hph).
    rewrite Hu, elem_of_app. destruct (decide (i = j)) as [<-|].
    + right. by rewrite <- Hph.
    + left. apply (I6 j op0); congruence.
  - intros j req Hin. rewrite Hl in Hin. apply elem_of_app in Hin as [Hin|Hin].
    + destruct (I7 j req Hin) as (op0 & Hj & Hst0).
      destruct (lookup_set_phase_inv _ _ _ ph _ _ Hi Hj) as (op' & Hj' & _ & Hph).
      exists op'. split; [done|]. rewrite Hph. by destruct (decide (i = j)).
    + destruct ph; try (by apply elem_of_nil in Hin).
      apply list_elem_of_singleton in Hin. injection Hin as -> ->.
      exists (set_phase (InFlight req0) op). split; [|done].
      apply list_lookup_insert_eq. by eapply lookup_lt_Some.
Qed.

Lemma queue_inv_change codec s s' :
  serialize s' = serialize s →
  queue_inv s → change codec s s' → queue_inv s'.
Proof.
  intros Hm I Hch.
  destruct Hch as [Hp Ho Hc Hk Hu Hl
                  |p _ _ _ _ Hp Ho Hc Hk Hu Hl
                  |k p e _ _ Hp Ho Hc Hk Hu Hl
                  |k p op _ _ Hp _ Hph Hch Hser Ho Hc Hk Hu Hl
                  |op _ Hser Hph Hch Hp Ho Hc Hk Hu Hl
                  |i op ph Hi Hs Hst Hw _ Hp Ho Hc Hk Hu Hl
                  |i op resop p p' ph Hi Hs Hst Hans _ _ _ Hp Ho Hc Hk Hu Hl].
  - apply (queue_inv_same s); try done. intros e. congruence.
  - apply (queue_inv_same s); try done. intros e. congruence.
  - apply (queue_inv_same s); try done.
    intros e' He. rewrite Hu. apply elem_of_app. by left.
  - apply (queue_inv_push s s' op); try done. congruence.
  - apply (queue_inv_push s s' op); try done; [congruence|].
    by rewrite Hser.
  - by apply (queue_inv_move s s' i op ph).
  - apply (queue_inv_move s s' i op ph); try done.
    + by destruct ph.
    + intros Hw. rewrite Hw in Hst. done.
    + rewrite Hl. destruct ph; try done; by rewrite app_nil_r.
Qed.

End Queue.

(** * The promises of a preparation *)

Section Cells.

Context (codec : Codec).

Lemma owns_static k p p' cb :
  p_kind p' = p_kind p → p_custom p' = p_custom p → p_props p' = p_props p →
  p_opts p' = p_opts p → p_res p' = p_res p →
  owns codec k p cb → owns codec k p' cb.
Proof.
  intros Hk Hc Hp Ho Hr (resop & H1 & H2 & H3 & H4 & H5).
  exists resop. rewrite Hc. split_and!; try done.
  destruct cb; rewrite ?Hk, ?Ho, ?Hp, ?Hr; done.
Qed.

Lemma kind_ok_static p p' :
  p_kind p' = p_kind p → p_custom p' = p_custom p → p_opts p' = p_opts p →
  kind_ok p → kind_ok p'.
Proof.
  intros Hk Hc Ho H t name id. rewrite Hk, Hc, Ho. apply H.
Qed.

Lemma owns_resop k p cb resop :
  owns codec k p cb → callback_resop cb = Some resop →
  resolveURN resop = k ∧ resolvers resop = k ∧
  resolveID resop = (if p_custom p then Some k else None).
Proof.
  intros (r & H1 & H2 & H3 & H4 & _) Hr.
  assert (r = resop) as -> by congruence. done.
Qed.

Lemma lookup_insert_prep (l : list Prep) k p' j q :
  <[k := p']> l !! j = Some q →
  (j = k ∧ q = p') ∨ (j ≠ k ∧ l !! j = Some q).
Proof.
  intros H. apply list_lookup_insert_Some in H as [(-> & -> & _)|[? ?]]; auto.
Qed.

Lemma lookup_snoc_cases {A} (l : list A) x j y :
  (l ++ [x]) !! j = Some y →
  l !! j = Some y ∨ (j = length l ∧ y = x).
Proof.
  intros H. apply lookup_app_Some in H as [H|[Hlen H]]; [by left|right].
  destruct (j - length l) as [|n] eqn:Hn; [|done].
  injection H as <-. split; [lia|done].
Qed.

(** The tables are untouched. *)
Lemma cells_inv_same s s' :
  preps s' = preps s → ops s' = ops s → cells_inv codec s → cells_inv codec s'.
Proof.
  intros Hp Ho [I1 I2 I3 I4 I5 I6]. split; rewrite ?Hp, ?Ho; done.
Qed.

(** A resource is declared. *)
Lemma cells_inv_declare s s' p :
  pending p → p_phase p = Preparing → p_urnApply p = Some true → kind_ok p →
  preps s' = preps s ++ [p] → ops s' = ops s →
  cells_inv codec s → cells_inv codec s'.
Proof.
  intros Hpend Hph Hap Hkind Hp Ho [I1 I2 I3 I4 I5 I6].
  split; rewrite ?Hp, ?Ho.
  - intros k q Hk. apply lookup_snoc_cases in Hk as [Hk|[-> ->]]; eauto.
  - intros k q Hk Hq. apply lookup_snoc_cases in Hk as [Hk|[-> ->]]; eauto.
  - intros k q i op resop Hk Hq Hi Hr.
    apply lookup_snoc_cases in Hk as [Hk|[-> ->]]; [eauto|].
    destruct (I5 i op resop Hi Hr) as (p0 & Hp0 & _).
    apply lookup_lt_Some in Hp0. lia.
  - intros k q Hk Hq. apply lookup_snoc_cases in Hk as [Hk|[-> ->]]; [eauto|].
    congruence.
  - intros i op resop Hi Hr.
    destruct (I5 i op resop Hi Hr) as (p0 & Hp0 & H).
    exists p0. split; [by apply lookup_app_l_Some|done].
  - done.
Qed.

(** A preparation changes phase, to [ph]. *)
Lemma cells_inv_prep_failed s s' k p :
  preps s !! k = Some p → p_phase p = Preparing →
  preps s' = <[k := set_p_phase PrepFailed p]> (preps s) → ops s' = ops s →
  cells_inv codec s → cells_inv codec s'.
Proof.
  intros Hk Hph Hp Ho [I1 I2 I3 I4 I5 I6].
  assert (Hpend : pending p) by (apply (I2 k); [done|congruence]).
  split; rewrite ?Hp, ?Ho.
  - intros j q Hj. apply lookup_insert_prep in Hj as [[-> ->]|[Hne Hj]]; [|eauto].
    destruct (I1 k p Hk) as [? ?]. split; [done|].
    by apply (kind_ok_static p).
  - intros j q Hj Hq. apply lookup_insert_prep in Hj as [[-> ->]|[Hne Hj]]; eauto.
  - intros j q i op resop Hj Hq Hi Hr.
    apply lookup_insert_prep in Hj as [[-> ->]|[Hne Hj]]; [|eauto].
    apply (I3 k p i op resop); try done. congruence.
  - intros j q Hj Hq. apply lookup_insert_prep in Hj as [[-> ->]|[Hne Hj]]; [|eauto].
    done.
  - intros i op resop Hi Hr.
    destruct (I5 i op resop Hi Hr) as (p0 & Hp0 & Hh & H).
    exists p0. split; [|done]. rewrite list_lookup_insert_ne; [done|].
    intros Heq. rewrite <- Heq in Hp0. congruence.
  - done.
Qed.

(** A preparation returns and its operation enters the queue. *)
Lemma cells_inv_schedule s s' k p op :
  preps s !! k = Some p → p_phase p = Preparing →
  preps s' = <[k := set_p_phase Handed p]> (preps s) →
  owns codec k p (o_callback op) → o_phase op = Waiting →
  ops s' = ops s ++ [op] →
  cells_inv codec s → cells_inv codec s'.
Proof.
  intros Hk Hph Hp Hown Hw Ho [I1 I2 I3 I4 I5 I6].
  assert (Hpend : pending p) by (apply (I2 k); [done|congruence]).
  assert (Hfree : ∀ i op' resop, ops s !! i = Some op' →
            callback_resop (o_callback op') = Some resop → resolveURN resop ≠ k).
  { intros i op' resop Hi Hr. apply (I3 k p i op' resop); try done. congruence. }
  destruct Hown as (resop & Hr & Hu & Hown).
  assert (Hown' : owns codec k (set_p_phase Handed p) (o_callback op))
    by (by exists resop).
  split; rewrite ?Hp, ?Ho.
  - intros j q Hj. apply lookup_insert_prep in Hj as [[-> ->]|[Hne Hj]]; [|eauto].
    destruct (I1 k p Hk) as [? ?]. split; [done|]. by apply (kind_ok_static p).
  - intros j q Hj Hq. apply lookup_insert_prep in Hj as [[-> ->]|[Hne Hj]]; eauto.
  - intros j q i op' resop' Hj Hq Hi Hr'.
    apply lookup_insert_prep in Hj as [[-> ->]|[Hne Hj]]; [done|].
    apply lookup_snoc_cases in Hi as [Hi|[-> ->]]; [eauto|].
    congruence.
  - intros j q Hj Hq. apply lookup_insert_prep in Hj as [[-> ->]|[Hne Hj]].
    + exists (length (ops s)), op, resop.
      split; [by apply list_lookup_middle|done].
    + destruct (I4 j q Hj Hq) as (i & op' & resop' & Hi & H).
      exists i, op', resop'. split; [by apply lookup_app_l_Some|done].
  - intros i op' resop' Hi Hr'.
    apply lookup_snoc_cases in Hi as [Hi|[-> ->]].
    + destruct (I5 i op' resop' Hi Hr') as (p0 & Hp0 & H).
      exists p0. split; [|done]. rewrite list_lookup_insert_ne; [done|].
      intros Heq. by apply (Hfree i op' resop').
    + assert (resop' = resop) as -> by congruence. rewrite Hu.
      exists (set_p_phase Handed p). split_and!; try done.
      apply list_lookup_insert_eq. by eapply lookup_lt_Some.
  - intros i j opi opj ri rj Hi Hj Hri Hrj Heq.
    apply lookup_snoc_cases in Hi as [Hi|[-> ->]];
      apply lookup_snoc_cases in Hj as [Hj|[-> ->]]; [eauto| | |done].
    + exfalso. apply (Hfree i opi ri); congruence.
    + exfalso. apply (Hfree j opj rj); congruence.
Qed.

(** An attach-outputs operation enters the queue. *)
Lemma cells_inv_outputs s s' op :
  callback_resop (o_callback op) = None →
  preps s' = preps s → ops s' = ops s ++ [op] →
  cells_inv codec s → cells_inv codec s'.
Proof.
  intros Hnone Hp Ho [I1 I2 I3 I4 I5 I6]. split; rewrite ?Hp, ?Ho; try done.
  - intros k q i op' resop Hk Hq Hi Hr.
    apply lookup_snoc_cases in Hi as [Hi|[-> ->]]; [eauto|congruence].
  - intros k q Hk Hq. destruct (I4 k q Hk Hq) as (i & op' & resop & Hi & H).
    exists i, op', resop. split; [by apply lookup_app_l_Some|done].
  - intros i op' resop Hi Hr.
    apply lookup_snoc_cases in Hi as [Hi|[-> ->]]; [eauto|congruence].
  - intros i j opi opj ri rj Hi Hj Hri Hrj Heq.
    apply lookup_snoc_cases in Hi as [Hi|[-> ->]]; [|congruence].
    apply lookup_snoc_cases in Hj as [Hj|[-> ->]]; [eauto|congruence].
Qed.

(** An operation changes phase and resolves nothing. *)
Lemma cells_inv_move s s' i op ph :
  ops s !! i = Some op → settled (o_phase op) = false →
  (callback_resop (o_callback op) ≠ None →
   answered ph = false ∧ answered (o_phase op) = false) →
  preps s' = preps s → ops s' = <[i := set_phase ph op]> (ops s) →
  cells_inv codec s → cells_inv codec s'.
Proof.
  intros Hi Hs Hful Hp Ho [I1 I2 I3 I4 I5 I6]. split; rewrite ?Hp, ?Ho; try done.
  - intros k q j op' resop Hk Hq Hj Hr.
    apply (lookup_set_phase_Some _ _ _ _ _ _ Hi) in Hj as (op0 & Hj & _ & _ & Hcb & _).
    rewrite Hcb in Hr. eauto.
  - intros k q Hk Hq. destruct (I4 k q Hk Hq) as (j & op0 & resop & Hj & Hr & Hu).
    destruct (lookup_set_phase_inv _ _ _ ph _ _ Hi Hj) as (op' & Hj' & _).
    apply (lookup_set_phase_Some _ _ _ _ _ _ Hi) in Hj' as Hx.
    destruct Hx as (op1 & Hj1 & _ & _ & Hcb & _).
    exists j, op', resop. split; [done|]. split; [|done]. congruence.
  - intros j op' resop Hj Hr.
    apply (lookup_set_phase_Some _ _ _ _ _ _ Hi) in Hj
      as (op0 & Hj & _ & _ & Hcb & Hph).
    rewrite Hcb in Hr |- *.
    destruct (I5 j op0 resop Hj Hr) as (p0 & Hp0 & Hh & Hown & Hpend).
    exists p0. split_and!; try done. intros Hnf. apply Hpend.
    destruct (decide (i = j)) as [<-|]; [|congruence].
    assert (op0 = op) as -> by congruence.
    apply Hful. congruence.
  - intros j1 j2 op1 op2 r1 r2 Hj1 Hj2 Hr1 Hr2 Heq.
    apply (lookup_set_phase_Some _ _ _ _ _ _ Hi) in Hj1 as (o1 & Hj1 & _ & _ & Hc1 & _).
    apply (lookup_set_phase_Some _ _ _ _ _ _ Hi) in Hj2 as (o2 & Hj2 & _ & _ & Hc2 & _).
    rewrite Hc1 in Hr1. rewrite Hc2 in Hr2. eauto.
Qed.

(** An answered operation resolves promises of its preparation. *)
Lemma cells_inv_resolve s s' i op resop p p' ph :
  ops s !! i = Some op → settled (o_phase op) = false → answered ph = true →
  callback_resop (o_callback op) = Some resop →
  preps s !! resolveURN resop = Some p → same_static p p' →
  preps s' = <[resolveURN resop := p']> (preps s) →
  ops s' = <[i := set_phase ph op]> (ops s) →
  cells_inv codec s → cells_inv codec s'.
Proof.
  intros Hi Hs Hans Hr Hk (Hsk & Hsc & Hsp & Hso & Hsr & Hsa & Hsph) Hp Ho
    [I1 I2 I3 I4 I5 I6].
  destruct (I5 i op resop Hi Hr) as (p0 & Hp0 & Hh & Hown & _).
  assert (p0 = p) as -> by congruence.
  split; rewrite ?Hp, ?Ho.
  - intros j q Hj. apply lookup_insert_prep in Hj as [[-> ->]|[Hne Hj]]; [|eauto].
    destruct (I1 _ p Hk) as [? ?]. split; [congruence|].
    by apply (kind_ok_static p).
  - intros j q Hj Hq. apply lookup_insert_prep in Hj as [[-> ->]|[Hne Hj]]; [|eauto].
    congruence.
  - intros j q j' op' resop' Hj Hq Hj' Hr'.
    apply (lookup_set_phase_Some _ _ _ _ _ _ Hi) in Hj'
      as (op0 & Hj' & _ & _ & Hcb & _).
    rewrite Hcb in Hr'.
    apply lookup_insert_prep in Hj as [[-> ->]|[Hne Hj]]; [congruence|eauto].
  - intros j q Hj Hq.
    assert (∃ j' op0 resop', ops s !! j' = Some op0 ∧
              callback_resop (o_callback op0) = Some resop' ∧
              resolveURN resop' = j) as (j' & op0 & resop' & Hj' & Hr' & Hu).
    { apply lookup_insert_prep in Hj as [[-> ->]|[Hne Hj]]; [|eauto].
      by exists i, op, resop. }
    destruct (lookup_set_phase_inv _ _ _ ph _ _ Hi Hj') as (op' & Hj'' & _).
    apply (lookup_set_phase_Some _ _ _ _ _ _ Hi) in Hj'' as Hx.
    destruct Hx as (op1 & Hj1 & _ & _ & Hcb & _).
    exists j', op', resop'. split; [done|]. split; [|done]. congruence.
  - intros j op' resop' Hj Hr'.
    apply (lookup_set_phase_Some _ _ _ _ _ _ Hi) in Hj
      as (op0 & Hj & _ & _ & Hcb & Hph).
    rewrite Hcb in Hr' |- *.
    destruct (decide (i = j)) as [<-|Hne].
    + assert (op0 = op) as -> by congruence.
      assert (resop' = resop) as -> by congruence.
      exists p'. split_and!; try done.
      * apply list_lookup_insert_eq. by eapply lookup_lt_Some.
      * congruence.
      * by apply (owns_static _ p).
      * intros Hna. congruence.
    + destruct (I5 j op0 resop' Hj Hr') as (q & Hq & Hqh & Hqo & Hqp).
      exists q. split_and!; try done.
      * rewrite list_lookup_insert_ne; [done|].
        intros Heq. apply Hne. by apply (I6 i j op op0 resop resop').
      * intros Hnf. apply Hqp. congruence.
  - intros j1 j2 op1 op2 r1 r2 Hj1 Hj2 Hr1 Hr2 Heq.
    apply (lookup_set_phase_Some _ _ _ _ _ _ Hi) in Hj1 as (o1 & Hj1 & _ & _ & Hc1 & _).
    apply (lookup_set_phase_Some _ _ _ _ _ _ Hi) in Hj2 as (o2 & Hj2 & _ & _ & Hc2 & _).
    rewrite Hc1 in Hr1. rewrite Hc2 in Hr2. eauto.
Qed.

Lemma cells_inv_change s s' :
  cells_inv codec s → change codec s s' → cells_inv codec s'.
Proof.
  intros I Hch.
  destruct Hch as [| | | | |i op ph|i op resop p p' ph].
  - by apply (cells_inv_same s).
  - by apply (cells_inv_declare s s' p).
  - by apply (cells_inv_prep_failed s s' k p).
  - by apply (cells_inv_schedule s s' k p op).
  - by apply (cells_inv_outputs s s' op).
  - by apply (cells_inv_move s s' i op ph).
  - by apply (cells_inv_resolve s s' i op resop p p' ph).
Qed.

End Cells.

(** * Every transition is one of the listed changes *)

Ltac unfold_js :=
  unfold readResource, registerResource, registerResourceOutputs,
    prepareResource, resourceOp_start, issue, reject, reject_after, fulfil,
    set_op_phase, done, rpcKeepAlive, alter_prep, call_resolveURN,
    call_resolveID, resolveOutputs, resolveProperties, readResource_callback,
    registerResource_callback, registerResourceOutputs_callback,
    waitForDeath, throw, bind, get, modify, ret in *.

Section Steps.

Context (codec : Codec).

Lemma alter_lookup_insert {A} (f : A → A) (l : list A) k x :
  l !! k = Some x → alter f k l = <[k := f x]> l.
Proof.
  intros Hk. apply list_eq. intros j.
  destruct (decide (k = j)) as [<-|Hne].
  - rewrite list_lookup_alter_eq, Hk.
    rewrite list_lookup_insert_eq; [done|by eapply lookup_lt_Some].
  - by rewrite list_lookup_alter_ne, list_lookup_insert_ne.
Qed.

Lemma outcome_Ok s s' : outcome (Ok tt s) s' → s' = s.
Proof. intros [H|[e H]]; congruence. Qed.

Lemma outcome_Throw e s s' : outcome (Throw e s) s' → s' = s.
Proof. intros [H|[e' H]]; congruence. Qed.

Lemma outcome_Spin s s' : ¬ outcome (Spin s) s'.
Proof. intros [H|[e' H]]; congruence. Qed.

Lemma readResource_change s res t name props opts s' :
  outcome (readResource res t name props opts s) s' →
  change codec s s' ∧ serialize s' = serialize s.
Proof.
  unfold_js. destruct (truthy (opt_id opts)) eqn:Hid; simpl; intros Hout.
  - apply outcome_Ok in Hout as ->. split; [|done].
    eapply ch_declare; cycle 4; [reflexivity..| | | |].
    + by repeat split.
    + reflexivity.
    + reflexivity.
    + unfold kind_ok. simpl. intros t' name' id' [= <- <- <-]. done.
  - apply outcome_Throw in Hout as ->. split; [|done]. by apply ch_none.
Qed.

Lemma registerResource_change s res t name custom props opts s' :
  outcome (registerResource res t name custom props opts s) s' →
  change codec s s' ∧ serialize s' = serialize s.
Proof.
  unfold_js. simpl. intros Hout.
  apply outcome_Ok in Hout as ->. split; [|done].
  eapply ch_declare; cycle 4; [reflexivity..| | | |].
  - by repeat split.
  - reflexivity.
  - reflexivity.
  - unfold kind_ok. simpl. intros t' name' id' [=].
Qed.

Lemma registerResourceOutputs_change s res outputs s' :
  outcome (registerResourceOutputs res outputs s) s' →
  change codec s s' ∧ serialize s' = serialize s.
Proof.
  unfold registerResourceOutputs. rewrite runAsyncResourceOp_run. simpl.
  intros Hout. apply outcome_Ok in Hout as ->. split; [|done].
  eapply ch_outputs; cycle 5; [reflexivity..| | | |]; reflexivity.
Qed.

Lemma PrepareDone_change s k r s' :
  cells_inv codec s →
  step codec s (PrepareDone k) = Some r → outcome r s' →
  change codec s s' ∧ serialize s' = serialize s.
Proof.
  simpl. intros I Hstep Hout.
  destruct (preps s !! k) as [p|] eqn:Hk; [|done]. simpl in Hstep.
  destruct (p_phase p) eqn:Hph; try done.
  destruct (prepareResource_resume codec s k p) as [resop| |e] eqn:Hres; [|done|].
  - injection Hstep as <-.
    apply prepareResource_resume_ready in Hres
      as (ks & ex & im & _ & _ & _ & _ & _ & Hu & Hrs & Hid).
    destruct (ci_static codec s I k p Hk) as [_ Hkind].
    unfold bind, alter_prep, modify, prepared in Hout.
    destruct (p_kind p) as [t name id|t name] eqn:Hpk;
      rewrite runAsyncResourceOp_run in Hout; simpl in Hout;
      apply outcome_Ok in Hout as ->; (split; [|done]);
      (eapply (ch_schedule codec _ _ k p); cycle 7;
        [simpl; reflexivity|simpl; reflexivity|reflexivity|reflexivity
        |reflexivity|exact Hk|exact Hph
        |simpl; by rewrite (alter_lookup_insert _ _ _ _ Hk)
        | |reflexivity|reflexivity|reflexivity]).
    + destruct (Hkind t name id Hpk) as [_ ->].
      exists resop. simpl. split_and!; done.
    + exists resop. simpl. split_and!; done.
  - injection Hstep as <-.
    unfold bind, alter_prep, modify in Hout. simpl in Hout.
    apply outcome_Ok in Hout as ->. split; [|done].
    eapply (ch_prep_failed codec _ _ k p e); try done.
    simpl. by rewrite (alter_lookup_insert _ _ _ _ Hk).
Qed.

(** An operation that changes phase, in the form the code produces it. *)
Lemma move_change s s' i op ph :
  ops s !! i = Some op → settled (o_phase op) = false → started ph = true →
  (o_phase op = Waiting → chain_settled s (o_chain op) = true) →
  (callback_resop (o_callback op) ≠ None →
   answered ph = false ∧ answered (o_phase op) = false) →
  preps s' = preps s → ops s' = alter (set_phase ph) i (ops s) →
  resourceChain s' = resourceChain s →
  keepAlive s' = (if settled ph then pred (keepAlive s) else keepAlive s) →
  unhandled s' = unhandled s ++ failure ph →
  rpcLog s' = rpcLog s ++ match ph with InFlight req => [(i, req)] | _ => [] end →
  serialize s' = serialize s →
  change codec s s' ∧ serialize s' = serialize s.
Proof.
  intros Hi Hs Hst Hw Hf Hp Ho Hc Hk Hu Hl Hm. split; [|done].
  apply (ch_move codec s s' i op ph); try done.
  by rewrite <- (alter_lookup_insert _ _ _ _ Hi).
Qed.

Ltac solve_move Hi Hph ph :=
  eapply (move_change _ _ _ _ ph Hi);
  [ by rewrite Hph | done | first [done | intros; congruence]
  | first [by rewrite Hph | intros; congruence] | .. ];
  simpl; rewrite ?app_nil_r; reflexivity.

Lemma ChainTurn_change s i r s' :
  step codec s (ChainTurn i) = Some r → outcome r s' →
  change codec s s' ∧ serialize s' = serialize s.
Proof.
  simpl. intros Hstep Hout.
  destruct (ops s !! i) as [op|] eqn:Hi; [|done]. simpl in Hstep.
  destruct (o_phase op) eqn:Hph; try done.
  destruct (chain_settled s (o_chain op)) eqn:Hset; [|done].
  injection Hstep as <-. unfold_js.
  destruct (o_callback op) as [? ? ? ? ? ? req|? ? ? ? ? req|res outputs] eqn:Hcb;
    destruct (o_serial op); simpl in Hout.
  1-4: apply outcome_Ok in Hout as ->; solve_move Hi Hph (InFlight req).
  all: unfold resource in Hout; simpl in Hout;
    destruct (r_urn (default {| r_urn := None; r_id := None |} (resources s !! res)))
      as [k|]; simpl in Hout; apply outcome_Ok in Hout as ->.
  all: first [ solve_move Hi Hph (AwaitingUrn k)
             | solve_move Hi Hph
                 (Rejected (TypeError "Cannot read property 'promise' of undefined")) ].
Qed.

Lemma OutputsReady_change s i r s' :
  step codec s (OutputsReady i) = Some r → outcome r s' →
  change codec s s' ∧ serialize s' = serialize s.
Proof.
  simpl. intros Hstep Hout.
  destruct (ops s !! i) as [op|] eqn:Hi; [|done]. simpl in Hstep.
  destruct (o_phase op) as [|k| | | | |] eqn:Hph; try done.
  destruct (o_callback op) as [| |res outputs] eqn:Hcb; try done.
  destruct (urn_promise s k) as [urn| |]; try done.
  injection Hstep as <-. unfold_js. simpl in Hout.
  apply outcome_Ok in Hout as ->.
  solve_move Hi Hph (InFlight (RegisterResourceOutputsRequest urn
                                 (serializeProperties codec outputs))).
Qed.

(** An operation whose answer resolves the promises of its preparation. *)
Lemma resolve_change s s' i op resop p f ph :
  ops s !! i = Some op → settled (o_phase op) = false →
  started (o_phase op) = true → answered ph = true →
  callback_resop (o_callback op) = Some resop →
  preps s !! resolveURN resop = Some p → same_static p (f p) →
  preps s' = alter f (resolveURN resop) (preps s) →
  ops s' = alter (set_phase ph) i (ops s) →
  resourceChain s' = resourceChain s →
  keepAlive s' = (if settled ph then pred (keepAlive s) else keepAlive s) →
  unhandled s' = unhandled s ++ failure ph → rpcLog s' = rpcLog s →
  serialize s' = serialize s →
  change codec s s' ∧ serialize s' = serialize s.
Proof.
  intros Hi Hs Hst Hans Hr Hp Hsame Hps Ho Hc Hk Hu Hl Hm. split; [|done].
  apply (ch_resolve codec s s' i op resop p (f p) ph); try done.
  - by rewrite <- (alter_lookup_insert _ _ _ _ Hp).
  - by rewrite <- (alter_lookup_insert _ _ _ _ Hi).
Qed.

(** The bundle of an operation in the queue, by the invariant. *)
Lemma owner_bundle s i op resop :
  cells_inv codec s → ops s !! i = Some op →
  callback_resop (o_callback op) = Some resop →
  ∃ p, preps s !! resolveURN resop = Some p ∧
       resolvers resop = resolveURN resop ∧
       resolveID resop = (if p_custom p then Some (resolveURN resop) else None) ∧
       (answered (o_phase op) = false → pending p) ∧
       match o_callback op with
       | CbRead res t name props _ resolvedID _ =>
           p_custom p = true ∧
           p_kind p = ThenRead t name (opt_id (p_opts p)) ∧
           resolvedID = serializeProperty codec (opt_id (p_opts p)) ∧
           props = p_props p ∧ res = p_res p
       | CbRegister res t name props _ _ =>
           p_kind p = ThenRegister t name ∧ props = p_props p ∧ res = p_res p
       | CbOutputs _ _ => False
       end.
Proof.
  intros I Hi Hr.
  destruct (ci_owner codec s I i op resop Hi Hr) as (p & Hp & Hh & Hown & Hpend).
  destruct (ci_static codec s I _ p Hp) as [_ Hkind].
  destruct (owns_resop _ _ _ _ _ Hown Hr) as (_ & Hrs & Hid).
  exists p. split_and!; try done.
  destruct Hown as (r & _ & _ & _ & _ & H).
  destruct (o_callback op); try done.
  destruct H as (Hk & ? & ? & ?). split_and!; try done.
  by destruct (Hkind _ _ _ Hk).
Qed.


Lemma RpcReturn_change s i err resp r s' :
  cells_inv codec s →
  step codec s (RpcReturn i err resp) = Some r → outcome r s' →
  change codec s s' ∧ serialize s' = serialize s.
Proof.
  simpl. intros I Hstep Hout.
  destruct (ops s !! i) as [op|] eqn:Hi; [|done]. simpl in Hstep.
  destruct (o_phase op) as [| |req| | | |] eqn:Hph; try done.
  destruct (o_callback op)
    as [res t name props resop resolvedID req0|res t name props resop req0
       |res outputs] eqn:Hcb.
  - injection Hstep as <-.
    destruct (owner_bundle s i op resop I Hi) as (p & Hp & Hrs & Hid & _ & Hcase).
    { by rewrite Hcb. }
    rewrite Hcb in Hcase. destruct Hcase as (Hcus & _). rewrite Hcus in Hid.
    unfold readResource_callback in Hout. destruct err as [e|].
    + unfold_js. simpl in Hout. apply outcome_Ok in Hout as ->.
      solve_move Hi Hph
        (Rejected (new_Error ("failed to read resource #" +:+ to_string resolvedID +:+
                              " '" +:+ name +:+ "' [" +:+ t +:+ "]: " +:+ e_message e))).
    + rewrite Hid in Hout. unfold_js. simpl in Hout.
      apply outcome_Ok in Hout as ->. rewrite list_alter_alter_eq.
      eapply (resolve_change _ _ i op resop p _ (Resolving resp));
        try done; try (simpl; rewrite ?app_nil_r; reflexivity);
        [by rewrite Hph|by rewrite Hph|by rewrite Hcb|by repeat split].
  - injection Hstep as <-.
    destruct (owner_bundle s i op resop I Hi) as (p & Hp & Hrs & Hid & _ & Hcase).
    { by rewrite Hcb. }
    unfold registerResource_callback in Hout. destruct err as [e|].
    + unfold_js. destruct (bool_decide (e_code e = Some UNAVAILABLE)); simpl in Hout.
      { by apply outcome_Spin in Hout. }
      apply outcome_Ok in Hout as ->.
      solve_move Hi Hph
        (Rejected (new_Error ("failed to register new resource " +:+ name +:+
                              " [" +:+ t +:+ "]: " +:+ e_message e))).
    + rewrite Hid in Hout. unfold_js.
      destruct (p_custom p); simpl in Hout; apply outcome_Ok in Hout as ->.
      * rewrite list_alter_alter_eq.
        eapply (resolve_change _ _ i op resop p _ (Resolving resp));
          try done; try (simpl; rewrite ?app_nil_r; reflexivity);
          [by rewrite Hph|by rewrite Hph|by rewrite Hcb|by repeat split].
      * eapply (resolve_change _ _ i op resop p _ (Resolving resp));
          try done; try (simpl; rewrite ?app_nil_r; reflexivity);
          [by rewrite Hph|by rewrite Hph|by rewrite Hcb|by repeat split].
  - destruct req as [| |urn outs]; try done. injection Hstep as <-.
    unfold registerResourceOutputs_callback in Hout. destruct err as [e|].
    + unfold_js. destruct (bool_decide (e_code e = Some UNAVAILABLE)); simpl in Hout.
      { by apply outcome_Spin in Hout. }
      apply outcome_Ok in Hout as ->. solve_move Hi Hph (Rejected e).
    + unfold_js. simpl in Hout. apply outcome_Ok in Hout as ->.
      eapply (move_change _ _ _ _ Fulfilled Hi);
        [by rewrite Hph|done|intros; congruence|by rewrite Hcb|..];
        simpl; rewrite ?app_nil_r; reflexivity.
Qed.

Lemma OutputsResolved_change s i keys r s' :
  cells_inv codec s →
  step codec s (OutputsResolved i keys) = Some r → outcome r s' →
  change codec s s' ∧ serialize s' = serialize s.
Proof.
  simpl. intros I Hstep Hout.
  destruct (ops s !! i) as [op|] eqn:Hi; [|done]. simpl in Hstep.
  destruct (o_phase op) as [| | |resp| | |] eqn:Hph; try done.
  destruct (o_callback op)
    as [res t name props resop resolvedID req0|res t name props resop req0
       |res outputs] eqn:Hcb; [| |done];
    (destruct (bool_decide (Object_keys props keys)); [|done]);
    injection Hstep as <-;
    (destruct (owner_bundle s i op resop I Hi) as (p & Hp & Hrs & _);
       [by rewrite Hcb|]);
    unfold resolveOutputs_return, resolveOutputs in Hout; rewrite Hrs in Hout;
    (destruct (resolveOutputs_allProps codec props (getProperties resp) keys)
       as [e|allProps]);
    unfold reject_after in Hout; unfold_js; simpl in Hout;
    apply outcome_Ok in Hout as ->.
  all: try (eapply (resolve_change _ _ i op resop p _ Fulfilled);
        try done; try (simpl; rewrite ?app_nil_r; reflexivity);
        [by rewrite Hph|by rewrite Hph|by rewrite Hcb|by repeat split]).
  all: eapply (resolve_change _ _ i op resop p (λ q, q) (Failed resp e) Hi);
    [by rewrite Hph|by rewrite Hph|done|by rewrite Hcb|done|by repeat split
    |simpl; symmetry; by apply list_alter_id|done..].
Qed.

(** Every transition that returns or throws is one of the listed changes,
    and none touches the setting. *)
Lemma step_change s ev r s' :
  cells_inv codec s →
  step codec s ev = Some r → outcome r s' →
  change codec s s' ∧ serialize s' = serialize s.
Proof.
  intros I Hstep Hout. destruct ev.
  - injection Hstep as <-. by eapply readResource_change.
  - injection Hstep as <-. by eapply registerResource_change.
  - injection Hstep as <-. by eapply registerResourceOutputs_change.
  - by eapply PrepareDone_change.
  - by eapply ChainTurn_change.
  - by eapply OutputsReady_change.
  - by eapply RpcReturn_change.
  - by eapply OutputsResolved_change.
Qed.

Lemma initial_queue_inv mode : queue_inv (initial mode).
Proof.
  split; simpl; try done.
  intros j req Hin. by apply elem_of_nil in Hin.
Qed.

Lemma initial_cells_inv mode : cells_inv codec (initial mode).
Proof. split; simpl; try done. Qed.

(** Every state the machine reaches keeps both invariants. *)
Lemma reachable_inv mode s :
  reachable codec (initial mode) s →
  queue_inv s ∧ cells_inv codec s ∧ serialize s = mode.
Proof.
  induction 1 as [|s ev s' _ (IQ & IC & Hm) Hstep|s ev e s' _ (IQ & IC & Hm) Hstep].
  - split_and!; [apply initial_queue_inv|apply initial_cells_inv|done].
  - destruct (step_change s ev (Ok tt s') s' IC Hstep) as [Hch Hs]; [by left|].
    split_and!; [by eapply queue_inv_change|by eapply cells_inv_change|congruence].
  - destruct (step_change s ev (Throw e s') s' IC Hstep) as [Hch Hs]; [right; eauto|].
    split_and!; [by eapply queue_inv_change|by eapply cells_inv_change|congruence].
Qed.

End Steps.

(** * The ordering queue: order, chain and mode *)

Section Ordering.

Context (codec : Codec).



(** A run from a reachable state stays among the reachable states. *)
Lemma exec_reachable s0 evs : ∀ s s',
  reachable codec s0 s → exec codec s evs = Some (Ok tt s') →
  reachable codec s0 s'.
Proof.
  induction evs as [|ev evs IH]; intros s s' Hs Hexec; simpl in Hexec.
  - by injection Hexec as <-.
  - destruct (step codec s ev) as [[[] s1|e s1|s1]|] eqn:Hstep; try done.
    + eapply IH; [|done]. by eapply reach_step.
    + eapply IH; [|done]. by eapply reach_throw.
Qed.

Lemma reachable_trans s0 s1 s2 :
  reachable codec s0 s1 → reachable codec s1 s2 → reachable codec s0 s2.
Proof.
  intros H1 H2. induction H2; [done|by eapply reach_step|by eapply reach_throw].
Qed.

Lemma set_phase_keeps (l : list Op) j opj ph i op :
  l !! j = Some opj → settled (o_phase opj) = false → l !! i = Some op →
  ∃ op', <[j := set_phase ph opj]> l !! i = Some op' ∧
         o_serial op' = o_serial op ∧ o_chain op' = o_chain op ∧
         o_callback op' = o_callback op ∧
         (settled (o_phase op) = true → op' = op).
Proof.
  intros Hj Hs Hi. rewrite (lookup_set_phase _ _ _ _ _ Hj).
  destruct (decide (j = i)) as [->|Hne].
  - assert (opj = op) as -> by congruence.
    exists (set_phase ph op). split_and!; try done. congruence.
  - by exists op.
Qed.

(** No transition rewrites what an operation was scheduled with, and none
    touches a settled operation. *)
Lemma change_keeps_ops s s' i op :
  change codec s s' → ops s !! i = Some op →
  ∃ op', ops s' !! i = Some op' ∧ o_serial op' = o_serial op ∧
         o_chain op' = o_chain op ∧ o_callback op' = o_callback op ∧
         (settled (o_phase op) = true → op' = op).
Proof.
  intros Hch Hi.
  destruct Hch as [_ Ho _ _ _ _
                  |p _ _ _ _ _ Ho _ _ _ _
                  |k p e _ _ _ Ho _ _ _ _
                  |k p opn _ _ _ _ _ _ _ Ho _ _ _ _
                  |opn _ _ _ _ _ Ho _ _ _ _
                  |j opj ph Hj Hs _ _ _ _ Ho _ _ _ _
                  |j opj resop p p' ph Hj Hs _ _ _ _ _ _ Ho _ _ _ _];
    rewrite Ho.
  1-3: by exists op.
  1-2: exists op; split; [by apply lookup_app_l_Some|done].
  - by apply set_phase_keeps.
  - by apply set_phase_keeps.
Qed.

Lemma reachable_keeps_ops mode s1 s2 i op :
  reachable codec (initial mode) s1 → reachable codec s1 s2 →
  ops s1 !! i = Some op →
  reachable codec (initial mode) s2 ∧
  ∃ op', ops s2 !! i = Some op' ∧ o_serial op' = o_serial op ∧
         o_chain op' = o_chain op ∧ o_callback op' = o_callback op.
Proof.
  intros H1 H2 Hi.
  induction H2 as [|s ev s' _ (Hr & op' & Hi' & Hs & Hc & Hcb) Hstep
                   |s ev e s' _ (Hr & op' & Hi' & Hs & Hc & Hcb) Hstep].
  - split; [done|]. by exists op.
  - destruct (reachable_inv codec mode s Hr) as (_ & IC & _).
    destruct (step_change codec s ev (Ok tt s') s' IC Hstep) as [Hch _]; [by left|].
    split; [by eapply reach_step|].
    destruct (change_keeps_ops s s' i op' Hch Hi') as (op'' & ? & ? & ? & ? & _).
    exists op''. split_and!; congruence.
  - destruct (reachable_inv codec mode s Hr) as (_ & IC & _).
    destruct (step_change codec s ev (Throw e s') s' IC Hstep) as [Hch _];
      [right; eauto|].
    split; [by eapply reach_throw|].
    destruct (change_keeps_ops s s' i op' Hch Hi') as (op'' & ? & ? & ? & ? & _).
    exists op''. split_and!; congruence.
Qed.

(** With serialize-mode off nothing is ever serial, and the chain stays the
    initial promise. *)
Lemma disabled_mode s :
  queue_inv s → serialize s = false →
  resourceChain s = ChainInit ∧
  ∀ i op, ops s !! i = Some op → o_serial op = false ∧ o_chain op = ChainInit.
Proof.
  intros [I1 I2 I3 I4 I5 I6 I7] Hm.
  assert (Hns : ∀ i op, ops s !! i = Some op → o_serial op = false).
  { intros i op Hi. destruct (o_serial op) eqn:Hs; [|done].
    rewrite (I5 i op Hi Hs) in Hm. done. }
  split.
  - destruct (resourceChain s) as [|c]; [done|].
    destruct I1 as (_ & (op & Hc & Hs) & _). rewrite (Hns c op Hc) in Hs. done.
  - intros i op Hi. split; [eauto|].
    pose proof (I2 i op Hi) as Hp. destruct (o_chain op) as [|c]; [done|].
    destruct Hp as (_ & (opc & Hc & Hs) & _). rewrite (Hns c opc Hc) in Hs. done.
Qed.

End Ordering.

Section OrderingTheorems.

Context (codec : Codec).


(** Attach-outputs is scheduled non-serial: it never becomes part of the
    chain (neither its call nor the start of its callback, whenever that
    comes, changes the chain or its label, and no later operation is ever
    chained on it), but it is chained on the [resourceChain] current at the
    call like any operation: its callback can start exactly when that future
    is settled, and its remote call is never issued before; with
    serialize-mode off the future is always settled. *)
Theorem outputs_outside_chain mode s res outputs :
  reachable codec (initial mode) s →
  ∃ s1 op,
    registerResourceOutputs res outputs s = Ok tt s1 ∧
    ops s1 = ops s ++ [op] ∧
    o_serial op = false ∧ o_phase op = Waiting ∧ o_chain op = resourceChain s ∧
    resourceChain s1 = resourceChain s ∧
    resourceChainLabel s1 = resourceChainLabel s ∧
    (is_Some (step codec s1 (ChainTurn (length (ops s)))) ↔
     chain_settled s (resourceChain s) = true) ∧
    (mode = false → chain_settled s (resourceChain s) = true) ∧
    (∀ s2 req, reachable codec s1 s2 → (length (ops s), req) ∈ rpcLog s2 →
               chain_settled s2 (resourceChain s) = true) ∧
    (∀ s2 j B, reachable codec s1 s2 → ops s2 !! j = Some B →
               o_chain B ≠ ChainFinal (length (ops s))) ∧
    (∀ s2 s3, reachable codec s1 s2 →
              step codec s2 (ChainTurn (length (ops s))) = Some (Ok tt s3) →
              resourceChain s3 = resourceChain s2 ∧
              resourceChainLabel s3 = resourceChainLabel s2).
Proof.
  intros Hr. destruct (reachable_inv codec mode s Hr) as (IQ & IC & Hm).
  unfold registerResourceOutputs. rewrite runAsyncResourceOp_run. simpl.
  eexists _, _. split; [reflexivity|]. simpl. split_and!; try done.
  - rewrite list_lookup_middle by done. simpl.
    assert (Hset : ∀ c, chain_settled
              (mkState (serialize s) (resourceChain s) (resourceChainLabel s)
                 (S (keepAlive s)) (resources s) (preps s)
                 (ops s ++ [mkOp "monitor.registerResourceOutputs(...)" false
                              (resourceChain s) (CbOutputs res outputs) Waiting])
                 (rpcLog s) (unhandled s) (errorLog s)) c = true ↔
            chain_settled s c = true).
    { intros [|c]; simpl; [done|].
      destruct (decide (c < length (ops s))) as [Hlt|Hge].
      - by rewrite lookup_app_l.
      - rewrite (lookup_ge_None_2 (ops s)) by lia.
        destruct (decide (c = length (ops s))) as [->|Hne].
        + by rewrite list_lookup_middle.
        + rewrite lookup_ge_None_2; [done|]. rewrite length_app. simpl. lia. }
    destruct (chain_settled _ (resourceChain s)) eqn:Hcs at 1.
    + split; [intros _; by apply Hset|eauto].
    + split; [intros [? ?]; done|]. intros Hs. apply Hset in Hs. congruence.
  - intros ->. by rewrite (proj1 (disabled_mode s IQ Hm)).
  - intros s2 req Hr2 Hin.
    set (s1 := mkState _ _ _ _ _ _ _ _ _ _) in Hr2.
    assert (Hr1 : reachable codec (initial mode) s1).
    { eapply (reach_step codec _ s (CallRegisterResourceOutputs res outputs)); [done|].
      simpl. unfold registerResourceOutputs. by rewrite runAsyncResourceOp_run. }
    destruct (reachable_keeps_ops codec mode s1 s2 (length (ops s))
                (mkOp "monitor.registerResourceOutputs(...)" false
                   (resourceChain s) (CbOutputs res outputs) Waiting) Hr1 Hr2)
      as (Hr2' & op' & Hop' & _ & Hch & _).
    { simpl. by apply list_lookup_middle. }
    destruct (reachable_inv codec mode s2 Hr2') as (IQ2 & _).
    destruct (qi_issued s2 IQ2 _ req Hin) as (op'' & Hop'' & Hst).
    assert (op'' = op') as -> by congruence.
    simpl in Hch. rewrite <- Hch.
    by apply (qi_started s2 IQ2 (length (ops s)) op').
  - intros s2 j B Hr2 Hj Hch.
    set (s1 := mkState _ _ _ _ _ _ _ _ _ _) in Hr2.
    assert (Hr1 : reachable codec (initial mode) s1).
    { eapply (reach_step codec _ s (CallRegisterResourceOutputs res outputs)); [done|].
      simpl. unfold registerResourceOutputs. by rewrite runAsyncResourceOp_run. }
    destruct (reachable_keeps_ops codec mode s1 s2 (length (ops s))
                (mkOp "monitor.registerResourceOutputs(...)" false
                   (resourceChain s) (CbOutputs res outputs) Waiting) Hr1 Hr2)
      as (Hr2' & op' & Hop' & Hser & _).
    { simpl. by apply list_lookup_middle. }
    destruct (reachable_inv codec mode s2 Hr2') as (IQ2 & _).
    pose proof (qi_pred s2 IQ2 j B Hj) as Hp. rewrite Hch in Hp.
    destruct Hp as (_ & (opc & Hc & Hs) & _).
    assert (opc = op') as -> by congruence. simpl in Hser. congruence.
  - intros s2 s3 Hr2 Hstep.
    set (s1 := mkState _ _ _ _ _ _ _ _ _ _) in Hr2.
    assert (Hr1 : reachable codec (initial mode) s1).
    { eapply (reach_step codec _ s (CallRegisterResourceOutputs res outputs)); [done|].
      simpl. unfold registerResourceOutputs. by rewrite runAsyncResourceOp_run. }
    destruct (reachable_keeps_ops codec mode s1 s2 (length (ops s))
                (mkOp "monitor.registerResourceOutputs(...)" false
                   (resourceChain s) (CbOutputs res outputs) Waiting) Hr1 Hr2)
      as (_ & op' & Hop' & Hser & _ & Hcb).
    { simpl. by apply list_lookup_middle. }
    simpl in Hstep, Hser, Hcb. rewrite Hop' in Hstep. simpl in Hstep.
    destruct (o_phase op'); try done.
    destruct (chain_settled s2 (o_chain op')); [|done].
    injection Hstep as Hstep. revert Hstep. unfold_js. rewrite Hser, Hcb. simpl.
    unfold resource. simpl.
    destruct (r_urn (default {| r_urn := None; r_id := None |} (resources s2 !! res)));
      simpl; by intros [= <-].
Qed.

End OrderingTheorems.


Lemma outputsState_reachable : reachable toyCodec (initial true) outputsState.
Proof.
  apply (exec_reachable toyCodec (initial true) outputsTrace (initial true));
    [apply reach_start|vm_compute; reflexivity].
Qed.



(** C2.  Serialize-mode is on, the registration of [b] is in flight and
    holds the chain.  Attach-outputs for [a], whose URN is known, is asked
    for with [serial] false, and [runAsyncResourceOp] chains it on
    [resourceChain] all the same: its callback cannot start, and its remote
    call cannot leave, until the engine has answered for [b].  The specification,
    the comment of [registerResourceOutputs] and the comment in
    [runAsyncResourceOp] all say that it does not wait. *)
Theorem outputs_wait_for_chain :
  (∃ s1, registerResourceOutputs 0 (VStr "out") outputsState = Ok tt s1 ∧
         length (ops outputsState) = 2 ∧
         urn_promise s1 0 = Ready (VStr "urn:a") ∧
         step toyCodec s1 (ChainTurn 2) = None ∧
         ∃ s2, exec toyCodec s1
                 [RpcReturn 1 None (answer "urn:b" (VStr "id-b") None);
                  OutputsResolved 1 []] = Some (Ok tt s2) ∧
               is_Some (step toyCodec s2 (ChainTurn 2))) ∧
  ¬ outputs_never_wait toyCodec.
Proof.
  split.
  - eexists. split; [vm_compute; reflexivity|].
    split_and!; try (vm_compute; reflexivity).
    eexists. split; [vm_compute; reflexivity|]. vm_compute. eauto.
  - intros Hclaim.
    destruct (Hclaim true outputsState 0 (VStr "out") _ outputsState_reachable eq_refl)
      as [_ [r Hr]].
    vm_compute in Hr. discriminate.
Qed.

Lemma outputs_outside_chain_witness :
  ∃ s1 op,
    registerResourceOutputs 0 (VStr "out") outputsState = Ok tt s1 ∧
    ops s1 = ops outputsState ++ [op] ∧ o_serial op = false ∧
    resourceChain s1 = resourceChain outputsState.
Proof.
  destruct (outputs_outside_chain toyCodec true outputsState 0 (VStr "out")
              outputsState_reachable)
    as (s1 & op & H1 & H2 & H3 & _ & _ & H4 & _).
  by exists s1, op.
Defined.

(** * The keep-alive tokens *)

Section KeepAlive.

Context (codec : Codec).

Lemma outstanding_pos l i op :
  l !! i = Some op → settled (o_phase op) = false → 0 < outstanding l.
Proof.
  intros Hi Hs. pose proof (take_drop_middle l i op Hi) as Hl.
  apply (f_equal outstanding) in Hl. rewrite outstanding_middle, Hs in Hl. lia.
Qed.

(** The transition that settles an operation gives one token back, and on
    failure hands the error to the top level. *)
Lemma change_settles s s' i op op' :
  change codec s s' →
  ops s !! i = Some op → settled (o_phase op) = false →
  ops s' !! i = Some op' → settled (o_phase op') = true →
  keepAlive s' = pred (keepAlive s) ∧
  unhandled s' = unhandled s ++ failure (o_phase op').
Proof.
  intros Hch Hi Hs Hi' Hs'.
  destruct Hch as [_ Ho _ _ _ _
                  |p _ _ _ _ _ Ho _ _ _ _
                  |k p e _ _ _ Ho _ _ _ _
                  |k p opn _ _ _ _ _ _ _ Ho _ _ _ _
                  |opn _ _ _ _ _ Ho _ _ _ _
                  |j opj ph Hj Hsj _ _ _ _ Ho _ Hk Hu _
                  |j opj resop p p' ph Hj Hsj _ Hans _ _ _ _ Ho _ Hk Hu _];
    rewrite Ho in Hi'.
  1-3: congruence.
  1-2: rewrite (lookup_app_l_Some _ _ _ _ Hi) in Hi'; congruence.
  - rewrite (lookup_set_phase _ _ _ _ _ Hj) in Hi'.
    destruct (decide (j = i)) as [->|]; [|congruence].
    injection Hi' as <-. simpl in *. rewrite Hs' in Hk. by split.
  - rewrite (lookup_set_phase _ _ _ _ _ Hj) in Hi'.
    destruct (decide (j = i)) as [->|]; [|congruence].
    injection Hi' as <-. simpl in *. rewrite Hs' in Hk. by split.
Qed.

End KeepAlive.

(** * What an answer of the engine resolves *)

Section Resolution.

Context (codec : Codec).

Lemma is_defined_or_undefined v :
  js_or v VUndefined = (if truthy v then v else VUndefined) ∧
  is_defined (js_or v VUndefined) = truthy v.
Proof.
  unfold js_or, is_defined. split; [done|].
  destruct (truthy v) eqn:Hv; [|done]. by destruct v.
Qed.

(** C9. When the engine answers a read with success, the URN promise of the
    resource is resolved to the URN of the answer and its id promise to the
    id the caller gave in the options, as serialized before the call, with
    apply-eligibility set by whether that serialized id is defined; the id
    of the answer is not looked at. *)
Theorem read_resolves_urn_and_caller_id mode s i op res t name props resop
    resolvedID req0 req resp :
  reachable codec (initial mode) s →
  ops s !! i = Some op →
  o_callback op = CbRead res t name props resop resolvedID req0 →
  o_phase op = InFlight req →
  ∃ s' p p',
    step codec s (RpcReturn i None resp) = Some (Ok tt s') ∧
    preps s !! resolveURN resop = Some p ∧ p_res p = res ∧
    resolvedID = serializeProperty codec (opt_id (p_opts p)) ∧
    preps s' !! resolveURN resop = Some p' ∧
    p_urn p' = Some (VStr (getUrn resp)) ∧
    p_idValue p' = Some resolvedID ∧
    p_idApply p' = Some (is_defined resolvedID).
Proof.
  intros Hr Hi Hcb Hph.
  destruct (reachable_inv codec mode s Hr) as (_ & IC & _).
  destruct (owner_bundle codec s i op resop IC Hi) as (p & Hp & Hrs & Hid & Hpend & Hcase).
  { by rewrite Hcb. }
  rewrite Hcb in Hcase. destruct Hcase as (Hcus & _ & Hrid & _ & Hres).
  rewrite Hcus in Hid.
  destruct Hpend as (Hu & Hiv & Hia); [by rewrite Hph|].
  simpl. rewrite Hi. simpl. rewrite Hph, Hcb.
  unfold readResource_callback. rewrite Hid. unfold_js. simpl.
  eexists _, p, _. split; [reflexivity|]. simpl.
  rewrite list_alter_alter_eq, list_lookup_alter_eq, Hp. simpl.
  rewrite Hu, Hiv, Hia. by split_and!.
Qed.

(** C7. When the engine answers a registration with success, the URN promise
    is resolved to the URN of the answer; for a custom resource the id
    promise is resolved to the id of the answer with apply-eligibility true
    when that id is truthy, and to [undefined] with apply-eligibility false
    when it is absent, empty or otherwise falsy; a resource that is not
    custom has no id promise and none is resolved. *)
Theorem register_resolves_id mode s i op res t name props resop req0 req resp :
  reachable codec (initial mode) s →
  ops s !! i = Some op →
  o_callback op = CbRegister res t name props resop req0 →
  o_phase op = InFlight req →
  ∃ s' p p',
    step codec s (RpcReturn i None resp) = Some (Ok tt s') ∧
    preps s !! resolveURN resop = Some p ∧ p_res p = res ∧
    preps s' !! resolveURN resop = Some p' ∧
    p_urn p' = Some (VStr (getUrn resp)) ∧
    (p_custom p = true →
     (truthy (getId resp) = true →
      p_idValue p' = Some (getId resp) ∧ p_idApply p' = Some true) ∧
     (truthy (getId resp) = false →
      p_idValue p' = Some VUndefined ∧ p_idApply p' = Some false)) ∧
    (p_custom p = false → p_idValue p' = None ∧ p_idApply p' = None).
Proof.
  intros Hr Hi Hcb Hph.
  destruct (reachable_inv codec mode s Hr) as (_ & IC & _).
  destruct (owner_bundle codec s i op resop IC Hi) as (p & Hp & Hrs & Hid & Hpend & Hcase).
  { by rewrite Hcb. }
  rewrite Hcb in Hcase. destruct Hcase as (_ & _ & Hres).
  destruct Hpend as (Hu & Hiv & Hia); [by rewrite Hph|].
  simpl. rewrite Hi. simpl. rewrite Hph, Hcb.
  unfold registerResource_callback. rewrite Hid. unfold_js.
  destruct (is_defined_or_undefined (getId resp)) as [Hor Hdef].
  destruct (p_custom p) eqn:Hcus; simpl.
  - eexists _, p, _. split; [reflexivity|]. simpl.
    rewrite list_alter_alter_eq, list_lookup_alter_eq, Hp. simpl.
    rewrite Hu, Hiv, Hia, Hdef, Hor. split_and!; try done.
    + intros _. simpl. split; intros ->; done.
    + intros Hf. congruence.
  - eexists _, p, _. split; [reflexivity|]. simpl.
    rewrite list_lookup_alter_eq, Hp. simpl.
    rewrite Hu. split_and!; try done. intros Ht. congruence.
Qed.

(** C10. For every resource, custom or not, registered or read, the call
    itself attaches the URN deferred value with its apply-eligibility promise
    already resolved to [true] and its value promise pending, before any
    operation is queued or remote call issued; the apply-eligibility stays
    [true], and the value is resolved only once the engine has answered the
    operation of that preparation with success. *)
Theorem urn_apply_resolved_at_preparation mode s :
  reachable codec (initial mode) s →
  (∀ res t name custom props opts, ∃ s1 p,
     registerResource res t name custom props opts s = Ok tt s1 ∧
     r_urn (resource s1 res) = Some (length (preps s)) ∧
     preps s1 = preps s ++ [p] ∧ p_custom p = custom ∧
     p_urnApply p = Some true ∧ p_urn p = None ∧
     ops s1 = ops s ∧ rpcLog s1 = rpcLog s) ∧
  (∀ res t name props opts, truthy (opt_id opts) = true → ∃ s1 p,
     readResource res t name props opts s = Ok tt s1 ∧
     r_urn (resource s1 res) = Some (length (preps s)) ∧
     preps s1 = preps s ++ [p] ∧ p_custom p = true ∧
     p_urnApply p = Some true ∧ p_urn p = None ∧
     ops s1 = ops s ∧ rpcLog s1 = rpcLog s) ∧
  (∀ k p, preps s !! k = Some p →
     p_urnApply p = Some true ∧
     (p_urn p ≠ None →
      ∃ i op resop, ops s !! i = Some op ∧
                    callback_resop (o_callback op) = Some resop ∧
                    resolveURN resop = k ∧ answered (o_phase op) = true)).
Proof.
  intros Hr. destruct (reachable_inv codec mode s Hr) as (_ & IC & _).
  split_and!.
  - intros res t name custom props opts. unfold_js. simpl.
    eexists _, _. split; [reflexivity|]. simpl. split_and!; try reflexivity.
    unfold resource. simpl. by rewrite lookup_insert_eq.
  - intros res t name props opts Hid. unfold_js. rewrite Hid. simpl.
    eexists _, _. split; [reflexivity|]. simpl. split_and!; try reflexivity.
    unfold resource. simpl. by rewrite lookup_insert_eq.
  - intros k p Hk. split; [by apply (ci_static codec s IC k p)|]. intros Hurn.
    destruct (decide (p_phase p = Handed)) as [Hh|Hnh].
    + destruct (ci_handed codec s IC k p Hk Hh) as (i & op & resop & Hi & Hcb & Hu).
      destruct (ci_owner codec s IC i op resop Hi Hcb) as (p0 & Hp0 & _ & _ & Hpend).
      rewrite Hu in Hp0. assert (p0 = p) as -> by congruence.
      exists i, op, resop. split_and!; try done.
      destruct (answered (o_phase op)) eqn:Hph; [done|].
      destruct Hpend as (Hnone & _); [done|congruence].
    + destruct (ci_fresh codec s IC k p Hk Hnh) as (Hnone & _). congruence.
Qed.

End Resolution.

Lemma readState_reachable : reachable toyCodec (initial true) readState.
Proof.
  apply (exec_reachable toyCodec (initial true) readTrace (initial true));
    [apply reach_start|vm_compute; reflexivity].
Qed.

Lemma registerState_reachable : reachable toyCodec (initial true) registerState.
Proof.
  apply (exec_reachable toyCodec (initial true) registerTrace (initial true));
    [apply reach_start|vm_compute; reflexivity].
Qed.

Lemma read_resolves_urn_and_caller_id_witness :
  ∃ s' p',
    step toyCodec readState
      (RpcReturn 0 None (answer "urn:a" (VStr "engine-id") None)) = Some (Ok tt s') ∧
    preps s' !! 0 = Some p' ∧
    p_urn p' = Some (VStr "urn:a") ∧
    p_idValue p' = Some (VStr "i-1") ∧ p_idApply p' = Some true.
Proof.
  edestruct (read_resolves_urn_and_caller_id toyCodec true readState 0)
    with (resp := answer "urn:a" (VStr "engine-id") None)
    as (s' & p & p' & H1 & H2 & H3 & H4 & H5 & H6 & H7 & H8).
  - apply readState_reachable.
  - vm_compute. reflexivity.
  - reflexivity.
  - reflexivity.
  - exists s', p'. split_and!; assumption.
Defined.

Lemma register_resolves_id_witness :
  ∃ s' p',
    step toyCodec registerState
      (RpcReturn 0 None (answer "urn:a" (VStr "") None)) = Some (Ok tt s') ∧
    preps s' !! 0 = Some p' ∧
    p_urn p' = Some (VStr "urn:a") ∧
    p_idValue p' = Some VUndefined ∧ p_idApply p' = Some false.
Proof.
  edestruct (register_resolves_id toyCodec true registerState 0)
    with (resp := answer "urn:a" (VStr "") None)
    as (s' & p & p' & H1 & H2 & H3 & H4 & H5 & H6 & H7).
  - apply registerState_reachable.
  - vm_compute. reflexivity.
  - reflexivity.
  - reflexivity.
  - exists s', p'.
    assert (Hc : p_custom p = true).
    { vm_compute in H2. injection H2 as <-. reflexivity. }
    destruct (H6 Hc) as [_ Hfalsy]. destruct (Hfalsy eq_refl) as [Hv Ha].
    split_and!; assumption.
Defined.

Lemma urn_apply_resolved_at_preparation_witness :
  ∃ s1 p,
    registerResource 5 "t" "c" false ∅ noOpts registerState = Ok tt s1 ∧
    r_urn (resource s1 5) = Some 1 ∧ preps s1 !! 1 = Some p ∧
    p_urnApply p = Some true ∧ p_urn p = None ∧ rpcLog s1 = rpcLog registerState.
Proof.
  destruct (proj1 (urn_apply_resolved_at_preparation toyCodec true registerState
                     registerState_reachable) 5 "t" "c" false ∅ noOpts)
    as (s1 & p & H1 & H2 & H3 & H4 & H5 & H6 & H7 & H8).
  exists s1, p. split_and!; try assumption.
  rewrite H3. reflexivity.
Defined.

(** * Failures: the missing id and the engine that shuts down *)

Section Failures.

Context (codec : Codec).

(** C6, amended.  [readResource] throws exactly when [opts.id] is falsy:
    absent, or present but empty (or another falsy value).  It throws before
    it returns, with nothing prepared, queued or sent: the state is the one
    it was called in.  With a truthy id (a non-empty string, a promise, an
    [Output]) it does not throw; it declares the preparation and returns. *)
Theorem readResource_id_check s res t name props opts :
  (opt_id opts = VUndefined → truthy (opt_id opts) = false) ∧
  (truthy (opt_id opts) = false →
   readResource res t name props opts s =
   Throw (new_Error "Cannot read resource whose options are lacking an ID value") s) ∧
  (truthy (opt_id opts) = true →
   ∃ s1, readResource res t name props opts s = Ok tt s1 ∧
         length (preps s1) = S (length (preps s)) ∧
         ops s1 = ops s ∧ rpcLog s1 = rpcLog s).
Proof.
  split_and!.
  - by intros ->.
  - intros Hid. unfold readResource. by rewrite Hid.
  - intros Hid. unfold_js. rewrite Hid. simpl.
    eexists. split; [reflexivity|]. simpl. rewrite length_app. simpl.
    split_and!; [lia|done..].
Qed.

(** The loop of [waitForDeath] is never left. *)
Lemma waitForDeath_never_returns fuel s : while_true fuel s = None.
Proof. induction fuel as [|fuel IH]; [reflexivity|exact IH]. Qed.

(** The callback of a registration that finds the engine unavailable never
    returns: nothing is rejected, nothing is sent, and no later event runs. *)
Lemma registerResource_unavailable_parks s i op res t name props resop req0 req
    err resp :
  ops s !! i = Some op →
  o_callback op = CbRegister res t name props resop req0 →
  o_phase op = InFlight req →
  e_code err = Some UNAVAILABLE →
  step codec s (RpcReturn i (Some err) resp) = Some (Spin s) ∧
  ∀ evs, exec codec s (RpcReturn i (Some err) resp :: evs) = Some (Spin s).
Proof.
  intros Hi Hcb Hph Hcode.
  assert (Hstep : step codec s (RpcReturn i (Some err) resp) = Some (Spin s)).
  { simpl. rewrite Hi. simpl. rewrite Hph, Hcb.
    unfold registerResource_callback, bind, waitForDeath.
    by rewrite bool_decide_eq_true_2. }
  split; [done|]. intros evs. simpl in *. by rewrite Hstep.
Qed.

(** The callback of a read rejects on every error, whatever its code. *)
Lemma readResource_error_rejects s i op res t name props resop resolvedID req0 req
    err resp :
  ops s !! i = Some op →
  o_callback op = CbRead res t name props resop resolvedID req0 →
  o_phase op = InFlight req →
  ∃ s', step codec s (RpcReturn i (Some err) resp) = Some (Ok tt s') ∧
        unhandled s' = unhandled s ++
          [new_Error ("failed to read resource #" +:+ to_string resolvedID +:+
                      " '" +:+ name +:+ "' [" +:+ t +:+ "]: " +:+ e_message err)] ∧
        rpcLog s' = rpcLog s.
Proof.
  intros Hi Hcb Hph. simpl. rewrite Hi. simpl. rewrite Hph, Hcb.
  unfold_js. simpl. eexists. split; [reflexivity|]. done.
Qed.

End Failures.

(** C6 fails as worded: an id that is present but empty makes [readResource]
    throw all the same. *)
Lemma read_empty_id_throws :
  opt_id (withId (VStr "")) ≠ VUndefined ∧
  readResource 0 "t" "a" ∅ (withId (VStr "")) (initial true) =
    Throw (new_Error "Cannot read resource whose options are lacking an ID value")
      (initial true) ∧
  ¬ read_throws_exactly_without_id.
Proof.
  split_and!; [done|reflexivity|].
  intros Hclaim.
  destruct (Hclaim (initial true) 0 "t" "a" ∅ (withId (VStr ""))) as [_ Hpresent].
  by eapply Hpresent.
Qed.

Lemma readResource_id_check_witness :
  readResource 0 "t" "a" ∅ noOpts (initial true) =
    Throw (new_Error "Cannot read resource whose options are lacking an ID value")
      (initial true) ∧
  ∃ s1, readResource 0 "t" "a" ∅ (withId (VStr "i-1")) (initial true) = Ok tt s1 ∧
        length (preps s1) = 1 ∧ ops s1 = [] ∧ rpcLog s1 = [].
Proof.
  split.
  - apply (proj1 (proj2 (readResource_id_check (initial true) 0 "t" "a" ∅ noOpts))).
    reflexivity.
  - apply (proj2 (proj2 (readResource_id_check (initial true) 0 "t" "a" ∅
                           (withId (VStr "i-1"))))).
    reflexivity.
Defined.

(** C1, on the read path.  A read is in flight and the engine answers that
    it is unavailable.  The callback of [monitor.readResource] does not look
    at the code of the error: it rejects, the rejection reaches the top
    level, the machine goes on, and the next registration sends its remote
    call.  The same answer to a registration parks the process. *)
Theorem read_unavailable_is_raised :
  (∃ B, ops readState !! 0 = Some B ∧ ∃ req, o_phase B = InFlight req) ∧
  (∃ s',
     step toyCodec readState (RpcReturn 0 (Some unavailable) (answer "" VUndefined None))
       = Some (Ok tt s') ∧
     unhandled s' =
       [new_Error "failed to read resource #i-1 'a' [t]: 14 UNAVAILABLE: Connect Failed"] ∧
     ∃ s'',
       exec toyCodec s'
         [CallRegisterResource 1 "t" "b" true ∅ noOpts; PrepareDone 1; ChainTurn 1]
         = Some (Ok tt s'') ∧
       length (rpcLog s'') = 2) ∧
  step toyCodec registerState
    (RpcReturn 0 (Some unavailable) (answer "" VUndefined None))
    = Some (Spin registerState).
Proof.
  split_and!.
  - eexists. split; [vm_compute; reflexivity|]. eexists. reflexivity.
  - eexists. split; [vm_compute; reflexivity|]. split; [vm_compute; reflexivity|].
    eexists. split; vm_compute; reflexivity.
  - vm_compute. reflexivity.
Qed.

(** * The life of an operation *)

Section Lifecycle.

Context (codec : Codec).

(** Every transition that returns or throws does one of the listed things to
    the queue and to the log of remote calls. *)
Lemma step_queue s ev r s' :
  step codec s ev = Some r → outcome r s' → queue_step codec s ev s'.
Proof.
  intros Hstep Hout. destruct ev as [res t name props opts|res t name custom props opts
    |res outputs|k|i|i|i err resp|i keys]; simpl in Hstep.
  - injection Hstep as <-. unfold_js.
    destruct (truthy (opt_id opts)); simpl in Hout.
    + apply outcome_Ok in Hout as ->. by apply qs_same.
    + apply outcome_Throw in Hout as ->. by apply qs_same.
  - injection Hstep as <-. unfold_js. simpl in Hout.
    apply outcome_Ok in Hout as ->. by apply qs_same.
  - injection Hstep as <-. unfold registerResourceOutputs in Hout.
    rewrite runAsyncResourceOp_run in Hout. simpl in Hout.
    apply outcome_Ok in Hout as ->. by eapply qs_outputs.
  - destruct (preps s !! k) as [p|] eqn:Hk; [|done]. simpl in Hstep.
    destruct (p_phase p) eqn:Hph; try done.
    destruct (prepareResource_resume codec s k p) as [resop| |e] eqn:Hres; [|done|].
    + injection Hstep as <-.
      unfold bind, alter_prep, modify, prepared in Hout.
      destruct (p_kind p) as [t name id|t name] eqn:Hpk;
        rewrite runAsyncResourceOp_run in Hout; simpl in Hout;
        apply outcome_Ok in Hout as ->;
        (eapply (qs_prepared codec _ _ _ _ k p resop); try done;
         unfold built; by rewrite Hpk).
    + injection Hstep as <-.
      unfold bind, alter_prep, modify in Hout. simpl in Hout.
      apply outcome_Ok in Hout as ->. by apply qs_same.
  - destruct (ops s !! i) as [op|] eqn:Hi; [|done]. simpl in Hstep.
    destruct (o_phase op) eqn:Hph; try done.
    destruct (chain_settled s (o_chain op)) eqn:Hset; [|done].
    injection Hstep as <-. unfold_js.
    destruct (o_callback op) as [? ? ? ? ? ? req|? ? ? ? ? req|res outputs] eqn:Hcb;
      destruct (o_serial op); simpl in Hout.
    1-4: apply outcome_Ok in Hout as ->;
      eapply (qs_phase codec _ _ _ i op (InFlight req) [(i, req)] Hi);
      [apply ps_issue; [done|done|done|by rewrite Hcb]
      |simpl; by rewrite (alter_lookup_insert _ _ _ _ Hi)|done].
    all: unfold resource in Hout; simpl in Hout;
      destruct (r_urn (default {| r_urn := None; r_id := None |} (resources s !! res)))
        as [k|] eqn:Hurn; simpl in Hout; apply outcome_Ok in Hout as ->.
    all: first
      [ eapply (qs_phase codec _ _ _ i op (AwaitingUrn k) [] Hi);
        [by eapply ps_await
        |simpl; by rewrite (alter_lookup_insert _ _ _ _ Hi)
        |simpl; by rewrite app_nil_r]
      | eapply (qs_phase codec _ _ _ i op (Rejected _) [] Hi);
        [by eapply ps_no_urn
        |simpl; by rewrite (alter_lookup_insert _ _ _ _ Hi)
        |simpl; by rewrite app_nil_r] ].
  - destruct (ops s !! i) as [op|] eqn:Hi; [|done]. simpl in Hstep.
    destruct (o_phase op) as [|k| | | | |] eqn:Hph; try done.
    destruct (o_callback op) as [| |res outputs] eqn:Hcb; try done.
    destruct (urn_promise s k) as [urn| |] eqn:Hurn; try done.
    injection Hstep as <-. unfold_js. simpl in Hout.
    apply outcome_Ok in Hout as ->.
    eapply (qs_phase codec _ _ _ i op _ _ Hi);
      [by eapply ps_attach
      |simpl; by rewrite (alter_lookup_insert _ _ _ _ Hi)|done].
  - destruct (ops s !! i) as [op|] eqn:Hi; [|done]. simpl in Hstep.
    destruct (o_phase op) as [| |req| | | |] eqn:Hph; try done.
    destruct (o_callback op)
      as [res t name props resop resolvedID req0|res t name props resop req0
         |res outputs] eqn:Hcb.
    + injection Hstep as <-.
      unfold readResource_callback in Hout. destruct err as [e|].
      * unfold_js. simpl in Hout. apply outcome_Ok in Hout as ->.
        eapply (qs_phase codec _ _ _ i op (Rejected _) [] Hi);
          [by eapply ps_fail
          |simpl; by rewrite (alter_lookup_insert _ _ _ _ Hi)
          |simpl; by rewrite app_nil_r].
      * destruct (resolveID resop) as [kid|]; unfold_js; simpl in Hout;
          apply outcome_Ok in Hout as ->.
        -- eapply (qs_phase codec _ _ _ i op (Resolving resp) [] Hi);
             [eapply ps_answer; [done|done|by rewrite Hcb]
             |simpl; by rewrite (alter_lookup_insert _ _ _ _ Hi)
             |simpl; by rewrite app_nil_r].
        -- eapply (qs_phase codec _ _ _ i op (Rejected _) [] Hi);
             [by eapply ps_fail
             |simpl; by rewrite (alter_lookup_insert _ _ _ _ Hi)
             |simpl; by rewrite app_nil_r].
    + injection Hstep as <-.
      unfold registerResource_callback in Hout. destruct err as [e|].
      * unfold_js. destruct (bool_decide (e_code e = Some UNAVAILABLE)); simpl in Hout.
        { by apply outcome_Spin in Hout. }
        apply outcome_Ok in Hout as ->.
        eapply (qs_phase codec _ _ _ i op (Rejected _) [] Hi);
          [by eapply ps_fail
          |simpl; by rewrite (alter_lookup_insert _ _ _ _ Hi)
          |simpl; by rewrite app_nil_r].
      * unfold_js. destruct (resolveID resop) as [kid|]; simpl in Hout;
          apply outcome_Ok in Hout as ->;
          (eapply (qs_phase codec _ _ _ i op (Resolving resp) [] Hi);
             [eapply ps_answer; [done|done|by rewrite Hcb]
             |simpl; by rewrite (alter_lookup_insert _ _ _ _ Hi)
             |simpl; by rewrite app_nil_r]).
    + destruct req as [| |urn outs]; try done. injection Hstep as <-.
      unfold registerResourceOutputs_callback in Hout. destruct err as [e|].
      * unfold_js. destruct (bool_decide (e_code e = Some UNAVAILABLE)); simpl in Hout.
        { by apply outcome_Spin in Hout. }
        apply outcome_Ok in Hout as ->.
        eapply (qs_phase codec _ _ _ i op (Rejected _) [] Hi);
          [by eapply ps_fail
          |simpl; by rewrite (alter_lookup_insert _ _ _ _ Hi)
          |simpl; by rewrite app_nil_r].
      * unfold_js. simpl in Hout. apply outcome_Ok in Hout as ->.
        eapply (qs_phase codec _ _ _ i op Fulfilled [] Hi);
          [eapply ps_ack; [done|done|by rewrite Hcb]
          |simpl; by rewrite (alter_lookup_insert _ _ _ _ Hi)
          |simpl; by rewrite app_nil_r].
  - destruct (ops s !! i) as [op|] eqn:Hi; [|done]. simpl in Hstep.
    destruct (o_phase op) as [| | |resp| | |] eqn:Hph; try done.
    destruct (o_callback op)
      as [res t name props resop resolvedID req0|res t name props resop req0
         |res outputs] eqn:Hcb; [| |done];
      (destruct (bool_decide (Object_keys props keys)); [|done]);
      injection Hstep as <-;
      unfold resolveOutputs_return, resolveOutputs in Hout;
      (destruct (resolveOutputs_allProps codec props (getProperties resp) keys)
         as [e|allProps]);
      unfold_js; simpl in Hout; apply outcome_Ok in Hout as ->.
    all: first
      [ eapply (qs_phase codec _ _ _ i op (Failed resp e) [] Hi);
        [by eapply ps_thrown
        |simpl; by rewrite (alter_lookup_insert _ _ _ _ Hi)
        |simpl; by rewrite app_nil_r]
      | eapply (qs_phase codec _ _ _ i op Fulfilled [] Hi);
        [by eapply ps_done
        |simpl; by rewrite (alter_lookup_insert _ _ _ _ Hi)
        |simpl; by rewrite app_nil_r] ].
Qed.

End Lifecycle.

(** * The life of a preparation *)

Section Preparations.

Context (codec : Codec).

Lemma grows_refl p : grows p p.
Proof. by repeat split. Qed.

Lemma grows_trans p q r : grows p q → grows q r → grows p r.
Proof.
  intros (a1 & a2 & a3 & a4 & a5 & a6 & a7 & a8 & a9 & a10 & a11 & a12)
         (b1 & b2 & b3 & b4 & b5 & b6 & b7 & b8 & b9 & b10 & b11 & b12).
  split_and!; try congruence; eauto.
Qed.

Lemma grows_phase ph p : grows p (set_p_phase ph p).
Proof. by repeat split. Qed.

Lemma grows_urn v p : grows p (set_p_urn (resolve_once (p_urn p) v) p).
Proof.
  split_and!; try done. simpl. intros u Hu. by rewrite Hu.
Qed.

Lemma grows_id v a p :
  grows p (set_p_id (resolve_once (p_idValue p) v) (resolve_once (p_idApply p) a) p).
Proof.
  split_and!; try done; simpl; intros u Hu; by rewrite Hu.
Qed.

Lemma grows_outputs o p : grows p (set_p_outputs (resolve_once (p_outputs p) o) p).
Proof.
  split_and!; try done. simpl. intros u Hu. by rewrite Hu.
Qed.

Lemma kept_refl p : kept p p.
Proof. split_and!; [apply grows_refl|done..]. Qed.

Lemma kept_trans p q r : kept p q → kept q r → kept p r.
Proof.
  intros (Hg & Hph & Ho) (Hg' & Hph' & Ho').
  split_and!; [by eapply grows_trans|congruence..].
Qed.

Lemma kept_urn v q : kept q (set_p_urn (resolve_once (p_urn q) v) q).
Proof. split_and!; [apply grows_urn|done..]. Qed.

Lemma kept_id v a q :
  kept q (set_p_id (resolve_once (p_idValue q) v) (resolve_once (p_idApply q) a) q).
Proof. split_and!; [apply grows_id|done..]. Qed.

(** Resolving the URN or the id promise of one preparation keeps every
    preparation where it is, what it was called with, its phase and its
    outputs. *)
Lemma alter_kept (f : Prep → Prep) k0 (l : list Prep) k p :
  (∀ q, kept q (f q)) → l !! k = Some p →
  ∃ p', alter f k0 l !! k = Some p' ∧ kept p p'.
Proof.
  intros Hf Hk. destruct (decide (k0 = k)) as [->|Hne].
  - exists (f p). by rewrite list_lookup_alter_eq, Hk.
  - exists p. rewrite list_lookup_alter_ne by done. split; [done|apply kept_refl].
Qed.

Lemma alter_kept2 (f g : Prep → Prep) k0 k1 (l : list Prep) k p :
  (∀ q, kept q (f q)) → (∀ q, kept q (g q)) → l !! k = Some p →
  ∃ p', alter g k1 (alter f k0 l) !! k = Some p' ∧ kept p p'.
Proof.
  intros Hf Hg Hk.
  destruct (alter_kept f k0 l k p Hf Hk) as (q & Hq & Hpq).
  destruct (alter_kept g k1 _ k q Hg Hq) as (r & Hr & Hqr).
  exists r. split; [done|by eapply kept_trans].
Qed.

Lemma same_preps_grow s ev s' k p :
  preps s' = preps s → preps s !! k = Some p →
  ∃ p', preps s' !! k = Some p' ∧ grows p p' ∧ prep_phase_step codec s k p p' ∧
        ((∀ i keys, ev ≠ OutputsResolved i keys) → p_outputs p' = p_outputs p).
Proof.
  intros -> Hk. exists p. split_and!; [done|apply grows_refl|by left|done].
Qed.

Lemma kept_preps_grow s ev k p p' (l : list Prep) :
  l !! k = Some p' → kept p p' →
  ∃ p', l !! k = Some p' ∧ grows p p' ∧ prep_phase_step codec s k p p' ∧
        ((∀ i keys, ev ≠ OutputsResolved i keys) → p_outputs p' = p_outputs p).
Proof.
  intros Hk (Hg & Hph & Ho). exists p'. split_and!; [done|done|by left|done].
Qed.

(** Every transition that returns or throws keeps every preparation: what
    it was called with stays, a resolved promise stays resolved to the same
    value, and its phase moves only when the preparation itself returns or
    throws. *)
Lemma step_preps s ev r s' k p :
  step codec s ev = Some r → outcome r s' → preps s !! k = Some p →
  ∃ p', preps s' !! k = Some p' ∧ grows p p' ∧ prep_phase_step codec s k p p' ∧
        ((∀ i keys, ev ≠ OutputsResolved i keys) → p_outputs p' = p_outputs p).
Proof.
  intros Hstep Hout Hkp.
  destruct ev as [res t name props opts|res t name custom props opts
    |res outputs|k0|i|i|i err resp|i keys]; simpl in Hstep.
  - injection Hstep as <-. unfold_js.
    destruct (truthy (opt_id opts)); simpl in Hout.
    + apply outcome_Ok in Hout as ->. simpl. exists p.
      rewrite lookup_app_l by (by eapply lookup_lt_Some).
      split_and!; [done|apply grows_refl|by left|done].
    + apply outcome_Throw in Hout as ->. by apply same_preps_grow.
  - injection Hstep as <-. unfold_js. simpl in Hout.
    apply outcome_Ok in Hout as ->. simpl. exists p.
    rewrite lookup_app_l by (by eapply lookup_lt_Some).
    split_and!; [done|apply grows_refl|by left|done].
  - injection Hstep as <-. unfold registerResourceOutputs in Hout.
    rewrite runAsyncResourceOp_run in Hout. simpl in Hout.
    apply outcome_Ok in Hout as ->. by apply same_preps_grow.
  - destruct (preps s !! k0) as [p0|] eqn:Hk0; [|done]. simpl in Hstep.
    destruct (p_phase p0) eqn:Hph; try done.
    destruct (prepareResource_resume codec s k0 p0) as [resop| |e] eqn:Hres; [|done|].
    + injection Hstep as <-.
      unfold bind, alter_prep, modify, prepared in Hout.
      destruct (p_kind p0) as [t name id|t name] eqn:Hpk;
        rewrite runAsyncResourceOp_run in Hout; simpl in Hout;
        apply outcome_Ok in Hout as ->; simpl.
      all: destruct (decide (k0 = k)) as [->|Hne];
        [ rewrite Hkp in Hk0; injection Hk0 as <-;
          exists (set_p_phase Handed p); rewrite list_lookup_alter_eq, Hkp;
          split_and!; [done|apply grows_phase|right; split; [done|left; eauto]|done]
        | exists p; rewrite list_lookup_alter_ne by done;
          split_and!; [done|apply grows_refl|by left|done] ].
    + injection Hstep as <-.
      unfold bind, alter_prep, modify in Hout. simpl in Hout.
      apply outcome_Ok in Hout as ->. simpl.
      destruct (decide (k0 = k)) as [->|Hne];
        [ rewrite Hkp in Hk0; injection Hk0 as <-;
          exists (set_p_phase PrepFailed p); rewrite list_lookup_alter_eq, Hkp;
          split_and!; [done|apply grows_phase|right; split; [done|right; eauto]|done]
        | exists p; rewrite list_lookup_alter_ne by done;
          split_and!; [done|apply grows_refl|by left|done] ].
  - destruct (ops s !! i) as [op|] eqn:Hi; [|done]. simpl in Hstep.
    destruct (o_phase op) eqn:Hph; try done.
    destruct (chain_settled s (o_chain op)) eqn:Hset; [|done].
    injection Hstep as <-. unfold_js.
    destruct (o_callback op) as [? ? ? ? ? ? req|? ? ? ? ? req|res outputs] eqn:Hcb;
      destruct (o_serial op); simpl in Hout.
    1-4: apply outcome_Ok in Hout as ->; by apply same_preps_grow.
    all: unfold resource in Hout; simpl in Hout;
      destruct (r_urn (default {| r_urn := None; r_id := None |} (resources s !! res)))
        as [k1|]; simpl in Hout; apply outcome_Ok in Hout as ->;
      by apply same_preps_grow.
  - destruct (ops s !! i) as [op|] eqn:Hi; [|done]. simpl in Hstep.
    destruct (o_phase op) as [|k1| | | | |] eqn:Hph; try done.
    destruct (o_callback op) as [| |res outputs] eqn:Hcb; try done.
    destruct (urn_promise s k1) as [urn| |] eqn:Hurn; try done.
    injection Hstep as <-. unfold_js. simpl in Hout.
    apply outcome_Ok in Hout as ->. by apply same_preps_grow.
  - destruct (ops s !! i) as [op|] eqn:Hi; [|done]. simpl in Hstep.
    destruct (o_phase op) as [| |req| | | |] eqn:Hph; try done.
    destruct (o_callback op)
      as [res t name props resop resolvedID req0|res t name props resop req0
         |res outputs] eqn:Hcb.
    + injection Hstep as <-.
      unfold readResource_callback in Hout. destruct err as [e|].
      * unfold_js. simpl in Hout. apply outcome_Ok in Hout as ->.
        by apply same_preps_grow.
      * destruct (resolveID resop) as [kid|]; unfold_js; simpl in Hout;
          apply outcome_Ok in Hout as ->; simpl.
        -- destruct (alter_kept2 _ _ (resolveURN resop) kid (preps s) k p
                       (kept_urn (VStr (getUrn resp)))
                       (kept_id resolvedID (is_defined resolvedID)) Hkp)
             as (p' & Hp' & Hkept).
           by eapply kept_preps_grow.
        -- destruct (alter_kept _ (resolveURN resop) (preps s) k p
                       (kept_urn (VStr (getUrn resp))) Hkp)
             as (p' & Hp' & Hkept).
           by eapply kept_preps_grow.
    + injection Hstep as <-.
      unfold registerResource_callback in Hout. destruct err as [e|].
      * unfold_js. destruct (bool_decide (e_code e = Some UNAVAILABLE)); simpl in Hout.
        { by apply outcome_Spin in Hout. }
        apply outcome_Ok in Hout as ->. by apply same_preps_grow.
      * unfold_js. destruct (resolveID resop) as [kid|]; simpl in Hout;
          apply outcome_Ok in Hout as ->; simpl.
        -- destruct (alter_kept2 _ _ (resolveURN resop) kid (preps s) k p
                       (kept_urn (VStr (getUrn resp)))
                       (kept_id (js_or (getId resp) VUndefined)
                          (is_defined (js_or (getId resp) VUndefined))) Hkp)
             as (p' & Hp' & Hkept).
           by eapply kept_preps_grow.
        -- destruct (alter_kept _ (resolveURN resop) (preps s) k p
                       (kept_urn (VStr (getUrn resp))) Hkp)
             as (p' & Hp' & Hkept).
           by eapply kept_preps_grow.
    + destruct req as [| |urn outs]; try done. injection Hstep as <-.
      unfold registerResourceOutputs_callback in Hout. destruct err as [e|].
      * unfold_js. destruct (bool_decide (e_code e = Some UNAVAILABLE)); simpl in Hout.
        { by apply outcome_Spin in Hout. }
        apply outcome_Ok in Hout as ->. by apply same_preps_grow.
      * unfold_js. simpl in Hout. apply outcome_Ok in Hout as ->.
        by apply same_preps_grow.
  - destruct (ops s !! i) as [op|] eqn:Hi; [|done]. simpl in Hstep.
    destruct (o_phase op) as [| | |resp| | |] eqn:Hph; try done.
    destruct (o_callback op)
      as [res t name props resop resolvedID req0|res t name props resop req0
         |res outputs] eqn:Hcb; [| |done];
      (destruct (bool_decide (Object_keys props keys)); [|done]);
      injection Hstep as <-;
      unfold resolveOutputs_return, resolveOutputs in Hout;
      (destruct (resolveOutputs_allProps codec props (getProperties resp) keys)
         as [e|allProps]);
      unfold_js; simpl in Hout; apply outcome_Ok in Hout as ->; simpl.
    all: first
      [ by apply same_preps_grow
      | destruct (decide (resolvers resop = k)) as [Hk|Hk];
        [ eexists; rewrite Hk, list_lookup_alter_eq, Hkp; simpl;
          split_and!;
            [done|apply grows_outputs|by left|intros Hev; by destruct (Hev i keys)]
        | exists p; rewrite list_lookup_alter_ne by done;
          split_and!; [done|apply grows_refl|by left|done] ] ].
Qed.

(** What a transition adds to the table of preparations is one preparation
    that has just begun: no promise of it is resolved, its [opts.dependsOn]
    has been read against the resources as they are now, and its resource
    carries its URN [Output]. *)
Lemma step_table s ev r s' :
  step codec s ev = Some r → outcome r s' →
  length (preps s') = length (preps s) ∨
  ∃ q, preps s' = preps s ++ [q] ∧ p_phase q = Preparing ∧ pending q ∧
       p_outputs q = None ∧
       r_urn (resource s' (p_res q)) = Some (length (preps s)) ∧
       p_dependsOn q = mapM (λ d, r_urn (resource s' d))
                         (dependsOn_list (opt_dependsOn (p_opts q))).
Proof.
  intros Hstep Hout.
  destruct ev as [res t name props opts|res t name custom props opts
    |res outputs|k0|i|i|i err resp|i keys]; simpl in Hstep.
  1,2: injection Hstep as <-; unfold_js;
    try destruct (truthy (opt_id opts)); simpl in Hout;
    first [ apply outcome_Ok in Hout as -> | apply outcome_Throw in Hout as -> ];
    first [ by left
          | right; eexists; split; [reflexivity|]; simpl;
            unfold resource; simpl; rewrite lookup_insert_eq; simpl;
            by split_and! ].
  all: left.
  - injection Hstep as <-. unfold registerResourceOutputs in Hout.
    rewrite runAsyncResourceOp_run in Hout. simpl in Hout.
    by apply outcome_Ok in Hout as ->.
  - destruct (preps s !! k0) as [p0|] eqn:Hk0; [|done]. simpl in Hstep.
    destruct (p_phase p0) eqn:Hph; try done.
    destruct (prepareResource_resume codec s k0 p0) as [resop| |e] eqn:Hres; [|done|].
    + injection Hstep as <-.
      unfold bind, alter_prep, modify, prepared in Hout.
      destruct (p_kind p0) as [t name id|t name] eqn:Hpk;
        rewrite runAsyncResourceOp_run in Hout; simpl in Hout;
        apply outcome_Ok in Hout as ->; simpl; by rewrite length_alter.
    + injection Hstep as <-.
      unfold bind, alter_prep, modify in Hout. simpl in Hout.
      apply outcome_Ok in Hout as ->. simpl. by rewrite length_alter.
  - destruct (ops s !! i) as [op|] eqn:Hi; [|done]. simpl in Hstep.
    destruct (o_phase op) eqn:Hph; try done.
    destruct (chain_settled s (o_chain op)) eqn:Hset; [|done].
    injection Hstep as <-. unfold_js.
    destruct (o_callback op) as [? ? ? ? ? ? req|? ? ? ? ? req|res outputs] eqn:Hcb;
      destruct (o_serial op); simpl in Hout.
    1-4: by apply outcome_Ok in Hout as ->.
    all: unfold resource in Hout; simpl in Hout;
      destruct (r_urn (default {| r_urn := None; r_id := None |} (resources s !! res)))
        as [k1|]; simpl in Hout; by apply outcome_Ok in Hout as ->.
  - destruct (ops s !! i) as [op|] eqn:Hi; [|done]. simpl in Hstep.
    destruct (o_phase op) as [|k1| | | | |] eqn:Hph; try done.
    destruct (o_callback op) as [| |res outputs] eqn:Hcb; try done.
    destruct (urn_promise s k1) as [urn| |] eqn:Hurn; try done.
    injection Hstep as <-. unfold_js. simpl in Hout.
    by apply outcome_Ok in Hout as ->.
  - destruct (ops s !! i) as [op|] eqn:Hi; [|done]. simpl in Hstep.
    destruct (o_phase op) as [| |req| | | |] eqn:Hph; try done.
    destruct (o_callback op)
      as [res t name props resop resolvedID req0|res t name props resop req0
         |res outputs] eqn:Hcb.
    + injection Hstep as <-.
      unfold readResource_callback in Hout. destruct err as [e|].
      * unfold_js. simpl in Hout. by apply outcome_Ok in Hout as ->.
      * destruct (resolveID resop) as [kid|]; unfold_js; simpl in Hout;
          apply outcome_Ok in Hout as ->; simpl; by rewrite !length_alter.
    + injection Hstep as <-.
      unfold registerResource_callback in Hout. destruct err as [e|].
      * unfold_js. destruct (bool_decide (e_code e = Some UNAVAILABLE)); simpl in Hout.
        { by apply outcome_Spin in Hout. }
        by apply outcome_Ok in Hout as ->.
      * unfold_js. destruct (resolveID resop) as [kid|]; simpl in Hout;
          apply outcome_Ok in Hout as ->; simpl; by rewrite !length_alter.
    + destruct req as [| |urn outs]; try done. injection Hstep as <-.
      unfold registerResourceOutputs_callback in Hout. destruct err as [e|].
      * unfold_js. destruct (bool_decide (e_code e = Some UNAVAILABLE)); simpl in Hout.
        { by apply outcome_Spin in Hout. }
        by apply outcome_Ok in Hout as ->.
      * unfold_js. simpl in Hout. by apply outcome_Ok in Hout as ->.
  - destruct (ops s !! i) as [op|] eqn:Hi; [|done]. simpl in Hstep.
    destruct (o_phase op) as [| | |resp| | |] eqn:Hph; try done.
    destruct (o_callback op)
      as [res t name props resop resolvedID req0|res t name props resop req0
         |res outputs] eqn:Hcb; [| |done];
      (destruct (bool_decide (Object_keys props keys)); [|done]);
      injection Hstep as <-;
      unfold resolveOutputs_return, resolveOutputs in Hout;
      (destruct (resolveOutputs_allProps codec props (getProperties resp) keys)
         as [e|allProps]);
      unfold_js; simpl in Hout; apply outcome_Ok in Hout as ->; simpl;
      by rewrite ?length_alter.
Qed.

End Preparations.

(** * Facts that hold along every run *)

Section Traces.

Context (codec : Codec).

Lemma mapM_Ready_elem {A B} (f : A → Await B) l : ∀ ys,
  mapM f l = Ready ys → ∀ y, y ∈ ys → ∃ x, x ∈ l ∧ f x = Ready y.
Proof.
  induction l as [|x l IH]; intros ys H y Hy; simpl in H.
  - injection H as <-. by apply elem_of_nil in Hy.
  - destruct (f x) as [b| |e] eqn:Hx; simpl in H; try discriminate.
    destruct (mapM f l) as [bs| |e] eqn:Hl; simpl in H; try discriminate.
    injection H as <-. apply elem_of_cons in Hy as [->|Hy].
    + exists x. split; [apply elem_of_cons; by left|done].
    + destruct (IH bs eq_refl y Hy) as (x' & Hin & Hx').
      exists x'. split; [apply elem_of_cons; by right|done].
Qed.

Lemma mapM_Ready_all {A B} (f : A → Await B) l : ∀ ys,
  mapM f l = Ready ys → ∀ x, x ∈ l → ∃ y, f x = Ready y.
Proof.
  induction l as [|x0 l IH]; intros ys H x Hin; simpl in H.
  - by apply elem_of_nil in Hin.
  - destruct (f x0) as [b| |e] eqn:Hx; simpl in H; try discriminate.
    destruct (mapM f l) as [bs| |e] eqn:Hl; simpl in H; try discriminate.
    apply elem_of_cons in Hin as [->|Hin]; [eauto|]. by eapply IH.
Qed.

Lemma await_urn_promise s r u :
  await_urn s r = Ready u → ∃ k, urn_promise s k = Ready u.
Proof.
  unfold await_urn. destruct (r_urn (resource s r)) as [k|]; [eauto|done].
Qed.

(** The bundle of a finished preparation, field by field. *)
Lemma prepareResource_resume_inv s k p resop :
  prepareResource_resume codec s k p = Ready resop →
  ∃ ks explicitURNs implicitURNs,
    p_dependsOn p = Some ks ∧
    mapM (urn_promise s) ks = Ready explicitURNs ∧
    mapM (await_urn s) (serializeResourceProperties codec (p_props p)).2
      = Ready implicitURNs ∧
    dependencies resop = dependency_set explicitURNs implicitURNs ∧
    match opt_parent (p_opts p) with
    | Some parent => ∃ u, await_urn s parent = Ready u ∧ parentURN resop = Some u
    | None => parentURN resop = None
    end ∧
    match opt_provider (p_opts p) with
    | Some provider =>
        if p_custom p then
          ∃ providerURN providerID,
            await_urn s provider = Ready providerURN ∧
            await_id s provider = Ready providerID ∧
            providerRef resop =
              Some (to_string providerURN +:+ "::" +:+
                    to_string (js_or providerID (unknownValue codec)))
        else providerRef resop = None
    | None => providerRef resop = None
    end.
Proof.
  unfold prepareResource_resume. intros H.
  destruct (p_dependsOn p) as [ks|]; [|discriminate].
  destruct (mapM (urn_promise s) ks) as [ex| |] eqn:Hex; try discriminate.
  simpl in H.
  destruct (serializeResourceProperties codec (p_props p)) as [sp im] eqn:Hser.
  destruct (opt_parent (p_opts p)) as [parent|].
  - destruct (await_urn s parent) as [pu| |] eqn:Hpar; try discriminate.
    simpl in H.
    destruct (opt_provider (p_opts p)) as [provider|].
    + destruct (p_custom p).
      * destruct (await_urn s provider) as [vu| |] eqn:Hpu; try discriminate.
        simpl in H.
        destruct (await_id s provider) as [vi| |] eqn:Hpi; try discriminate.
        simpl in H.
        destruct (add_implicit s (new_Set ex) im) as [deps| |] eqn:Him; try discriminate.
        simpl in H. injection H as <-. simpl.
        apply add_implicit_ready in Him as (urns & Hm & ->).
        exists ks, ex, urns. split_and!; eauto.
      * simpl in H.
        destruct (add_implicit s (new_Set ex) im) as [deps| |] eqn:Him; try discriminate.
        simpl in H. injection H as <-. simpl.
        apply add_implicit_ready in Him as (urns & Hm & ->).
        exists ks, ex, urns. split_and!; eauto.
    + simpl in H.
      destruct (add_implicit s (new_Set ex) im) as [deps| |] eqn:Him; try discriminate.
      simpl in H. injection H as <-. simpl.
      apply add_implicit_ready in Him as (urns & Hm & ->).
      exists ks, ex, urns. split_and!; eauto.
  - simpl in H.
    destruct (opt_provider (p_opts p)) as [provider|].
    + destruct (p_custom p).
      * destruct (await_urn s provider) as [vu| |] eqn:Hpu; try discriminate.
        simpl in H.
        destruct (await_id s provider) as [vi| |] eqn:Hpi; try discriminate.
        simpl in H.
        destruct (add_implicit s (new_Set ex) im) as [deps| |] eqn:Him; try discriminate.
        simpl in H. injection H as <-. simpl.
        apply add_implicit_ready in Him as (urns & Hm & ->).
        exists ks, ex, urns. split_and!; eauto.
      * simpl in H.
        destruct (add_implicit s (new_Set ex) im) as [deps| |] eqn:Him; try discriminate.
        simpl in H. injection H as <-. simpl.
        apply add_implicit_ready in Him as (urns & Hm & ->).
        exists ks, ex, urns. split_and!; eauto.
    + simpl in H.
      destruct (add_implicit s (new_Set ex) im) as [deps| |] eqn:Him; try discriminate.
      simpl in H. injection H as <-. simpl.
      apply add_implicit_ready in Him as (urns & Hm & ->).
      exists ks, ex, urns. split_and!; eauto.
Qed.

(** A preparation does not get past [Promise.all] while the URN of one
    explicit dependency is pending. *)
Lemma prepareResource_resume_explicit s k p ks k' :
  p_dependsOn p = Some ks → k' ∈ ks → urn_promise s k' = Pending →
  prepareResource_resume codec s k p = Pending.
Proof.
  intros Hd Hin Hpend. unfold prepareResource_resume. rewrite Hd.
  assert (Hm : mapM (urn_promise s) ks = Pending).
  { clear Hd. induction ks as [|x ks IH]; [by apply elem_of_nil in Hin|].
    simpl. apply elem_of_cons in Hin as [<-|Hin].
    - by rewrite Hpend.
    - destruct (urn_promise s x) as [u| |e] eqn:Hx; simpl; [|done|].
      + by rewrite (IH Hin).
      + unfold urn_promise in Hx. destruct (preps s !! x) as [q|]; [|done].
        by destruct (p_urn q). }
  by rewrite Hm.
Qed.

Lemma phase_step_answered s ev j op ph log :
  phase_step codec s ev j op ph log →
  answered (o_phase op) = true → answered ph = true.
Proof. intros [] Ha; try done; by rewrite H0 in Ha. Qed.

Lemma phase_step_unsettled s ev j op ph log :
  phase_step codec s ev j op ph log → settled (o_phase op) = false.
Proof. intros []; by rewrite H0. Qed.

(** No transition rewrites the callback of an operation, takes back an
    answer, or touches a settled operation. *)
Lemma queue_step_keeps s ev s' i op :
  queue_step codec s ev s' → ops s !! i = Some op →
  ∃ op', ops s' !! i = Some op' ∧ o_callback op' = o_callback op ∧
         (answered (o_phase op) = true → answered (o_phase op') = true) ∧
         (settled (o_phase op) = true → op' = op).
Proof.
  intros Hq Hi.
  destruct Hq as [Ho _|opn Ho _ _ _ _|opn k p resop req Ho _ _ _ _ _ _ _ _ _
                 |j opj ph log Hj Hps Ho _]; rewrite Ho.
  - by exists op.
  - exists op. split; [by apply lookup_app_l_Some|done].
  - exists op. split; [by apply lookup_app_l_Some|done].
  - rewrite (lookup_set_phase _ _ _ _ _ Hj).
    destruct (decide (j = i)) as [->|Hne]; [|by exists op].
    assert (opj = op) as -> by congruence.
    exists (set_phase ph op). split_and!; try done.
    + simpl. by eapply phase_step_answered.
    + intros Hs. apply phase_step_unsettled in Hps. congruence.
Qed.

(** Where an operation of the later state comes from. *)
Lemma queue_step_back s ev s' i op' :
  queue_step codec s ev s' → ops s' !! i = Some op' →
  (∃ op, ops s !! i = Some op ∧ o_callback op' = o_callback op) ∨
  (i = length (ops s) ∧ ops s' = ops s ++ [op'] ∧ o_phase op' = Waiting).
Proof.
  intros Hq Hi.
  destruct Hq as [Ho _|opn Ho _ Hw _ _|opn k p resop req Ho _ Hw _ _ _ _ _ _ _
                 |j opj ph log Hj Hps Ho _]; rewrite Ho in Hi |- *.
  - left. by exists op'.
  - apply lookup_snoc_cases in Hi as [Hi|[-> ->]]; [left; by exists op'|by right].
  - apply lookup_snoc_cases in Hi as [Hi|[-> ->]]; [left; by exists op'|by right].
  - left. rewrite (lookup_set_phase _ _ _ _ _ Hj) in Hi.
    destruct (decide (j = i)) as [->|Hne]; [|by exists op'].
    injection Hi as <-. by exists opj.
Qed.

Lemma step_urn_answered s ev r s' i u :
  step codec s ev = Some r → outcome r s' →
  urn_answered s i u → urn_answered s' i u.
Proof.
  intros Hstep Hout (op & resop & p & Hi & Hr & Hp & Hu & Ha).
  destruct (queue_step_keeps s ev s' i op (step_queue codec s ev r s' Hstep Hout) Hi)
    as (op' & Hi' & Hcb & Hans & _).
  destruct (step_preps codec s ev r s' _ p Hstep Hout Hp) as (p' & Hp' & Hg & _).
  exists op', resop, p'. split_and!; try done; [congruence| |by apply Hans].
  destruct Hg as (_ & _ & _ & _ & _ & _ & _ & _ & Hurn & _). by apply Hurn.
Qed.

(** A resolved URN promise was resolved by the answer to the operation of
    its preparation. *)
Lemma promise_answered s k u :
  cells_inv codec s → urn_promise s k = Ready u → ∃ i, urn_answered s i u.
Proof.
  intros I Hu. unfold urn_promise in Hu.
  destruct (preps s !! k) as [p|] eqn:Hk; [|done].
  destruct (p_urn p) as [v|] eqn:Hv; [|done]. injection Hu as ->.
  destruct (decide (p_phase p = Handed)) as [Hh|Hn].
  - destruct (ci_handed codec s I k p Hk Hh) as (i & op & resop & Hi & Hr & <-).
    destruct (ci_owner codec s I i op resop Hi Hr) as (q & Hq & _ & _ & Hpend).
    assert (q = p) as -> by congruence.
    exists i, op, resop, p. split_and!; try done.
    destruct (answered (o_phase op)); [done|].
    destruct (Hpend eq_refl) as (Hnone & _). congruence.
  - destruct (ci_fresh codec s I k p Hk Hn) as (Hnone & _). congruence.
Qed.

End Traces.

(** * The log of remote calls *)

Section Log.

Context (codec : Codec).

Lemma callback_request_of cb req :
  callback_request cb = Some req → request_of codec cb req.
Proof. destruct cb; simpl; congruence. Qed.

(** What a change of phase adds to the log. *)
Lemma phase_step_log s ev j op ph log :
  phase_step codec s ev j op ph log →
  (log = [] ∧ (issued ph = true → issued (o_phase op) = true) ∧
   (unissued ph = true → unissued (o_phase op) = true)) ∨
  (∃ req, log = [(j, req)] ∧ ph = InFlight req ∧
          unissued (o_phase op) = true ∧ request_of codec (o_callback op) req ∧
          (callback_request (o_callback op) = Some req ∨
           ∃ k u, urn_promise s k = Ready u ∧ request_urns req = [u])).
Proof.
  intros [req _ Hph _ Hreq|res outputs k _ Hph _ _ _|res outputs e _ Hph _ _ _
         |res outputs k urn _ Hph Hcb Hu|req resp _ Hph _|req resp _ Hph _
         |req e err resp _ Hph|resp keys _ Hph|resp keys e _ Hph];
    rewrite Hph; simpl.
  - right. exists req. split_and!; try done; [by apply callback_request_of|by left].
  - left. by split_and!.
  - left. by split_and!.
  - right. eexists. split_and!; try done; [rewrite Hcb; simpl; eauto|].
    right. by exists k, urn.
  - left. by split_and!.
  - left. by split_and!.
  - left. by split_and!.
  - left. by split_and!.
  - left. by split_and!.
Qed.

Lemma initial_log_inv mode : log_inv codec (initial mode).
Proof.
  split; simpl; try done.
  - apply NoDup_nil_2.
  - intros j req Hin. by apply elem_of_nil in Hin.
  - intros l1 j req l2 u Heq. by destruct l1.
Qed.

Lemma elem_of_fst_log (l : list (nat * Request)) j req :
  (j, req) ∈ l → j ∈ l.*1.
Proof. intros Hin. apply list_elem_of_fmap. by exists (j, req). Qed.

(** Every transition keeps the log in step with the queue. *)
Lemma log_inv_step s ev r s' :
  queue_inv s → cells_inv codec s → log_inv codec s →
  step codec s ev = Some r → outcome r s' → log_inv codec s'.
Proof.
  intros IQ IC [L1 L2 L3 L4 L5 L6] Hstep Hout.
  pose proof (step_queue codec s ev r s' Hstep Hout) as Hq.
  assert (Hmono : ∀ i u, urn_answered s i u → urn_answered s' i u).
  { intros i u. by eapply step_urn_answered. }
  assert (Hfresh : length (ops s) ∉ (rpcLog s).*1).
  { intros Hin. apply list_elem_of_fmap in Hin as ([j req] & Hj & Hin). simpl in Hj.
    destruct (qi_issued s IQ _ _ Hin) as (op & Hop & _).
    apply lookup_lt_Some in Hop. lia. }
  assert (Hord : rpcLog s' = rpcLog s →
    ∀ l1 j req l2 u, rpcLog s' = l1 ++ (j, req) :: l2 → u ∈ request_urns req →
      ∃ i, i ∈ l1.*1 ∧ urn_answered s' i u).
  { intros Hl l1 j rq l2 u Heq Hu. rewrite Hl in Heq.
    destruct (L6 l1 j rq l2 u Heq Hu) as (i & Hi & Ha). eauto. }
  destruct Hq as [Ho Hl|opn Ho Hl Hw Hnr Hnq
                 |opn k p resop req Ho Hl Hw Hk Hph Hres _ Hr Hrq Hurns
                 |j opj ph log Hj Hps Ho Hl].
  - split; [| | | | |by apply Hord]; rewrite ?Ho, ?Hl; try done.
    intros i op rq u Hi Hc Hu. destruct (L1 i op rq u Hi Hc Hu) as (j & Hj). eauto.
  - split; [| | | | |by apply Hord]; rewrite ?Ho, ?Hl; try done.
    + intros i op rq u Hi Hc Hu.
      apply lookup_snoc_cases in Hi as [Hi|[-> ->]]; [|congruence].
      destruct (L1 i op rq u Hi Hc Hu) as (j & Hj). eauto.
    + intros i op Hi Hiss.
      apply lookup_snoc_cases in Hi as [Hi|[-> ->]]; [eauto|]. by rewrite Hw in Hiss.
    + intros i op Hi Hun.
      apply lookup_snoc_cases in Hi as [Hi|[-> ->]]; [eauto|done].
    + intros j rq Hin. destruct (L5 j rq Hin) as (op & Hop & Hro).
      exists op. split; [by apply lookup_app_l_Some|done].
  - assert (Hnew : ∀ u, u ∈ request_urns req → ∃ j, urn_answered s j u).
    { intros u Hu. rewrite Hurns in Hu.
      apply prepareResource_resume_inv in Hres
        as (ks & ex & im & _ & Hex & Him & Hdeps & Hpar & _).
      apply elem_of_app in Hu as [Hu|Hu].
      - rewrite Hdeps in Hu. apply dependency_set_elem in Hu as [Hu|Hu].
        + destruct (mapM_Ready_elem _ _ _ Hex u Hu) as (k' & _ & Hk').
          by eapply promise_answered.
        + destruct (mapM_Ready_elem _ _ _ Him u Hu) as (r' & _ & Hr').
          apply await_urn_promise in Hr' as (k' & Hk'). by eapply promise_answered.
      - destruct (opt_parent (p_opts p)) as [parent|].
        + destruct Hpar as (v & Hv & Hpv). rewrite Hpv in Hu. simpl in Hu.
          apply list_elem_of_singleton in Hu as ->.
          apply await_urn_promise in Hv as (k' & Hk'). by eapply promise_answered.
        + rewrite Hpar in Hu. by apply elem_of_nil in Hu. }
    split; [| | | | |by apply Hord]; rewrite ?Ho, ?Hl; try done.
    + intros i op rq u Hi Hc Hu.
      apply lookup_snoc_cases in Hi as [Hi|[-> ->]].
      * destruct (L1 i op rq u Hi Hc Hu) as (j & Hj). eauto.
      * assert (rq = req) as -> by congruence.
        destruct (Hnew u Hu) as (j & Hj). eauto.
    + intros i op Hi Hiss.
      apply lookup_snoc_cases in Hi as [Hi|[-> ->]]; [eauto|]. by rewrite Hw in Hiss.
    + intros i op Hi Hun.
      apply lookup_snoc_cases in Hi as [Hi|[-> ->]]; [eauto|done].
    + intros j rq Hin. destruct (L5 j rq Hin) as (op & Hop & Hro).
      exists op. split; [by apply lookup_app_l_Some|done].
  - destruct (phase_step_log s ev j opj ph log Hps)
      as [(-> & Hiss & Hun)|(rq & -> & -> & Hun & Hro & Hsrc)].
    + rewrite app_nil_r in Hl.
      split; [| | | | |by apply Hord]; rewrite ?Ho, ?Hl; try done.
      * intros i op rq u Hi Hc Hu.
        destruct (lookup_set_phase_Some _ _ _ _ _ _ Hj Hi) as (op0 & Hi0 & _ & _ & Hcb & _).
        rewrite Hcb in Hc. destruct (L1 i op0 rq u Hi0 Hc Hu) as (j' & Hj'). eauto.
      * intros i op Hi Hi'.
        destruct (lookup_set_phase_Some _ _ _ _ _ _ Hj Hi) as (op0 & Hi0 & _ & _ & _ & Hp).
        rewrite Hp in Hi'. destruct (decide (j = i)) as [->|Hne]; [|eauto].
        assert (op0 = opj) as -> by congruence. eauto.
      * intros i op Hi Hi'.
        destruct (lookup_set_phase_Some _ _ _ _ _ _ Hj Hi) as (op0 & Hi0 & _ & _ & _ & Hp).
        rewrite Hp in Hi'. destruct (decide (j = i)) as [->|Hne]; [|eauto].
        assert (op0 = opj) as -> by congruence. eauto.
      * intros j' rq Hin. destruct (L5 j' rq Hin) as (op & Hop & Hro).
        destruct (lookup_set_phase_inv _ _ _ ph _ _ Hj Hop) as (op' & Hop' & _).
        destruct (lookup_set_phase_Some _ _ _ _ _ _ Hj Hop') as (op0 & Hi0 & _ & _ & Hcb & _).
        exists op'. split; [done|]. rewrite Hcb. congruence.
    + assert (Hnew : ∀ u, u ∈ request_urns rq → ∃ i, urn_answered s i u).
      { intros u Hu. destruct Hsrc as [Hc|(k & v & Hk & Hv)]; [by eapply L1|].
        rewrite Hv in Hu. apply list_elem_of_singleton in Hu as ->.
        by eapply promise_answered. }
      split; rewrite ?Ho, ?Hl.
      * intros i op rq' u Hi Hc Hu.
        destruct (lookup_set_phase_Some _ _ _ _ _ _ Hj Hi) as (op0 & Hi0 & _ & _ & Hcb & _).
        rewrite Hcb in Hc. destruct (L1 i op0 rq' u Hi0 Hc Hu) as (j' & Hj'). eauto.
      * intros i op Hi Hi'. rewrite fmap_app. apply elem_of_app.
        destruct (lookup_set_phase_Some _ _ _ _ _ _ Hj Hi) as (op0 & Hi0 & _ & _ & _ & Hp).
        rewrite Hp in Hi'. destruct (decide (j = i)) as [->|Hne]; [|left; eauto].
        right. simpl. by apply list_elem_of_singleton.
      * intros i op Hi Hi'. rewrite fmap_app. intros Hin.
        destruct (lookup_set_phase_Some _ _ _ _ _ _ Hj Hi) as (op0 & Hi0 & _ & _ & _ & Hp).
        rewrite Hp in Hi'. destruct (decide (j = i)) as [->|Hne]; [done|].
        apply elem_of_app in Hin as [Hin|Hin]; [by eapply L3|].
        simpl in Hin. apply list_elem_of_singleton in Hin. congruence.
      * rewrite fmap_app. apply NoDup_app. split_and!; [done| |apply NoDup_singleton].
        intros x Hx Hx'. simpl in Hx'. apply list_elem_of_singleton in Hx' as ->.
        by eapply L3.
      * intros j' rq' Hin. apply elem_of_app in Hin as [Hin|Hin].
        -- destruct (L5 j' rq' Hin) as (op & Hop & Hro').
           destruct (lookup_set_phase_inv _ _ _ (InFlight rq) _ _ Hj Hop) as (op' & Hop' & _).
           destruct (lookup_set_phase_Some _ _ _ _ _ _ Hj Hop')
             as (op0 & Hi0 & _ & _ & Hcb & _).
           exists op'. split; [done|]. rewrite Hcb. congruence.
        -- apply list_elem_of_singleton in Hin. injection Hin as -> ->.
           exists (set_phase (InFlight rq) opj).
           split; [|done]. rewrite (lookup_set_phase _ _ _ _ _ Hj).
           by rewrite decide_True.
      * intros l1 j' rq' l2 u Heq Hu.
        destruct l2 as [|x l2 _] using rev_ind.
        -- apply (app_inj_tail _ _) in Heq as [<- Hlast]. injection Hlast as <- <-.
           destruct (Hnew u Hu) as (i & Ha). exists i. split; [|by apply Hmono].
           destruct Ha as (op & _ & _ & Hi & _ & _ & _ & Hans).
           apply (L2 i op Hi). by destruct (o_phase op).
        -- rewrite app_comm_cons, app_assoc in Heq.
           apply (app_inj_tail _ _) in Heq as [Heq _].
           destruct (L6 l1 j' rq' l2 u Heq Hu) as (i & Hi & Ha). eauto.
Qed.

(** Every state the machine reaches keeps the log in step with the queue. *)
Lemma reachable_log_inv mode s :
  reachable codec (initial mode) s → log_inv codec s.
Proof.
  intros Hr.
  induction Hr as [|s ev s' Hr IH Hstep|s ev e s' Hr IH Hstep].
  - apply initial_log_inv.
  - destruct (reachable_inv codec mode s Hr) as (IQ & IC & _).
    eapply (log_inv_step s ev (Ok tt s')); try done. by left.
  - destruct (reachable_inv codec mode s Hr) as (IQ & IC & _).
    eapply (log_inv_step s ev (Throw e s')); try done. right. eauto.
Qed.

End Log.

(** * Preparations and their dependencies along every run *)

Section Waiting.

Context (codec : Codec).

Lemma reachable_preps_grow s s' k p :
  reachable codec s s' → preps s !! k = Some p →
  ∃ p', preps s' !! k = Some p' ∧ grows p p'.
Proof.
  intros Hr Hk.
  induction Hr as [|s1 ev s2 _ (q & Hq & Hg) Hstep|s1 ev e s2 _ (q & Hq & Hg) Hstep].
  - exists p. split; [done|apply grows_refl].
  - destruct (step_preps codec s1 ev (Ok tt s2) s2 k q Hstep) as (q' & Hq' & Hg' & _);
      [by left|done|].
    exists q'. split; [done|by eapply grows_trans].
  - destruct (step_preps codec s1 ev (Throw e s2) s2 k q Hstep) as (q' & Hq' & Hg' & _);
      [right; eauto|done|].
    exists q'. split; [done|by eapply grows_trans].
Qed.

Lemma mapM_option_elem {A B} (f : A → option B) l : ∀ ys x y,
  mapM f l = Some ys → x ∈ l → f x = Some y → y ∈ ys.
Proof.
  induction l as [|x0 l IH]; intros ys x y H Hin Hx; simpl in H.
  - by apply elem_of_nil in Hin.
  - destruct (f x0) as [b|] eqn:Hx0; simpl in H; [|done].
    destruct (mapM f l) as [bs|] eqn:Hl; simpl in H; [|done].
    injection H as <-. apply elem_of_cons in Hin as [->|Hin].
    + apply elem_of_cons. left. congruence.
    + apply elem_of_cons. right. by eapply IH.
Qed.

(** A preparation that cannot get past [Promise.all] with a bundle is never
    handed to the queue. *)
Lemma stuck_not_ready s k p resop :
  cells_inv codec s → preps s !! k = Some p → p_phase p = Preparing → stuck k p →
  prepareResource_resume codec s k p ≠ Ready resop.
Proof.
  intros I Hk Hph [Hnone|(ks & Hks & Hin)].
  - unfold prepareResource_resume. by rewrite Hnone.
  - rewrite (prepareResource_resume_explicit codec s k p ks k Hks Hin); [done|].
    destruct (ci_fresh codec s I k p Hk) as (Hu & _); [congruence|].
    unfold urn_promise. by rewrite Hk, Hu.
Qed.

Lemma stuck_step s ev r s' :
  cells_inv codec s →
  (∀ k p, preps s !! k = Some p → stuck k p → p_phase p ≠ Handed) →
  step codec s ev = Some r → outcome r s' →
  ∀ k p, preps s' !! k = Some p → stuck k p → p_phase p ≠ Handed.
Proof.
  intros I IH Hstep Hout k p' Hk' Hst.
  destruct (preps s !! k) as [p|] eqn:Hk.
  - destruct (step_preps codec s ev r s' k p Hstep Hout Hk) as (q & Hq & Hg & Hph & _).
    assert (q = p') as -> by congruence.
    assert (Hst0 : stuck k p).
    { destruct Hg as (_ & _ & _ & _ & _ & _ & Hd & _). unfold stuck in *.
      by rewrite <- Hd. }
    destruct Hph as [->|(Hprep & [(Hh & resop & Hres)|(Hf & _)])].
    + by apply (IH k p).
    + by destruct (stuck_not_ready s k p resop I Hk Hprep Hst0).
    + congruence.
  - destruct (step_table codec s ev r s' Hstep Hout) as [Hlen|(q & Heq & Hph & _)].
    + apply lookup_lt_Some in Hk'. apply lookup_ge_None in Hk. lia.
    + rewrite Heq in Hk'. apply lookup_snoc_cases in Hk' as [Hk'|[_ ->]]; congruence.
Qed.

Lemma reachable_stuck mode s k p :
  reachable codec (initial mode) s →
  preps s !! k = Some p → stuck k p → p_phase p ≠ Handed.
Proof.
  intros Hr. revert k p.
  induction Hr as [|s ev s' Hr IH Hstep|s ev e s' Hr IH Hstep]; [done| |].
  - destruct (reachable_inv codec mode s Hr) as (_ & IC & _).
    eapply (stuck_step s ev (Ok tt s')); try done. by left.
  - destruct (reachable_inv codec mode s Hr) as (_ & IC & _).
    eapply (stuck_step s ev (Throw e s')); try done. right. eauto.
Qed.

(** A preparation is handed to the queue only after the URN promise of each
    explicit dependency is resolved. *)
Lemma handed_step s ev r s' :
  (∀ k p ks k', preps s !! k = Some p → p_phase p = Handed →
     p_dependsOn p = Some ks → k' ∈ ks → ∃ u, urn_promise s k' = Ready u) →
  step codec s ev = Some r → outcome r s' →
  ∀ k p ks k', preps s' !! k = Some p → p_phase p = Handed →
    p_dependsOn p = Some ks → k' ∈ ks → ∃ u, urn_promise s' k' = Ready u.
Proof.
  intros IH Hstep Hout k p' ks k' Hk' Hh Hks Hin.
  assert (Hmono : ∀ u, urn_promise s k' = Ready u → urn_promise s' k' = Ready u).
  { intros u Hu. unfold urn_promise in Hu |- *.
    destruct (preps s !! k') as [q|] eqn:Hq; [|done].
    destruct (p_urn q) as [v|] eqn:Hv; [|done].
    destruct (step_preps codec s ev r s' k' q Hstep Hout Hq) as (q' & Hq' & Hg & _).
    destruct Hg as (_ & _ & _ & _ & _ & _ & _ & _ & Hurn & _).
    by rewrite Hq', (Hurn v Hv). }
  destruct (preps s !! k) as [p|] eqn:Hk.
  - destruct (step_preps codec s ev r s' k p Hstep Hout Hk) as (q & Hq & Hg & Hph & _).
    assert (q = p') as -> by congruence.
    assert (Hks0 : p_dependsOn p = Some ks).
    { destruct Hg as (_ & _ & _ & _ & _ & _ & Hd & _). congruence. }
    destruct Hph as [Hsame|(Hprep & [(_ & resop & Hres)|(Hf & _)])].
    + destruct (IH k p ks k' Hk) as (u & Hu); try done; [congruence|]. eauto.
    + apply prepareResource_resume_inv in Hres as (ks0 & ex & _ & Hd & Hex & _).
      assert (ks0 = ks) as -> by congruence.
      destruct (mapM_Ready_all _ _ _ Hex k' Hin) as (u & Hu). eauto.
    + congruence.
  - destruct (step_table codec s ev r s' Hstep Hout) as [Hlen|(q & Heq & Hph & _)].
    + apply lookup_lt_Some in Hk'. apply lookup_ge_None in Hk. lia.
    + rewrite Heq in Hk'. apply lookup_snoc_cases in Hk' as [Hk'|[_ ->]]; congruence.
Qed.

Lemma reachable_handed mode s k p ks k' :
  reachable codec (initial mode) s →
  preps s !! k = Some p → p_phase p = Handed →
  p_dependsOn p = Some ks → k' ∈ ks → ∃ u, urn_promise s k' = Ready u.
Proof.
  intros Hr. revert k p ks k'.
  induction Hr as [|s ev s' Hr IH Hstep|s ev e s' Hr IH Hstep]; [done| |].
  - eapply (handed_step s ev (Ok tt s')); try done. by left.
  - eapply (handed_step s ev (Throw e s')); try done. right. eauto.
Qed.

End Waiting.
(** * The dependencies of a declaration *)

Section DeclaredDependencies.

Context (codec : Codec).

(** C4. A resource is declared, for a register or for a read, with the
    inputs [props] and the options [opts]; later its preparation returns.
    The explicit dependencies are the resources of [opts.dependsOn]: all
    the elements of an array, the one resource where it is no array, none
    where it is absent.  The dependency list of the bundle, which is the
    list the request carries and the remote call sends, holds no URN twice
    and holds exactly the URNs of the explicit dependencies and the URNs of
    the resources the serialized inputs refer to; listing either source in
    another order gives the same set. *)
Theorem prepareResource_dependencies next label res custom props opts s k s1 s2 p resop :
  prepareResource next label res custom props opts s = Ok k s1 →
  reachable codec s1 s2 →
  preps s2 !! k = Some p →
  prepareResource_resume codec s2 k p = Ready resop →
  ∃ ks explicitURNs implicitURNs,
    mapM (λ d, r_urn (resource s1 d))
      (match opt_dependsOn opts with
       | DependsOnMany rs => rs
       | DependsOnOne r => [r]
       | DependsOnNone => []
       end) = Some ks ∧
    mapM (urn_promise s2) ks = Ready explicitURNs ∧
    mapM (await_urn s2) (serializeResourceProperties codec props).2
      = Ready implicitURNs ∧
    NoDup (dependencies resop) ∧
    (∀ u, u ∈ dependencies resop ↔ u ∈ explicitURNs ∨ u ∈ implicitURNs) ∧
    (∀ ex' im', ex' ≡ₚ explicitURNs → im' ≡ₚ implicitURNs →
                dependency_set ex' im' ≡ₚ dependencies resop) ∧
    (∀ s0, ∃ s3 op req,
       prepared codec p resop s0 = Ok tt s3 ∧
       ops s3 = ops s0 ++ [op] ∧ rpcLog s3 = rpcLog s0 ∧
       callback_request (o_callback op) = Some req ∧
       request_dependencies req = dependencies resop ∧
       ∀ i s4, ∃ s5, resourceOp_start i op s4 = Ok tt s5 ∧
                     rpcLog s5 = rpcLog s4 ++ [(i, req)]).
Proof.
  intros Hcall Hr Hk H.
  assert (Hnew : ∃ q, preps s1 !! k = Some q ∧ p_props q = props ∧
            p_dependsOn q = mapM (λ d, r_urn (resource s1 d))
                              (dependsOn_list (opt_dependsOn opts))).
  { unfold prepareResource in Hcall. unfold_js. simpl in Hcall.
    injection Hcall as <- <-.
    eexists. split; [simpl; by apply list_lookup_middle|]. by split. }
  destruct Hnew as (q & Hq & Hprops0 & Hdeps0).
  destruct (reachable_preps_grow codec s1 s2 k q Hr Hq) as (p' & Hp' & Hg).
  rewrite Hk in Hp'. injection Hp' as <-.
  destruct Hg as (_ & _ & _ & _ & Hprops & _ & Hdeps & _).
  rewrite Hprops0 in Hprops. rewrite Hdeps0 in Hdeps.
  apply prepareResource_resume_ready in H
    as (ks & ex & im & Hks & Hex & Him & Hset & _).
  rewrite Hprops in Him.
  exists ks, ex, im. split_and!; try done.
  - rewrite <- Hks, Hdeps. unfold dependsOn_list. by destruct (opt_dependsOn opts).
  - rewrite Hset. apply dependency_set_NoDup.
  - intros u. rewrite Hset. apply dependency_set_elem.
  - intros ex' im' Hpe Hpi. rewrite Hset.
    apply NoDup_Permutation; [apply dependency_set_NoDup..|].
    intros u. rewrite !dependency_set_elem. by rewrite Hpe, Hpi.
  - intros s0. unfold prepared.
    destruct (p_kind p) as [t name id|t name]; rewrite runAsyncResourceOp_run;
      (eexists _, _, _; split_and!; [reflexivity..|]);
      intros i s4; unfold resourceOp_start, bind; simpl;
      destruct (serialize s0); simpl; eexists; split; reflexivity.
Qed.

End DeclaredDependencies.

Lemma prepareResource_dependencies_witness :
  (∃ p resop,
     preps singleState !! 1 = Some p ∧
     prepareResource_resume toyCodec singleState 1 p = Ready resop ∧
     NoDup (dependencies resop) ∧
     ∀ u, u ∈ dependencies resop ↔ u ∈ [VStr "urn:x"] ∨ u ∈ []) ∧
  preps depState !! 2 = Some depPrep ∧
  prepareResource_resume toyCodec depState 2 depPrep = Ready depBundle ∧
  NoDup (dependencies depBundle) ∧
  ∀ u, u ∈ dependencies depBundle ↔
       u ∈ [VStr "urn:b"; VStr "urn:b"] ∨ u ∈ [VStr "urn:b"; VStr "urn:c"].
Proof.
  split.
  - edestruct (prepareResource_dependencies toyCodec (ThenRegister "t" "a")
                 "resource:a[t]" 1 false ∅ (dependingOn (DependsOnOne 0))
                 aloneState 1 singleState singleState)
      as (ks & ex & im & Hks & Hex & Him & Hnd & Hel & _).
    + vm_compute. reflexivity.
    + apply reach_start.
    + vm_compute. reflexivity.
    + vm_compute. reflexivity.
    + eexists _, _. split; [vm_compute; reflexivity|].
      split; [vm_compute; reflexivity|]. split; [exact Hnd|].
      assert (ks = [0]) as -> by (vm_compute in Hks; congruence).
      assert (ex = [VStr "urn:x"]) as -> by (vm_compute in Hex; congruence).
      assert (im = []) as -> by (vm_compute in Him; congruence).
      exact Hel.
  - assert (Hr : prepareResource_resume toyCodec depState 2 depPrep = Ready depBundle)
      by (vm_compute; reflexivity).
    split; [vm_compute; reflexivity|]. split; [exact Hr|].
    destruct (prepareResource_dependencies toyCodec (ThenRegister "t" "a")
                "resource:a[t]" 0 true
                (<["p" := VObj 2]> (<["q" := VObj 1]> (<["r" := VNum 7]> ∅)))
                (dependingOn (DependsOnMany [1; 1]))
                depStart 2 depState depState depPrep depBundle)
      as (ks & ex & im & Hks & Hex & Him & Hnd & Hel & _).
    + vm_compute. reflexivity.
    + apply reach_start.
    + vm_compute. reflexivity.
    + exact Hr.
    + split; [exact Hnd|].
      assert (ks = [0; 0]) as -> by (vm_compute in Hks; congruence).
      assert (ex = [VStr "urn:b"; VStr "urn:b"]) as -> by (vm_compute in Hex; congruence).
      assert (im = [VStr "urn:b"; VStr "urn:c"]) as -> by (vm_compute in Him; congruence).
      exact Hel.
Defined.

(** * What a request is built from *)

Section Requests.

Context (codec : Codec).

Lemma built_grows p p' resop cb :
  grows p p' → built codec p resop cb → built codec p' resop cb.
Proof.
  intros (Hk & _ & Hr & Hc & Hp & Ho & _). unfold built.
  by rewrite Hk, Hr, Hc, Hp, Ho.
Qed.

Lemma requests_built_step s ev r s' :
  requests_built codec s →
  step codec s ev = Some r → outcome r s' → requests_built codec s'.
Proof.
  intros IH Hstep Hout i op' resop Hi' Hr.
  pose proof (step_queue codec s ev r s' Hstep Hout) as Hq.
  assert (Hold : ∀ op, ops s !! i = Some op → o_callback op' = o_callback op →
            ∃ p, preps s' !! resolveURN resop = Some p ∧
                 built codec p resop (o_callback op') ∧
                 serializedProps resop = (serializeResourceProperties codec (p_props p)).1).
  { intros op Hi Hcb. rewrite Hcb in Hr |- *.
    destruct (IH i op resop Hi Hr) as (p & Hp & Hb & Hs).
    destruct (step_preps codec s ev r s' _ p Hstep Hout Hp) as (p' & Hp' & Hg & _).
    exists p'. split_and!; [done|by eapply built_grows|].
    destruct Hg as (_ & _ & _ & _ & Hprops & _). by rewrite Hprops. }
  destruct Hq as [Ho _|opn Ho _ _ Hnr _|opn k p rs req Ho _ _ Hk _ Hres Hb Hrs _ _
                 |j opj ph log Hj Hps Ho _]; rewrite Ho in Hi'.
  - by apply (Hold op').
  - apply lookup_snoc_cases in Hi' as [Hi'|[_ ->]]; [by apply (Hold op')|congruence].
  - apply lookup_snoc_cases in Hi' as [Hi'|[_ ->]]; [by apply (Hold op')|].
    assert (rs = resop) as -> by congruence.
    apply prepareResource_resume_ready in Hres
      as (_ & _ & _ & _ & _ & _ & _ & Hser & Hu & _).
    rewrite Hu.
    destruct (step_preps codec s ev r s' k p Hstep Hout Hk) as (p' & Hp' & Hg & _).
    exists p'. split_and!; [done|by eapply built_grows|].
    destruct Hg as (_ & _ & _ & _ & Hprops & _). by rewrite Hprops.
  - destruct (lookup_set_phase_Some _ _ _ _ _ _ Hj Hi') as (op0 & Hi0 & _ & _ & Hcb & _).
    by apply (Hold op0).
Qed.

Lemma reachable_requests_built mode s :
  reachable codec (initial mode) s → requests_built codec s.
Proof.
  intros Hr.
  induction Hr as [|s ev s' Hr IH Hstep|s ev e s' Hr IH Hstep].
  - intros i op resop Hi. done.
  - eapply (requests_built_step s ev (Ok tt s')); try done. by left.
  - eapply (requests_built_step s ev (Throw e s')); try done. right. eauto.
Qed.

End Requests.

(** * The output properties *)

Section Outputs.

Context (codec : Codec).

Lemma OutputsResolved_enabled s i keys r :
  step codec s (OutputsResolved i keys) = Some r →
  ∃ op resp resop, ops s !! i = Some op ∧ o_phase op = Resolving resp ∧
                   callback_resop (o_callback op) = Some resop.
Proof.
  simpl. intros Hstep.
  destruct (ops s !! i) as [op|] eqn:Hi; [|done]. simpl in Hstep.
  destruct (o_phase op) as [| | |resp| | |] eqn:Hph; try done.
  destruct (o_callback op) as [? ? ? ? rs ? ?|? ? ? ? rs ?|? ?] eqn:Hcb; [| |done];
    exists op, resp, rs; by rewrite Hph, Hcb.
Qed.

(** What the end of [resolveOutputs] does, for a listing [keys] of the keys
    of the inputs: when it returns, the property promises of the resource
    are resolved with the merged bag and the operation is fulfilled; when it
    throws, nothing is resolved and the operation is rejected with what it
    threw, which reaches the top level; either way the token is given back. *)
Lemma OutputsResolved_effect s i keys op resp resop :
  cells_inv codec s →
  ops s !! i = Some op → o_phase op = Resolving resp →
  callback_resop (o_callback op) = Some resop →
  ∃ p,
    preps s !! resolveURN resop = Some p ∧
    if bool_decide (Object_keys (p_props p) keys) then
      ∃ s',
        step codec s (OutputsResolved i keys) = Some (Ok tt s') ∧
        keepAlive s' = pred (keepAlive s) ∧
        rpcLog s' = rpcLog s ∧ errorLog s' = errorLog s ∧
        resourceChain s' = resourceChain s ∧
        match resolveOutputs_allProps codec (p_props p) (getProperties resp) keys with
        | inr allProps =>
            preps s' = <[resolveURN resop :=
                           set_p_outputs (resolve_once (p_outputs p) allProps) p]>
                         (preps s) ∧
            ops s' = <[i := set_phase Fulfilled op]> (ops s) ∧
            unhandled s' = unhandled s
        | inl e =>
            preps s' = preps s ∧
            ops s' = <[i := set_phase (Failed resp e) op]> (ops s) ∧
            unhandled s' = unhandled s ++ [e]
        end
    else step codec s (OutputsResolved i keys) = None.
Proof.
  intros IC Hi Hph Hres.
  destruct (owner_bundle codec s i op resop IC Hi Hres) as (p & Hp & Hrs & _ & _ & Hcase).
  exists p. split; [done|].
  simpl. rewrite Hi. simpl. rewrite Hph.
  destruct (o_callback op)
    as [res t name props rs resolvedID req0|res t name props rs req0|res outputs];
    [| |done]; simpl in Hres; injection Hres as ->.
  - destruct Hcase as (_ & _ & _ & -> & _).
    destruct (bool_decide (Object_keys (p_props p) keys)); [|done].
    unfold resolveOutputs_return, resolveOutputs. rewrite Hrs.
    destruct (resolveOutputs_allProps codec (p_props p) (getProperties resp) keys)
      as [e|allProps]; unfold_js; simpl.
    + eexists. split; [reflexivity|]. simpl. split_and!; try done.
      by rewrite (alter_lookup_insert _ _ _ _ Hi).
    + eexists. split; [reflexivity|]. simpl. split_and!; try done.
      * by rewrite (alter_lookup_insert _ _ _ _ Hp).
      * by rewrite (alter_lookup_insert _ _ _ _ Hi).
  - destruct Hcase as (_ & -> & _).
    destruct (bool_decide (Object_keys (p_props p) keys)); [|done].
    unfold resolveOutputs_return, resolveOutputs. rewrite Hrs.
    destruct (resolveOutputs_allProps codec (p_props p) (getProperties resp) keys)
      as [e|allProps]; unfold_js; simpl.
    + eexists. split; [reflexivity|]. simpl. split_and!; try done.
      by rewrite (alter_lookup_insert _ _ _ _ Hi).
    + eexists. split; [reflexivity|]. simpl. split_and!; try done.
      * by rewrite (alter_lookup_insert _ _ _ _ Hp).
      * by rewrite (alter_lookup_insert _ _ _ _ Hi).
Qed.

(** What a successful answer to a read or a registration resolves. *)
Lemma RpcReturn_effect s i op req resp resop :
  cells_inv codec s →
  ops s !! i = Some op → o_phase op = InFlight req →
  callback_resop (o_callback op) = Some resop →
  ∃ s' p p',
    step codec s (RpcReturn i None resp) = Some (Ok tt s') ∧
    preps s !! resolveURN resop = Some p ∧
    preps s' !! resolveURN resop = Some p' ∧
    p_custom p' = p_custom p ∧ p_urn p' = Some (VStr (getUrn resp)) ∧
    (p_custom p = true → is_Some (p_idValue p') ∧ is_Some (p_idApply p')).
Proof.
  intros IC Hi Hph Hres.
  destruct (owner_bundle codec s i op resop IC Hi Hres)
    as (p & Hp & Hrs & Hid & Hpend & Hcase).
  destruct Hpend as (Hu & Hiv & Hia); [by rewrite Hph|].
  simpl. rewrite Hi. simpl. rewrite Hph.
  destruct (o_callback op)
    as [res t name props rs resolvedID req0|res t name props rs req0|res outputs];
    [| |done]; simpl in Hres; injection Hres as ->.
  - destruct Hcase as (Hcus & _). rewrite Hcus in Hid.
    unfold readResource_callback. rewrite Hid. unfold_js. simpl.
    eexists _, p, _. split; [reflexivity|]. simpl.
    rewrite list_alter_alter_eq, list_lookup_alter_eq, Hp. simpl.
    rewrite Hu, Hiv, Hia. split_and!; eauto.
  - unfold registerResource_callback. rewrite Hid. unfold_js.
    destruct (p_custom p) eqn:Hcus; simpl.
    + eexists _, p, _. split; [reflexivity|]. simpl.
      rewrite list_alter_alter_eq, list_lookup_alter_eq, Hp. simpl.
      rewrite Hu, Hiv, Hia. split_and!; eauto.
    + eexists _, p, _. split; [reflexivity|]. simpl.
      rewrite list_lookup_alter_eq, Hp. simpl.
      rewrite Hu. split_and!; try done. intros Hc. congruence.
Qed.

(** An operation is answered by the successful return of its remote call,
    and by nothing else. *)
Lemma phase_step_answer s ev j op ph log :
  phase_step codec s ev j op ph log →
  answered ph = true → answered (o_phase op) = false →
  callback_resop (o_callback op) ≠ None →
  ∃ req resp, ev = RpcReturn j None resp ∧ o_phase op = InFlight req.
Proof.
  intros [req _ Hph _ Hreq|res outputs k _ Hph _ _ _|res outputs e _ Hph _ _ _
         |res outputs k urn _ Hph Hcb Hu|req resp Hev Hph _|req resp _ Hph Hnone
         |req e err resp _ Hph|resp keys _ Hph|resp keys e _ Hph] Ha Hb Hr; try done.
  - by exists req, resp.
  - by rewrite Hph in Hb.
  - by rewrite Hph in Hb.
Qed.

Lemma initial_outputs_inv mode : outputs_inv (initial mode).
Proof. split; simpl; done. Qed.

Lemma outputs_inv_step s ev r s' :
  cells_inv codec s → outputs_inv s →
  step codec s ev = Some r → outcome r s' → outputs_inv s'.
Proof.
  intros IC [O1 O2] Hstep Hout.
  pose proof (step_queue codec s ev r s' Hstep Hout) as Hq.
  split.
  - intros k p' Hk' Hsome.
    destruct (preps s !! k) as [p|] eqn:Hk.
    + assert (Hold : is_Some (p_outputs p) →
                ∃ i op resop, ops s' !! i = Some op ∧
                  callback_resop (o_callback op) = Some resop ∧
                  resolveURN resop = k ∧ o_phase op = Fulfilled).
      { intros Hs. destruct (O1 k p Hk Hs) as (i & op & resop & Hi & Hr & Hu & Hph).
        destruct (queue_step_keeps codec s ev s' i op Hq Hi) as (op' & Hi' & _ & _ & Hsame).
        rewrite Hsame in Hi' by (by rewrite Hph). by exists i, op, resop. }
      assert (Hev : (∃ i keys, ev = OutputsResolved i keys) ∨
                    (∀ i keys, ev ≠ OutputsResolved i keys)).
      { destruct ev; first [by right|left; eauto]. }
      destruct Hev as [(i & keys & ->)|Hne].
      * destruct (OutputsResolved_enabled s i keys r Hstep)
          as (op & resp & resop & Hi & Hph & Hr).
        destruct (OutputsResolved_effect s i keys op resp resop IC Hi Hph Hr)
          as (q & Hq' & Heff).
        destruct (bool_decide (Object_keys (p_props q) keys)); [|congruence].
        destruct Heff as (s'' & Hstep' & _ & _ & _ & _ & Heff).
        rewrite Hstep' in Hstep. injection Hstep as <-.
        apply outcome_Ok in Hout as ->.
        destruct (resolveOutputs_allProps codec (p_props q) (getProperties resp) keys)
          as [e|allProps]; destruct Heff as (Hps & Hos & _).
        { rewrite Hps in Hk'. assert (p' = p) as -> by congruence. by apply Hold. }
        destruct (decide (resolveURN resop = k)) as [Hu|Hu].
        -- exists i, (set_phase Fulfilled op), resop. rewrite Hos.
           rewrite (lookup_set_phase _ _ _ _ _ Hi), decide_True by done.
           by split_and!.
        -- rewrite Hps, list_lookup_insert_ne in Hk' by done.
           assert (p' = p) as -> by congruence. by apply Hold.
      * destruct (step_preps codec s ev r s' k p Hstep Hout Hk) as (q & Hq' & _ & _ & Ho).
        assert (q = p') as -> by congruence.
        apply Hold. by rewrite <- Ho.
    + destruct (step_table codec s ev r s' Hstep Hout) as [Hlen|(q & Heq & _ & _ & Ho & _)].
      * apply lookup_lt_Some in Hk'. apply lookup_ge_None in Hk. lia.
      * rewrite Heq in Hk'. apply lookup_snoc_cases in Hk' as [Hk'|[_ ->]]; [congruence|].
        rewrite Ho in Hsome. by destruct Hsome.
  - intros i op' resop p' Hi' Hr Ha Hp'.
    destruct (queue_step_back codec s ev s' i op' Hq Hi') as [(op & Hi & Hcb)|(_ & _ & Hw)].
    2:{ by rewrite Hw in Ha. }
    rewrite Hcb in Hr.
    destruct (ci_owner codec s IC i op resop Hi Hr) as (p & Hp & _).
    destruct (step_preps codec s ev r s' _ p Hstep Hout Hp) as (q & Hq' & Hg & _).
    assert (q = p') as -> by congruence.
    destruct Hg as (_ & _ & _ & Hcus & _ & _ & _ & _ & Hurn & Hidv & Hida & _).
    destruct (answered (o_phase op)) eqn:Hans.
    + destruct (O2 i op resop p Hi Hr Hans Hp) as ([u Hu] & Hid).
      split; [rewrite (Hurn u Hu); eauto|].
      rewrite Hcus. intros Hc. destruct (Hid Hc) as ([v Hv] & [a Ha']).
      rewrite (Hidv v Hv), (Hida a Ha'). eauto.
    + destruct Hq as [Ho _|opn Ho _ _ _ _|opn k0 p0 rs rq Ho _ _ _ _ _ _ _ _ _
                     |j opj ph log Hj Hps Ho _].
      * rewrite Ho in Hi'. assert (op' = op) as -> by congruence. congruence.
      * rewrite Ho, (lookup_app_l_Some _ _ _ _ Hi) in Hi'.
        assert (op' = op) as -> by congruence. congruence.
      * rewrite Ho, (lookup_app_l_Some _ _ _ _ Hi) in Hi'.
        assert (op' = op) as -> by congruence. congruence.
      * rewrite Ho, (lookup_set_phase _ _ _ _ _ Hj) in Hi'.
        destruct (decide (j = i)) as [->|Hne].
        2:{ assert (op' = op) as -> by congruence. congruence. }
        assert (opj = op) as -> by congruence.
        injection Hi' as <-. simpl in Ha.
        destruct (phase_step_answer s ev i op ph log Hps Ha Hans) as (req & resp & -> & Hph).
        { by rewrite Hr. }
        destruct (RpcReturn_effect s i op req resp resop IC Hi Hph Hr)
          as (s'' & q & q' & Hstep' & Hq0 & Hq1 & Hc & Hu & Hid).
        rewrite Hstep' in Hstep. injection Hstep as <-.
        apply outcome_Ok in Hout as ->.
        assert (q = p) as -> by congruence.
        assert (q' = p') as -> by congruence.
        split; [eauto|]. rewrite Hc. exact Hid.
Qed.

Lemma reachable_outputs_inv mode s :
  reachable codec (initial mode) s → outputs_inv s.
Proof.
  intros Hr.
  induction Hr as [|s ev s' Hr IH Hstep|s ev e s' Hr IH Hstep].
  - apply initial_outputs_inv.
  - destruct (reachable_inv codec mode s Hr) as (_ & IC & _).
    eapply (outputs_inv_step s ev (Ok tt s')); try done. by left.
  - destruct (reachable_inv codec mode s Hr) as (_ & IC & _).
    eapply (outputs_inv_step s ev (Throw e s')); try done. right. eauto.
Qed.

End Outputs.
(** * The tokens of the operations that end *)

Section Tokens.

Context (codec : Codec).

(** The request of a remote call in flight is the request of its callback. *)
Lemma inflight_step s ev r s' :
  (∀ i op req, ops s !! i = Some op → o_phase op = InFlight req →
               request_of codec (o_callback op) req) →
  step codec s ev = Some r → outcome r s' →
  ∀ i op req, ops s' !! i = Some op → o_phase op = InFlight req →
              request_of codec (o_callback op) req.
Proof.
  intros IH Hstep Hout i op req Hi Hph.
  destruct (step_queue codec s ev r s' Hstep Hout)
    as [Ho _|opn Ho _ Hw _ _|opn k p resop rq Ho _ Hw _ _ _ _ _ _ _
       |j opj ph log Hj Hps Ho _]; rewrite Ho in Hi.
  - eauto.
  - apply lookup_app_Some in Hi as [Hi|[_ Hi]]; [eauto|].
    apply list_lookup_singleton_Some in Hi as [_ <-]. congruence.
  - apply lookup_app_Some in Hi as [Hi|[_ Hi]]; [eauto|].
    apply list_lookup_singleton_Some in Hi as [_ <-]. congruence.
  - destruct (decide (i = j)) as [->|Hne].
    + rewrite list_lookup_insert_eq in Hi by (by eapply lookup_lt_Some).
      injection Hi as <-. simpl in *. subst ph.
      inversion Hps; subst;
        first [ by apply callback_request_of
              | match goal with
                | H : o_callback _ = CbOutputs _ _ |- _ => rewrite H
                end; simpl; by eexists ].
    + rewrite list_lookup_insert_ne in Hi by done. eauto.
Qed.

Lemma reachable_inflight mode s :
  reachable codec (initial mode) s →
  ∀ i op req, ops s !! i = Some op → o_phase op = InFlight req →
              request_of codec (o_callback op) req.
Proof.
  induction 1 as [|s ev s' _ IH Hstep|s ev e s' _ IH Hstep].
  - intros i op req Hi. simpl in Hi. by rewrite lookup_nil in Hi.
  - eapply (inflight_step s ev (Ok tt s')); [done|done|by left].
  - eapply (inflight_step s ev (Throw e s')); [done|done|right; eauto].
Qed.

(** C8. Every operation handed to [runAsyncResourceOp], serial or not, takes
    a keep-alive token in the call itself, while the operation still waits
    to start, and the tokens out are at all times exactly the operations not
    yet settled.  Every way an operation ends gives exactly one token back
    and lets the chain go on: the remote call fails (with any error for a
    read, with any error but the unavailable endpoint otherwise) and the
    operation is rejected, its error handed to the top level; the remote
    call of an attach-outputs succeeds; [resolveOutputs] returns, or throws
    and its exception is handed to the top level; an attach-outputs finds
    no [res.urn] as it starts.  No transition settles an operation in
    another way, a settled operation is never touched again, and the error
    of a rejected operation stays among the unhandled rejections. *)
Theorem keep_alive_tokens mode s :
  reachable codec (initial mode) s →
  keepAlive s = outstanding (ops s) ∧
  (∀ label cb serial, ∃ s1 op,
     runAsyncResourceOp label cb serial s = Ok tt s1 ∧
     ops s1 = ops s ++ [op] ∧ o_phase op = Waiting ∧
     keepAlive s1 = S (keepAlive s)) ∧
  (∀ ev s' i op op',
     step codec s ev = Some (Ok tt s') →
     ops s !! i = Some op → ops s' !! i = Some op' →
     (settled (o_phase op) = true → op' = op) ∧
     (settled (o_phase op) = false → settled (o_phase op') = true →
      keepAlive s = S (keepAlive s') ∧
      chain_settled s' (ChainFinal i) = true ∧
      unhandled s' = unhandled s ++ failure (o_phase op'))) ∧
  (∀ i op e, ops s !! i = Some op → e ∈ failure (o_phase op) → e ∈ unhandled s) ∧
  (∀ i op req err resp,
     ops s !! i = Some op → o_phase op = InFlight req →
     match o_callback op with
     | CbRead _ _ _ _ _ _ _ => True
     | _ => e_code err ≠ Some UNAVAILABLE
     end →
     ∃ s' e,
       step codec s (RpcReturn i (Some err) resp) = Some (Ok tt s') ∧
       ops s' = <[i := set_phase (Rejected e) op]> (ops s) ∧
       keepAlive s = S (keepAlive s') ∧
       chain_settled s' (ChainFinal i) = true ∧
       unhandled s' = unhandled s ++ [e]) ∧
  (∀ i op req resp,
     ops s !! i = Some op → o_phase op = InFlight req →
     callback_resop (o_callback op) = None →
     ∃ s',
       step codec s (RpcReturn i None resp) = Some (Ok tt s') ∧
       ops s' = <[i := set_phase Fulfilled op]> (ops s) ∧
       keepAlive s = S (keepAlive s') ∧
       chain_settled s' (ChainFinal i) = true ∧
       unhandled s' = unhandled s) ∧
  (∀ i op resp resop keys,
     ops s !! i = Some op → o_phase op = Resolving resp →
     callback_resop (o_callback op) = Some resop →
     ∃ p, preps s !! resolveURN resop = Some p ∧
          (Object_keys (p_props p) keys →
           ∃ s' ph,
             step codec s (OutputsResolved i keys) = Some (Ok tt s') ∧
             ops s' = <[i := set_phase ph op]> (ops s) ∧
             ph = match resolveOutputs_allProps codec (p_props p)
                          (getProperties resp) keys with
                  | inr _ => Fulfilled
                  | inl e => Failed resp e
                  end ∧
             keepAlive s = S (keepAlive s') ∧
             chain_settled s' (ChainFinal i) = true ∧
             unhandled s' = unhandled s ++ failure ph)) ∧
  (∀ i op res outputs,
     ops s !! i = Some op → o_phase op = Waiting →
     chain_settled s (o_chain op) = true →
     o_callback op = CbOutputs res outputs → r_urn (resource s res) = None →
     ∃ s' e,
       step codec s (ChainTurn i) = Some (Ok tt s') ∧
       ops s' = <[i := set_phase (Rejected e) op]> (ops s) ∧
       keepAlive s = S (keepAlive s') ∧
       chain_settled s' (ChainFinal i) = true ∧
       unhandled s' = unhandled s ++ [e]).
Proof.
  intros Hr. destruct (reachable_inv codec mode s Hr) as (IQ & IC & Hm).
  assert (Hpos : ∀ i op, ops s !! i = Some op → settled (o_phase op) = false →
                         keepAlive s = S (pred (keepAlive s))).
  { intros i op Hi Hs. pose proof (outstanding_pos _ _ _ Hi Hs) as Hp.
    rewrite <- (qi_tokens s IQ) in Hp. lia. }
  assert (Hfin : ∀ i op ph, ops s !! i = Some op → settled ph = true →
            match <[i := set_phase ph op]> (ops s) !! i with
            | Some op' => settled (o_phase op')
            | None => false
            end = true).
  { intros i op ph Hi Hs.
    rewrite list_lookup_insert_eq by (by eapply lookup_lt_Some). done. }
  split_and!.
  - apply (qi_tokens s IQ).
  - intros label cb serial. rewrite runAsyncResourceOp_run. simpl.
    eexists _, _. split_and!; reflexivity.
  - intros ev s' i op op' Hstep Hi Hi'.
    destruct (step_change codec s ev (Ok tt s') s' IC Hstep) as [Hch _]; [by left|].
    split.
    + intros Hs.
      destruct (change_keeps_ops codec s s' i op Hch Hi) as (op'' & Hi'' & _ & _ & _ & Heq).
      rewrite <- (Heq Hs). congruence.
    + intros Hs Hs'.
      destruct (change_settles codec s s' i op op' Hch Hi Hs Hi' Hs') as [Hk Hu].
      pose proof (Hpos i op Hi Hs).
      split_and!; [lia| |done]. simpl. by rewrite Hi'.
  - intros i op e. apply (qi_reported s IQ).
  - intros i op req err resp Hi Hph Hpark.
    pose proof (Hpos i op Hi ltac:(by rewrite Hph)) as Hk.
    pose proof (reachable_inflight mode s Hr i op req Hi Hph) as Hreq.
    simpl. rewrite Hi. simpl. rewrite Hph.
    destruct (o_callback op)
      as [res t name props rs resolvedID req0|res t name props rs req0|res outputs];
      simpl in Hreq.
    + unfold_js. eexists _, _. split; [reflexivity|]. simpl.
      rewrite (alter_lookup_insert _ _ _ _ Hi).
      split_and!; [reflexivity|done|by eapply Hfin|reflexivity].
    + unfold_js. rewrite bool_decide_eq_false_2 by done.
      eexists _, _. split; [reflexivity|]. simpl.
      rewrite (alter_lookup_insert _ _ _ _ Hi).
      split_and!; [reflexivity|done|by eapply Hfin|reflexivity].
    + destruct Hreq as (urn & ->).
      unfold_js. rewrite bool_decide_eq_false_2 by done.
      eexists _, _. split; [reflexivity|]. simpl.
      rewrite (alter_lookup_insert _ _ _ _ Hi).
      split_and!; [reflexivity|done|by eapply Hfin|reflexivity].
  - intros i op req resp Hi Hph Hres.
    pose proof (Hpos i op Hi ltac:(by rewrite Hph)) as Hk.
    pose proof (reachable_inflight mode s Hr i op req Hi Hph) as Hreq.
    simpl. rewrite Hi. simpl. rewrite Hph.
    destruct (o_callback op)
      as [res t name props rs resolvedID req0|res t name props rs req0|res outputs];
      [done|done|]. simpl in Hreq. destruct Hreq as (urn & ->).
    unfold_js. eexists. split; [reflexivity|]. simpl.
    rewrite (alter_lookup_insert _ _ _ _ Hi).
    split_and!; [reflexivity|done|by eapply Hfin|reflexivity].
  - intros i op resp resop keys Hi Hph Hres.
    pose proof (Hpos i op Hi ltac:(by rewrite Hph)) as Hk.
    destruct (OutputsResolved_effect codec s i keys op resp resop IC Hi Hph Hres)
      as (p & Hp & Heff).
    exists p. split; [done|]. intros Hkeys.
    rewrite bool_decide_eq_true_2 in Heff by done.
    destruct Heff as (s' & Hstep & Hk' & _ & _ & _ & Heff).
    exists s', (match resolveOutputs_allProps codec (p_props p)
                       (getProperties resp) keys with
                | inr _ => Fulfilled
                | inl e => Failed resp e
                end).
    split; [done|].
    destruct (resolveOutputs_allProps codec (p_props p) (getProperties resp) keys)
      as [e|allProps]; destruct Heff as (_ & Hos & Hun).
    + split_and!; [done|reflexivity|lia| |done].
      simpl. rewrite Hos. by eapply Hfin.
    + split_and!; [done|reflexivity|lia| |by rewrite app_nil_r].
      simpl. rewrite Hos. by eapply Hfin.
  - intros i op res outputs Hi Hph Hc Hcb Hurn.
    pose proof (Hpos i op Hi ltac:(by rewrite Hph)) as Hk.
    simpl. rewrite Hi. simpl. rewrite Hph, Hc.
    unfold resourceOp_start. rewrite Hcb. unfold_js.
    unfold resource in Hurn |- *. simpl in Hurn.
    destruct (o_serial op); simpl; rewrite Hurn; simpl.
    all: eexists _, _; split; [reflexivity|]; simpl.
    all: rewrite (alter_lookup_insert _ _ _ _ Hi).
    all: split_and!; [reflexivity|done|by eapply Hfin|reflexivity].
Qed.

End Tokens.

Lemma shadowState_reachable : reachable toyCodec (initial true) shadowState.
Proof.
  apply (exec_reachable toyCodec (initial true) shadowTrace (initial true));
    [apply reach_start|vm_compute; reflexivity].
Qed.

Lemma keep_alive_tokens_witness :
  keepAlive registerState = outstanding (ops registerState) ∧
  keepAlive registerState = 1 ∧
  (∃ s' e,
     step toyCodec registerState (RpcReturn 0 (Some boom) (answer "" VUndefined None))
       = Some (Ok tt s') ∧
     keepAlive s' = 0 ∧ unhandled s' = unhandled registerState ++ [e]) ∧
  (∃ s',
     step toyCodec shadowState (OutputsResolved 0 ["a"]) = Some (Ok tt s') ∧
     keepAlive s' = 0 ∧
     unhandled s' = unhandled shadowState ++
       [TypeError "allProps.hasOwnProperty is not a function"]).
Proof.
  destruct (keep_alive_tokens toyCodec true registerState registerState_reachable)
    as (Htok & _ & _ & _ & Hfail & _).
  destruct (keep_alive_tokens toyCodec true shadowState shadowState_reachable)
    as (_ & _ & _ & _ & _ & _ & Hend & _).
  split_and!; [exact Htok|vm_compute; reflexivity| |].
  - edestruct (Hfail 0) with (err := boom) (resp := answer "" VUndefined None)
      as (s' & e & Hs & _ & Hk & _ & Hu).
    + vm_compute. reflexivity.
    + vm_compute. reflexivity.
    + vm_compute. discriminate.
    + exists s', e. split_and!; [exact Hs| |exact Hu].
      vm_compute in Hk. injection Hk as Hk. symmetry. exact Hk.
  - edestruct (Hend 0) with (keys := ["a"]) as (p & Hp & Hrun).
    + vm_compute. reflexivity.
    + vm_compute. reflexivity.
    + vm_compute. reflexivity.
    + vm_compute in Hp. injection Hp as <-.
      destruct Hrun as (s' & ph & Hs & _ & Hph & Hk & _ & Hu).
      * apply (bool_decide_unpack _). vm_compute. exact I.
      * vm_compute in Hph. subst ph.
        exists s'. split_and!; [exact Hs| |exact Hu].
        vm_compute in Hk. injection Hk as Hk. symmetry. exact Hk.
Defined.

(** * Further properties of the three operations *)

Section Calls.

Context (codec : Codec).

(** Every URN that a remote call names (the dependencies and the parent of a
    read or a registration, the resource of an attach-outputs) was returned
    by the engine before the call left: it is held by the URN promise of an
    operation that is answered and whose own call stands earlier in the
    log. *)
Theorem request_urns_answered_earlier mode s l1 j req l2 u :
  reachable codec (initial mode) s →
  rpcLog s = l1 ++ (j, req) :: l2 → u ∈ request_urns req →
  ∃ i, i ∈ l1.*1 ∧ urn_answered s i u.
Proof.
  intros Hr. apply (li_order codec s (reachable_log_inv codec mode s Hr)).
Qed.

(** No operation sends its remote call twice, whatever the answer: the log
    holds at most one call per operation, the call in it is the request of
    that operation, an operation whose call has left is in the log, and one
    that still waits is not. *)
Theorem one_call_per_operation mode s :
  reachable codec (initial mode) s →
  NoDup (rpcLog s).*1 ∧
  (∀ j req, (j, req) ∈ rpcLog s →
     ∃ op, ops s !! j = Some op ∧ unissued (o_phase op) = false ∧
           request_of codec (o_callback op) req) ∧
  (∀ i op, ops s !! i = Some op → issued (o_phase op) = true → i ∈ (rpcLog s).*1).
Proof.
  intros Hr. destruct (reachable_log_inv codec mode s Hr) as [_ L2 L3 L4 L5 _].
  split_and!; [done| |done].
  intros j req Hin. destruct (L5 j req Hin) as (op & Hop & Hreq).
  exists op. split_and!; try done.
  destruct (unissued (o_phase op)) eqn:Hun; [|done].
  destruct (L3 j op Hop Hun). by eapply elem_of_fst_log.
Qed.

(** The request that is sent for a read or a registration is the one built
    from the call: type and name, the serialized [opts.id] of a read, the
    custom flag and [opts.protect] of a registration, and the serialized
    inputs, next to the parent, the provider reference and the dependencies
    of the bundle. *)
Theorem sent_request_is_built_from_call mode s j req op resop :
  reachable codec (initial mode) s →
  (j, req) ∈ rpcLog s → ops s !! j = Some op →
  callback_resop (o_callback op) = Some resop →
  ∃ p, preps s !! resolveURN resop = Some p ∧
       req = match p_kind p with
             | ThenRead t name id =>
                 ReadResourceRequest t name (serializeProperty codec id)
                   (parentURN resop) (providerRef resop)
                   (serializeResourceProperties codec (p_props p)).1
                   (dependencies resop)
             | ThenRegister t name =>
                 RegisterResourceRequest t name (parentURN resop) (p_custom p)
                   (serializeResourceProperties codec (p_props p)).1
                   (opt_protect (p_opts p)) (providerRef resop) (dependencies resop)
             end.
Proof.
  intros Hr Hin Hop Hres.
  destruct (reachable_log_inv codec mode s Hr) as [_ _ _ _ L5 _].
  destruct (L5 j req Hin) as (op' & Hop' & Hreq).
  assert (op' = op) as -> by congruence.
  destruct (reachable_requests_built codec mode s Hr j op resop Hop Hres)
    as (p & Hp & Hb & Hs).
  exists p. split; [done|]. unfold built in Hb. rewrite <- Hs.
  destruct (p_kind p); rewrite Hb in Hreq; exact Hreq.
Qed.

Lemma mapM_option_None {A B} (f : A → option B) l x :
  x ∈ l → f x = None → mapM f l = None.
Proof.
  induction l as [|x0 l IH]; intros Hin Hx; [by apply elem_of_nil in Hin|].
  simpl. apply elem_of_cons in Hin as [<-|Hin]; [by rewrite Hx|].
  destruct (f x0); simpl; [|done]. by rewrite (IH Hin Hx).
Qed.

(** A resource that lists itself in [opts.dependsOn] is never registered:
    its preparation awaits its own URN, which only its registration would
    resolve.  In every later state the preparation has not been handed to
    the queue, its promises are pending, and no operation resolves them. *)
Theorem self_dependency_never_registered mode s res t name custom props opts s1 s2 :
  reachable codec (initial mode) s →
  res ∈ dependsOn_list (opt_dependsOn opts) →
  registerResource res t name custom props opts s = Ok tt s1 →
  reachable codec s1 s2 →
  (∃ p, preps s2 !! length (preps s) = Some p ∧ p_res p = res ∧
        p_phase p ≠ Handed ∧ pending p) ∧
  (∀ i op resop, ops s2 !! i = Some op →
     callback_resop (o_callback op) = Some resop →
     resolveURN resop ≠ length (preps s)).
Proof.
  intros Hr Hin Hcall Hr2.
  assert (Hr1 : reachable codec (initial mode) s1).
  { eapply (reach_step codec _ s (CallRegisterResource res t name custom props opts));
      [done|]. simpl. by rewrite Hcall. }
  pose proof (reachable_trans codec _ _ _ Hr1 Hr2) as Hr2'.
  destruct (reachable_inv codec mode s2 Hr2') as (_ & IC & _).
  revert Hcall. unfold_js. simpl. intros [= <-].
  match type of Hr2 with reachable _ ?s1 _ => set (st := s1) in * end.
  assert (Hq : ∃ q, preps st !! length (preps s) = Some q ∧ p_res q = res ∧
                    stuck (length (preps s)) q).
  { eexists. split; [subst st; simpl; by apply list_lookup_middle|].
    split; [done|]. unfold stuck. simpl.
    match goal with |- ?m = None ∨ _ => destruct m as [ks|] eqn:Hm end; [|by left].
    right. exists ks. split; [done|].
    eapply (mapM_option_elem _ _ _ res _ Hm Hin).
    unfold resource. simpl. by rewrite lookup_insert_eq. }
  destruct Hq as (q & Hq & Hres & Hst).
  destruct (reachable_preps_grow codec st s2 _ q Hr2 Hq) as (p & Hp & Hg).
  assert (Hst' : stuck (length (preps s)) p).
  { destruct Hg as (_ & _ & _ & _ & _ & _ & Hd & _). unfold stuck in *.
    by rewrite Hd. }
  pose proof (reachable_stuck codec mode s2 _ p Hr2' Hp Hst') as Hph.
  split.
  - exists p. split_and!; try done.
    + destruct Hg as (_ & _ & Hpr & _). congruence.
    + by eapply (ci_fresh codec s2 IC).
  - intros i op resop Hi Hcb. by eapply (ci_unowned codec s2 IC _ p).
Qed.

(** A registration whose [opts.dependsOn] lists something without a [urn]
    returns, and then its preparation throws the [TypeError] of
    [d.urn.promise()]: the error reaches the top level, no operation enters
    the queue, no token is taken, and no remote call is made. *)
Theorem dependency_without_urn_fails s res t name custom props opts d :
  d ∈ dependsOn_list (opt_dependsOn opts) → d ≠ res →
  r_urn (resource s d) = None →
  ∃ s1 s2 p,
    registerResource res t name custom props opts s = Ok tt s1 ∧
    step codec s1 (PrepareDone (length (preps s))) = Some (Ok tt s2) ∧
    unhandled s2 =
      unhandled s ++ [TypeError "Cannot read property 'promise' of undefined"] ∧
    ops s2 = ops s ∧ keepAlive s2 = keepAlive s ∧ rpcLog s2 = rpcLog s ∧
    preps s2 !! length (preps s) = Some p ∧ p_phase p = PrepFailed ∧ pending p.
Proof.
  intros Hin Hne Hnone. unfold_js. simpl.
  eexists _, _, _. split; [reflexivity|]. simpl.
  rewrite list_lookup_middle by done. simpl.
  unfold prepareResource_resume. simpl.
  rewrite (mapM_option_None _ _ d Hin).
  2:{ unfold resource in *. simpl. by rewrite lookup_insert_ne. }
  simpl. unfold_js. simpl. split; [reflexivity|]. simpl.
  split_and!; [done..| | |].
  - rewrite list_lookup_alter_eq, list_lookup_middle by done. reflexivity.
  - reflexivity.
  - by repeat split.
Qed.

(** A waiting operation can start as soon as every serial operation queued
    before it has completed, whether it succeeded or failed: a failure does
    not stop the queue. *)
Theorem waiting_operation_starts mode s j op :
  reachable codec (initial mode) s →
  ops s !! j = Some op → o_phase op = Waiting →
  (∀ i A, i < j → ops s !! i = Some A → o_serial A = true →
          settled (o_phase A) = true) →
  ∃ s' op', step codec s (ChainTurn j) = Some (Ok tt s') ∧
            ops s' !! j = Some op' ∧ started (o_phase op') = true.
Proof.
  intros Hr Hj Hph Hbefore.
  destruct (reachable_inv codec mode s Hr) as (IQ & _ & _).
  assert (Hset : chain_settled s (o_chain op) = true).
  { pose proof (qi_pred s IQ j op Hj) as Hpts.
    destruct (o_chain op) as [|c]; [done|]. simpl in *.
    destruct Hpts as (Hc & (C & HC & Hs) & _). rewrite HC. by eapply Hbefore. }
  simpl. rewrite Hj. simpl. rewrite Hph, Hset. unfold_js.
  destruct (o_callback op) as [? ? ? ? ? ? req|? ? ? ? ? req|res outputs];
    destruct (o_serial op); simpl.
  1-4: eexists _, _; split; [reflexivity|]; simpl;
    rewrite list_lookup_alter_eq, Hj; by split.
  all: unfold resource; simpl;
    destruct (r_urn (default {| r_urn := None; r_id := None |} (resources s !! res)));
    simpl; eexists _, _; (split; [reflexivity|]); simpl;
    rewrite list_lookup_alter_eq, Hj; by split.
Qed.

(** A read or a registration is rejected in one of two ways.  Rejected
    before it takes an answer of the engine (its remote call failed), it has
    resolved nothing and never will: the URN and id promises of its resource
    and its output properties stay pending, and a resource that names it in
    [opts.dependsOn] is never handed to the queue.  Rejected after the
    answer, by an exception of [resolveOutputs], it has resolved the URN,
    and the id of a custom resource, and no output property.  Either way
    the error is among the unhandled rejections. *)
Theorem rejected_before_or_after_answer mode s i op resop :
  reachable codec (initial mode) s →
  ops s !! i = Some op → callback_resop (o_callback op) = Some resop →
  (∀ e, o_phase op = Rejected e →
     e ∈ unhandled s ∧
     (∃ p, preps s !! resolveURN resop = Some p ∧ pending p ∧ p_outputs p = None) ∧
     (∀ k p ks, preps s !! k = Some p → p_dependsOn p = Some ks →
                resolveURN resop ∈ ks → p_phase p ≠ Handed ∧ pending p)) ∧
  (∀ resp e, o_phase op = Failed resp e →
     e ∈ unhandled s ∧
     ∃ p, preps s !! resolveURN resop = Some p ∧
          is_Some (p_urn p) ∧ (p_custom p = true → is_Some (p_idValue p)) ∧
          p_outputs p = None).
Proof.
  intros Hr Hi Hres.
  destruct (reachable_inv codec mode s Hr) as (IQ & IC & _).
  destruct (reachable_outputs_inv codec mode s Hr) as [O1 O2].
  destruct (ci_owner codec s IC i op resop Hi Hres) as (q & Hq & _ & _ & Hpend).
  assert (Hnone : o_phase op ≠ Fulfilled → p_outputs q = None).
  { intros Hnf. destruct (p_outputs q) as [o|] eqn:Ho; [|done].
    destruct (O1 _ q Hq) as (j & opj & rj & Hj & Hrj & Hu & Hf); [by rewrite Ho|].
    assert (i = j) as <- by (by eapply (ci_unique codec s IC i j op opj resop rj)).
    congruence. }
  split.
  - intros e Hph.
    assert (Hq' : pending q) by (apply Hpend; by rewrite Hph).
    split_and!.
    + eapply (qi_reported s IQ); [done|]. rewrite Hph. by apply list_elem_of_singleton.
    + exists q. split_and!; [done|done|]. apply Hnone. by rewrite Hph.
    + intros k p ks Hk Hks Hin.
      assert (Hn : p_phase p ≠ Handed).
      { intros Hh.
        destruct (reachable_handed codec mode s k p ks _ Hr Hk Hh Hks Hin) as (u & Hu).
        unfold urn_promise in Hu. rewrite Hq in Hu.
        destruct Hq' as (Hnone' & _). by rewrite Hnone' in Hu. }
      split; [done|]. by eapply (ci_fresh codec s IC).
  - intros resp e Hph. split.
    + eapply (qi_reported s IQ); [done|]. rewrite Hph. by apply list_elem_of_singleton.
    + destruct (O2 i op resop q Hi Hres) as (Hurn & Hid); [by rewrite Hph|done|].
      exists q. split_and!; [done|done| |].
      * intros Hc. by destruct (Hid Hc).
      * apply Hnone. by rewrite Hph.
Qed.

(** The two ways the callback of a registration handles an error.  When the
    engine is unavailable it never returns: nothing is rejected and no later
    event runs.  On any other error the operation is rejected with the
    wrapped message, the rejection reaches the top level, the token is given
    back, and nothing is resolved, sent or logged. *)
Theorem registerResource_callback_errors s i op res t name props resop req0 req
    err resp :
  ops s !! i = Some op →
  o_callback op = CbRegister res t name props resop req0 →
  o_phase op = InFlight req →
  (e_code err = Some UNAVAILABLE →
   ∀ evs, exec codec s (RpcReturn i (Some err) resp :: evs) = Some (Spin s)) ∧
  (e_code err ≠ Some UNAVAILABLE →
   ∃ s', step codec s (RpcReturn i (Some err) resp) = Some (Ok tt s') ∧
         ops s' = <[i := set_phase
                      (Rejected (new_Error ("failed to register new resource " +:+ name +:+
                                            " [" +:+ t +:+ "]: " +:+ e_message err))) op]>
                    (ops s) ∧
         unhandled s' = unhandled s ++
           [new_Error ("failed to register new resource " +:+ name +:+
                       " [" +:+ t +:+ "]: " +:+ e_message err)] ∧
         keepAlive s' = pred (keepAlive s) ∧ preps s' = preps s ∧
         rpcLog s' = rpcLog s ∧ errorLog s' = errorLog s ∧
         resourceChain s' = resourceChain s).
Proof.
  intros Hi Hcb Hph. split; intros Hcode.
  - intros evs. simpl. rewrite Hi. simpl. rewrite Hph, Hcb.
    unfold registerResource_callback, bind, waitForDeath.
    by rewrite bool_decide_eq_true_2.
  - simpl. rewrite Hi. simpl. rewrite Hph, Hcb.
    unfold registerResource_callback.
    rewrite bool_decide_eq_false_2 by done. unfold_js. simpl.
    eexists. split; [reflexivity|]. simpl. split_and!; try done.
    by apply alter_lookup_insert.
Qed.

(** The two ways the callback of an attach-outputs handles an error.  When
    the engine is unavailable it never returns.  On any other error it logs
    one line with the URN and the stack of the error, and the operation is
    rejected with the error itself, not wrapped; the token is given back. *)
Theorem registerResourceOutputs_callback_errors s i op res outputs urn outs err :
  ops s !! i = Some op →
  o_callback op = CbOutputs res outputs →
  o_phase op = InFlight (RegisterResourceOutputsRequest urn outs) →
  (e_code err = Some UNAVAILABLE →
   ∀ resp evs, exec codec s (RpcReturn i (Some err) resp :: evs) = Some (Spin s)) ∧
  (e_code err ≠ Some UNAVAILABLE →
   ∀ resp, ∃ s',
     step codec s (RpcReturn i (Some err) resp) = Some (Ok tt s') ∧
     errorLog s' = errorLog s ++
       ["Failed to end new resource registration '" +:+ to_string urn +:+ "': " +:+
        e_stack err] ∧
     ops s' = <[i := set_phase (Rejected err) op]> (ops s) ∧
     unhandled s' = unhandled s ++ [err] ∧
     keepAlive s' = pred (keepAlive s) ∧ preps s' = preps s ∧
     rpcLog s' = rpcLog s ∧ resourceChain s' = resourceChain s).
Proof.
  intros Hi Hcb Hph. split; intros Hcode.
  - intros resp evs. simpl. rewrite Hi. simpl. rewrite Hph, Hcb.
    unfold registerResourceOutputs_callback, bind, waitForDeath.
    by rewrite bool_decide_eq_true_2.
  - intros resp. simpl. rewrite Hi. simpl. rewrite Hph, Hcb.
    unfold registerResourceOutputs_callback.
    rewrite bool_decide_eq_false_2 by done. unfold_js. simpl.
    eexists. split; [reflexivity|]. simpl. split_and!; try done.
    by apply alter_lookup_insert.
Qed.

Lemma resolveOutputs_loop_app props keys1 keys2 : ∀ allProps,
  resolveOutputs_loop codec props allProps (keys1 ++ keys2) =
  match resolveOutputs_loop codec props allProps keys1 with
  | inl e => inl e
  | inr allProps' => resolveOutputs_loop codec props allProps' keys2
  end.
Proof.
  induction keys1 as [|key keys1 IH]; intros allProps; simpl; [done|].
  destruct (resolveOutputs_key codec props allProps key); [done|apply IH].
Qed.

(** Where no property is named [hasOwnProperty] or [__proto__], the loop of
    [resolveOutputs] gives the same bag whatever the order in which
    [Object.keys] lists the input keys, and however often a key is listed.
    With an input named [hasOwnProperty] the order decides: listed last, the
    loop returns; listed before another key, the turn of that key throws. *)
Theorem resolveOutputs_key_order props outputs :
  from_option (deserializeProperties codec) ∅ outputs !! "hasOwnProperty" = None →
  from_option (deserializeProperties codec) ∅ outputs !! "__proto__" = None →
  (∀ keys keys',
     (∀ k, k ∈ keys ↔ k ∈ keys') →
     "hasOwnProperty" ∉ keys → "__proto__" ∉ keys →
     ∃ allProps,
       resolveOutputs_allProps codec props outputs keys = inr allProps ∧
       resolveOutputs_allProps codec props outputs keys' = inr allProps) ∧
  (∀ key keys,
     "hasOwnProperty" ∉ key :: keys → "__proto__" ∉ key :: keys →
     serializeProperty codec (default VUndefined (props !! "hasOwnProperty"))
       ≠ VUndefined →
     (∃ allProps,
        resolveOutputs_allProps codec props outputs
          (key :: keys ++ ["hasOwnProperty"]) = inr allProps) ∧
     resolveOutputs_allProps codec props outputs ("hasOwnProperty" :: key :: keys) =
     inl (TypeError "allProps.hasOwnProperty is not a function")).
Proof.
  intros Hengine _. unfold resolveOutputs_allProps.
  replace (match outputs with Some o => deserializeProperties codec o | None => ∅ end)
    with (from_option (deserializeProperties codec) ∅ outputs) by (by destruct outputs).
  set (engine := from_option (deserializeProperties codec) ∅ outputs) in *.
  split.
  - intros keys keys' Hsame Hkeys _.
    destruct (resolveOutputs_loop_plain codec props keys engine Hengine Hkeys)
      as (a & Ha & Hlook).
    destruct (resolveOutputs_loop_plain codec props keys' engine Hengine)
      as (a' & Ha' & Hlook'); [by rewrite <- Hsame|].
    exists a. split; [done|]. rewrite Ha'. f_equal. apply map_eq. intros k.
    rewrite Hlook, Hlook'. do 2 case_bool_decide; try done; by rewrite Hsame in *.
  - intros key keys Hkeys _ Hdef. split.
    + rewrite app_comm_cons, resolveOutputs_loop_app.
      destruct (resolveOutputs_loop_plain codec props (key :: keys) engine Hengine Hkeys)
        as (a & -> & Hlook).
      assert (Ha : a !! "hasOwnProperty" = None).
      { rewrite Hlook. by rewrite bool_decide_eq_false_2. }
      destruct (resolveOutputs_key_plain codec props a "hasOwnProperty" Ha)
        as (a' & Ha' & _).
      exists a'. simpl. by rewrite Ha'.
    + assert (H1 : resolveOutputs_key codec props engine "hasOwnProperty" =
                   inr (<["hasOwnProperty" :=
                          deserializeProperty codec
                            (serializeProperty codec
                               (default VUndefined (props !! "hasOwnProperty")))]>
                        engine)).
      { unfold resolveOutputs_key, hasOwnProperty. rewrite Hengine.
        rewrite bool_decide_eq_false_2 by (by intros [? ?]).
        cbn zeta. by rewrite bool_decide_eq_false_2. }
      cbn [resolveOutputs_loop]. rewrite H1.
      unfold resolveOutputs_key, hasOwnProperty. by rewrite lookup_insert_eq.
Qed.

(** The provider reference of a bundle: none unless the resource is custom
    and [opts.provider] is given; then the provider's URN and id joined by
    [::], with the unknown-value sentinel in place of an id that is empty or
    undefined.  The parent URN of the bundle is the resolved URN of
    [opts.parent]. *)
Theorem bundle_parent_and_provider s k p resop :
  prepareResource_resume codec s k p = Ready resop →
  match opt_parent (p_opts p) with
  | Some parent => ∃ u, await_urn s parent = Ready u ∧ parentURN resop = Some u
  | None => parentURN resop = None
  end ∧
  match opt_provider (p_opts p) with
  | Some provider =>
      if p_custom p then
        ∃ providerURN providerID,
          await_urn s provider = Ready providerURN ∧
          await_id s provider = Ready providerID ∧
          providerRef resop =
            Some (to_string providerURN +:+ "::" +:+
                  to_string (if truthy providerID then providerID
                             else unknownValue codec))
      else providerRef resop = None
  | None => providerRef resop = None
  end.
Proof.
  intros H.
  apply prepareResource_resume_inv in H as (_ & _ & _ & _ & _ & _ & _ & Hpar & Hprov).
  split; [exact Hpar|exact Hprov].
Qed.

(** The end of [resolveOutputs] for a read or a registration that the
    engine has answered, where no property is named [__proto__].  Until
    then the output properties of the resource are pending, and the URN,
    and the id of a custom resource, are resolved.  When [resolveOutputs]
    returns, the output properties are resolved with the merged bag and the
    operation is fulfilled; when it throws, no output property is resolved,
    the operation is rejected with what it threw, and that reaches the top
    level.  Either way the URN and the id stay as they are and the token is
    given back. *)
Theorem outputs_resolved_with_merge mode s i op resp resop keys :
  reachable codec (initial mode) s →
  ops s !! i = Some op → o_phase op = Resolving resp →
  callback_resop (o_callback op) = Some resop →
  ∃ p,
    preps s !! resolveURN resop = Some p ∧
    p_outputs p = None ∧ is_Some (p_urn p) ∧
    (p_custom p = true → is_Some (p_idValue p)) ∧
    (Object_keys (p_props p) keys →
     p_props p !! "__proto__" = None →
     from_option (deserializeProperties codec) ∅ (getProperties resp) !! "__proto__"
       = None →
     ∃ s' p',
       step codec s (OutputsResolved i keys) = Some (Ok tt s') ∧
       preps s' !! resolveURN resop = Some p' ∧
       p_urn p' = p_urn p ∧ p_idValue p' = p_idValue p ∧
       p_idApply p' = p_idApply p ∧
       keepAlive s' = pred (keepAlive s) ∧
       match resolveOutputs_allProps codec (p_props p) (getProperties resp) keys with
       | inr allProps =>
           p_outputs p' = Some allProps ∧
           ops s' = <[i := set_phase Fulfilled op]> (ops s) ∧
           unhandled s' = unhandled s
       | inl e =>
           p_outputs p' = None ∧
           ops s' = <[i := set_phase (Failed resp e) op]> (ops s) ∧
           unhandled s' = unhandled s ++ [e]
       end).
Proof.
  intros Hr Hi Hph Hres.
  destruct (reachable_inv codec mode s Hr) as (_ & IC & _).
  destruct (reachable_outputs_inv codec mode s Hr) as [O1 O2].
  destruct (OutputsResolved_effect codec s i keys op resp resop IC Hi Hph Hres)
    as (p & Hp & Heff).
  assert (Hnone : p_outputs p = None).
  { destruct (p_outputs p) as [o|] eqn:Ho; [|done].
    destruct (O1 _ p Hp) as (j & opj & rj & Hj & Hrj & Hu & Hf); [by rewrite Ho|].
    assert (i = j) as <- by (by eapply (ci_unique codec s IC i j op opj resop rj)).
    congruence. }
  destruct (O2 i op resop p Hi Hres) as (Hurn & Hid); [by rewrite Hph|done|].
  exists p. split_and!; try done.
  - intros Hc. by destruct (Hid Hc).
  - intros Hkeys _ _. rewrite bool_decide_eq_true_2 in Heff by done.
    destruct Heff as (s' & Hstep & Hk & _ & _ & _ & Heff).
    destruct (resolveOutputs_allProps codec (p_props p) (getProperties resp) keys)
      as [e|allProps]; destruct Heff as (Hps & Hos & Hun).
    + exists s', p. rewrite Hps. by split_and!.
    + exists s', (set_p_outputs (resolve_once (p_outputs p) allProps) p).
      split_and!; try done.
      * rewrite Hps. apply list_lookup_insert_eq. by eapply lookup_lt_Some.
      * simpl. by rewrite Hnone.
Qed.

(** The output properties of a resource resolve last: wherever they are
    resolved, the URN is resolved, the id of a custom resource is resolved,
    and the read or registration of the resource is fulfilled. *)
Theorem output_properties_resolve_last mode s k p :
  reachable codec (initial mode) s →
  preps s !! k = Some p → is_Some (p_outputs p) →
  is_Some (p_urn p) ∧
  (p_custom p = true → is_Some (p_idValue p) ∧ is_Some (p_idApply p)) ∧
  ∃ i op resop, ops s !! i = Some op ∧
                callback_resop (o_callback op) = Some resop ∧
                resolveURN resop = k ∧ o_phase op = Fulfilled.
Proof.
  intros Hr Hk Hsome.
  destruct (reachable_outputs_inv codec mode s Hr) as [O1 O2].
  destruct (O1 k p Hk Hsome) as (i & op & resop & Hi & Hres & Hu & Hph).
  destruct (O2 i op resop p Hi Hres) as (Hurn & Hid);
    [by rewrite Hph|by rewrite Hu|].
  split_and!; [done|done|]. by exists i, op, resop.
Qed.

(** Each call of [readResource] or [registerResource] leads to at most one
    operation, and to one of its own kind: two operations in the queue never
    resolve the promises of the same call, the operation of a read is a read
    and that of a registration a registration, and a preparation that was
    handed to the queue has its operation there. *)
Theorem one_operation_per_declaration mode s :
  reachable codec (initial mode) s →
  (∀ i j opi opj ri rj,
     ops s !! i = Some opi → ops s !! j = Some opj →
     callback_resop (o_callback opi) = Some ri →
     callback_resop (o_callback opj) = Some rj →
     i ≠ j → resolveURN ri ≠ resolveURN rj) ∧
  (∀ i op resop,
     ops s !! i = Some op → callback_resop (o_callback op) = Some resop →
     ∃ p, preps s !! resolveURN resop = Some p ∧ p_phase p = Handed ∧
          match o_callback op with
          | CbRead res t name _ _ _ _ =>
              p_kind p = ThenRead t name (opt_id (p_opts p)) ∧ res = p_res p
          | CbRegister res t name _ _ _ =>
              p_kind p = ThenRegister t name ∧ res = p_res p
          | CbOutputs _ _ => False
          end) ∧
  (∀ k p, preps s !! k = Some p → p_phase p = Handed →
     ∃ i op resop, ops s !! i = Some op ∧
                   callback_resop (o_callback op) = Some resop ∧
                   resolveURN resop = k).
Proof.
  intros Hr. destruct (reachable_inv codec mode s Hr) as (_ & IC & _).
  split_and!.
  - intros i j opi opj ri rj Hi Hj Hri Hrj Hne Heq.
    by destruct (Hne (ci_unique codec s IC i j opi opj ri rj Hi Hj Hri Hrj Heq)).
  - intros i op resop Hi Hres.
    destruct (ci_owner codec s IC i op resop Hi Hres) as (p & Hp & Hh & Hown & _).
    exists p. split_and!; try done.
    destruct Hown as (r & _ & _ & _ & _ & H).
    destruct (o_callback op); [|tauto|done]. tauto.
  - intros k p Hk Hh. by apply (ci_handed codec s IC k p).
Qed.


(** A settled future stays settled when operations enter the queue. *)
Lemma chain_settled_app s c ops' :
  chain_settled s c = true →
  ∀ s', ops s' = ops s ++ ops' → chain_settled s' c = true.
Proof.
  intros Hc s' Ho. destruct c as [|c]; [done|]. simpl in *. rewrite Ho.
  destruct (ops s !! c) as [op|] eqn:Hop; [|done].
  by rewrite (lookup_app_l_Some _ _ _ _ Hop).
Qed.

(** The whole life of a registration that awaits nothing (no [dependsOn],
    no parent, no provider, no resource among its inputs) and has no
    property named [hasOwnProperty] or [__proto__] among its inputs or in
    the answer, from a state whose chain is settled: the call, the
    preparation, the turn of the chain, the answer of the engine and the
    return of [resolveOutputs] run through; one request is sent, with the
    serialized inputs and no dependency; the URN is resolved to the URN of
    the answer and the outputs to the merged bag; the operation is
    fulfilled and the token it took is given back. *)
Theorem leaf_registration_completes s res t name custom props opts resp keys :
  chain_settled s (resourceChain s) = true →
  opt_dependsOn opts = DependsOnNone → opt_parent opts = None →
  opt_provider opts = None →
  (serializeResourceProperties codec props).2 = [] →
  Object_keys props keys →
  props !! "hasOwnProperty" = None → props !! "__proto__" = None →
  from_option (deserializeProperties codec) ∅ (getProperties resp)
    !! "hasOwnProperty" = None →
  from_option (deserializeProperties codec) ∅ (getProperties resp)
    !! "__proto__" = None →
  ∃ s' p op allProps,
    exec codec s
      [CallRegisterResource res t name custom props opts;
       PrepareDone (length (preps s)); ChainTurn (length (ops s));
       RpcReturn (length (ops s)) None resp;
       OutputsResolved (length (ops s)) keys]
      = Some (Ok tt s') ∧
    rpcLog s' = rpcLog s ++
      [(length (ops s),
        RegisterResourceRequest t name None custom
          (serializeResourceProperties codec props).1 (opt_protect opts) None [])] ∧
    preps s' !! length (preps s) = Some p ∧
    p_urn p = Some (VStr (getUrn resp)) ∧
    p_outputs p = Some allProps ∧
    (∀ key, allProps !! key =
       match from_option (deserializeProperties codec) ∅ (getProperties resp) !! key with
       | Some v => Some v
       | None =>
           x ← props !! key;
           let w := serializeProperty codec x in
           if bool_decide (w = VUndefined) then None
           else Some (deserializeProperty codec w)
       end) ∧
    ops s' !! length (ops s) = Some op ∧ o_phase op = Fulfilled ∧
    keepAlive s' = keepAlive s ∧ unhandled s' = unhandled s.
Proof.
  intros Hc Hd Hpa Hpr Him Hkeys Hin _ Hen _.
  destruct (resolveOutputs_allProps_lookup codec props (getProperties resp) keys
              Hkeys Hen Hin) as (allProps & Hall & Hlook).
  unfold exec. cbn [step]. unfold_js. simpl.
  rewrite list_lookup_middle by done. simpl.
  unfold prepareResource_resume. simpl. rewrite Hd, Hpa, Hpr. simpl.
  destruct (serializeResourceProperties codec props) as [sp im] eqn:Hser.
  simpl in Him. subst im. simpl.
  unfold prepared. simpl. rewrite runAsyncResourceOp_run. simpl.
  rewrite list_lookup_middle by done. simpl.
  match goal with |- context [chain_settled ?s1 (resourceChain s)] =>
    rewrite (chain_settled_app s (resourceChain s) _ Hc s1 eq_refl) end.
  unfold_js.
  destruct (serialize s); simpl.
  all: rewrite !list_lookup_alter_eq, !list_lookup_middle by done; simpl.
  all: destruct custom; unfold_js; simpl.
  all: repeat first [ rewrite list_lookup_alter_eq
                    | rewrite list_lookup_middle by done
                    | rewrite (bool_decide_eq_true_2 _ Hkeys)
                    | rewrite Hall
                    | progress simpl
                    | progress unfold resolveOutputs_return, resolveOutputs
                    | progress unfold_js ].
  all: eexists _, _, _, allProps; (split; [reflexivity|]); simpl.
  all: repeat first [ rewrite list_lookup_alter_eq
                    | rewrite list_lookup_middle by done
                    | progress simpl ].
  all: split_and!; try reflexivity; exact Hlook.
Qed.
End Calls.

(** * The further properties on the small programs *)

Lemma familyState_reachable : reachable toyCodec (initial true) familyState.
Proof.
  apply (exec_reachable toyCodec (initial true) familyTrace (initial true));
    [apply reach_start|vm_compute; reflexivity].
Qed.

Lemma failedState_reachable : reachable toyCodec (initial true) failedState.
Proof.
  apply (exec_reachable toyCodec (initial true) failedTrace (initial true));
    [apply reach_start|vm_compute; reflexivity].
Qed.

Lemma selfState_reachable : reachable toyCodec selfStart selfState.
Proof.
  apply (exec_reachable toyCodec selfStart selfTrace selfStart);
    [apply reach_start|vm_compute; reflexivity].
Qed.

Lemma request_urns_answered_earlier_witness :
  ∃ i, i ∈ [0] ∧ urn_answered familyState i (VStr "urn:x").
Proof.
  apply (request_urns_answered_earlier toyCodec true familyState
           [(0, RegisterResourceRequest "t" "x" None true ∅ VUndefined None [])] 1
           (RegisterResourceRequest "t" "a" (Some (VStr "urn:x")) false ∅ VUndefined None
              [VStr "urn:x"])
           [(2, RegisterResourceOutputsRequest (VStr "urn:a") (VStr "out"))]
           (VStr "urn:x")).
  - apply familyState_reachable.
  - vm_compute. reflexivity.
  - simpl. apply elem_of_cons. by left.
Defined.

Lemma one_call_per_operation_witness :
  NoDup (rpcLog familyState).*1 ∧ length (rpcLog familyState) = 3.
Proof.
  split; [|reflexivity].
  apply (proj1 (one_call_per_operation toyCodec true familyState familyState_reachable)).
Defined.

Lemma sent_request_is_built_from_call_witness :
  ∃ p, preps familyState !! 1 = Some p ∧
       RegisterResourceRequest "t" "a" (Some (VStr "urn:x")) false ∅ VUndefined None
         [VStr "urn:x"] =
       match p_kind p with
       | ThenRead t name id =>
           ReadResourceRequest t name (serializeProperty toyCodec id)
             (Some (VStr "urn:x")) None
             (serializeResourceProperties toyCodec (p_props p)).1 [VStr "urn:x"]
       | ThenRegister t name =>
           RegisterResourceRequest t name (Some (VStr "urn:x")) (p_custom p)
             (serializeResourceProperties toyCodec (p_props p)).1
             (opt_protect (p_opts p)) None [VStr "urn:x"]
       end.
Proof.
  edestruct (sent_request_is_built_from_call toyCodec true familyState 1
               (RegisterResourceRequest "t" "a" (Some (VStr "urn:x")) false ∅ VUndefined
                  None [VStr "urn:x"]))
    as (p & Hp & Hreq).
  - apply familyState_reachable.
  - apply (list_elem_of_lookup_2 _ 1). vm_compute. reflexivity.
  - vm_compute. reflexivity.
  - vm_compute. reflexivity.
  - exists p. split; [exact Hp|exact Hreq].
Defined.

Lemma self_dependency_never_registered_witness :
  ∃ p, preps selfState !! 0 = Some p ∧ p_res p = 0 ∧
       p_phase p ≠ Handed ∧ pending p.
Proof.
  apply (proj1 (self_dependency_never_registered toyCodec true (initial true)
                  0 "t" "a" true ∅ (dependingOn (DependsOnOne 0)) selfStart selfState
                  (reach_start toyCodec (initial true))
                  ltac:(simpl; apply list_elem_of_singleton; reflexivity)
                  ltac:(vm_compute; reflexivity)
                  selfState_reachable)).
Defined.

Lemma dependency_without_urn_fails_witness :
  ∃ s1 s2 p,
    registerResource 0 "t" "a" true ∅ (dependingOn (DependsOnOne 5)) (initial true)
      = Ok tt s1 ∧
    step toyCodec s1 (PrepareDone 0) = Some (Ok tt s2) ∧
    unhandled s2 = [] ++ [TypeError "Cannot read property 'promise' of undefined"] ∧
    ops s2 = [] ∧ keepAlive s2 = 0 ∧ rpcLog s2 = [] ∧
    preps s2 !! 0 = Some p ∧ p_phase p = PrepFailed ∧ pending p.
Proof.
  apply (dependency_without_urn_fails toyCodec (initial true) 0 "t" "a" true ∅
           (dependingOn (DependsOnOne 5)) 5).
  - simpl. apply list_elem_of_singleton. reflexivity.
  - lia.
  - reflexivity.
Defined.

Lemma waiting_operation_starts_witness :
  (∃ A e, ops failedState !! 0 = Some A ∧ o_phase A = Rejected e) ∧
  ∃ s' op', step toyCodec failedState (ChainTurn 1) = Some (Ok tt s') ∧
            ops s' !! 1 = Some op' ∧ started (o_phase op') = true.
Proof.
  split; [eexists _, _; split; vm_compute; reflexivity|].
  eapply (waiting_operation_starts toyCodec true failedState 1 _ failedState_reachable).
  - vm_compute. reflexivity.
  - vm_compute. reflexivity.
  - intros i A Hi HA _. destruct i as [|i]; [|lia].
    vm_compute in HA. injection HA as <-. reflexivity.
Defined.

Lemma thrownState_reachable : reachable toyCodec (initial true) thrownState.
Proof.
  apply (exec_reachable toyCodec (initial true) thrownTrace (initial true));
    [apply reach_start|vm_compute; reflexivity].
Qed.

Lemma rejected_before_or_after_answer_witness :
  (new_Error "failed to register new resource x [t]: boom" ∈ unhandled failedState ∧
   (∃ p, preps failedState !! 0 = Some p ∧ pending p ∧ p_outputs p = None) ∧
   (∃ p, preps failedState !! 1 = Some p ∧ p_phase p ≠ Handed ∧ pending p)) ∧
  (TypeError "allProps.hasOwnProperty is not a function" ∈ unhandled thrownState ∧
   ∃ p, preps thrownState !! 0 = Some p ∧ is_Some (p_urn p) ∧
        (p_custom p = true → is_Some (p_idValue p)) ∧ p_outputs p = None).
Proof.
  split.
  - edestruct (rejected_before_or_after_answer toyCodec true failedState 0)
      as [Hrej _].
    + apply failedState_reachable.
    + vm_compute. reflexivity.
    + vm_compute. reflexivity.
    + edestruct Hrej as (Hu & Hp & Hdep); [vm_compute; reflexivity|].
      split_and!; [exact Hu|exact Hp|].
      eexists. split; [vm_compute; reflexivity|].
      eapply (Hdep 1 _ [0]).
      * vm_compute. reflexivity.
      * reflexivity.
      * apply list_elem_of_singleton. reflexivity.
  - edestruct (rejected_before_or_after_answer toyCodec true thrownState 0)
      as [_ Hthrown].
    + apply thrownState_reachable.
    + vm_compute. reflexivity.
    + vm_compute. reflexivity.
    + edestruct Hthrown as (Hu & Hp); [vm_compute; reflexivity|].
      split; [exact Hu|exact Hp].
Defined.

Lemma registerResource_callback_errors_witness :
  exec toyCodec registerState
    [RpcReturn 0 (Some unavailable) (answer "" VUndefined None);
     CallRegisterResource 1 "t" "b" true ∅ noOpts]
    = Some (Spin registerState) ∧
  ∃ s', step toyCodec registerState (RpcReturn 0 (Some boom) (answer "" VUndefined None))
          = Some (Ok tt s') ∧
        unhandled s' = unhandled registerState ++
          [new_Error ("failed to register new resource " +:+ "a" +:+
                      " [" +:+ "t" +:+ "]: " +:+ e_message boom)] ∧
        keepAlive s' = pred (keepAlive registerState) ∧
        preps s' = preps registerState.
Proof.
  split.
  - edestruct (registerResource_callback_errors toyCodec registerState 0)
      with (err := unavailable) (resp := answer "" VUndefined None) as [Hpark _].
    + vm_compute. reflexivity.
    + vm_compute. reflexivity.
    + vm_compute. reflexivity.
    + apply Hpark. reflexivity.
  - edestruct (registerResource_callback_errors toyCodec registerState 0)
      with (err := boom) (resp := answer "" VUndefined None) as [_ Hrej].
    + vm_compute. reflexivity.
    + vm_compute. reflexivity.
    + vm_compute. reflexivity.
    + destruct Hrej as (s' & Hs & _ & Hu & Hk & Hp & _); [discriminate|].
      exists s'. split_and!; [exact Hs|exact Hu|exact Hk|exact Hp].
Defined.

Lemma registerResourceOutputs_callback_errors_witness :
  exec toyCodec familyState
    [RpcReturn 2 (Some unavailable) (answer "" VUndefined None);
     CallRegisterResource 2 "t" "b" true ∅ noOpts]
    = Some (Spin familyState) ∧
  ∃ s', step toyCodec familyState (RpcReturn 2 (Some boom) (answer "" VUndefined None))
          = Some (Ok tt s') ∧
        errorLog s' = errorLog familyState ++
          ["Failed to end new resource registration '" +:+ to_string (VStr "urn:a") +:+
           "': " +:+ e_stack boom] ∧
        unhandled s' = unhandled familyState ++ [boom].
Proof.
  split.
  - edestruct (registerResourceOutputs_callback_errors toyCodec familyState 2)
      with (err := unavailable) as [Hpark _].
    + vm_compute. reflexivity.
    + vm_compute. reflexivity.
    + vm_compute. reflexivity.
    + apply Hpark. reflexivity.
  - edestruct (registerResourceOutputs_callback_errors toyCodec familyState 2)
      with (err := boom) as [_ Hrej].
    + vm_compute. reflexivity.
    + vm_compute. reflexivity.
    + vm_compute. reflexivity.
    + destruct (Hrej ltac:(discriminate) (answer "" VUndefined None))
        as (s' & Hs & Hl & _ & Hu & _).
      exists s'. split_and!; [exact Hs|exact Hl|exact Hu].
Defined.

Lemma resolveOutputs_key_order_witness :
  (∃ allProps,
     resolveOutputs_allProps toyCodec (<["a" := VNum 1]> (<["b" := VNum 2]> ∅))
       (Some {[ "a" := VStr "x" ]}) ["a"; "b"] = inr allProps ∧
     resolveOutputs_allProps toyCodec (<["a" := VNum 1]> (<["b" := VNum 2]> ∅))
       (Some {[ "a" := VStr "x" ]}) ["b"; "a"; "b"] = inr allProps) ∧
  (∃ allProps,
     resolveOutputs_allProps toyCodec
       (<["a" := VNum 1]> (<["hasOwnProperty" := VNum 2]> ∅)) None
       ("a" :: [] ++ ["hasOwnProperty"]) = inr allProps) ∧
  resolveOutputs_allProps toyCodec
    (<["a" := VNum 1]> (<["hasOwnProperty" := VNum 2]> ∅)) None
    ["hasOwnProperty"; "a"] =
  inl (TypeError "allProps.hasOwnProperty is not a function").
Proof.
  split.
  - destruct (resolveOutputs_key_order toyCodec
                (<["a" := VNum 1]> (<["b" := VNum 2]> ∅))
                (Some {[ "a" := VStr "x" ]})) as [Hsame _];
      [vm_compute; reflexivity..|].
    apply Hsame.
    + intros k. rewrite !elem_of_cons, elem_of_nil. tauto.
    + rewrite !elem_of_cons, elem_of_nil. intros [|[|]]; done.
    + rewrite !elem_of_cons, elem_of_nil. intros [|[|]]; done.
  - destruct (resolveOutputs_key_order toyCodec
                (<["a" := VNum 1]> (<["hasOwnProperty" := VNum 2]> ∅))
                None) as [_ Horder];
      [vm_compute; reflexivity..|].
    apply (Horder "a" []).
    + rewrite !elem_of_cons, elem_of_nil. intros [|]; done.
    + rewrite !elem_of_cons, elem_of_nil. intros [|]; done.
    + vm_compute. discriminate.
Defined.

Lemma bundle_parent_and_provider_witness :
  preps providerState !! 1 = Some provPrep ∧
  await_id providerState 0 = Ready VUndefined ∧
  ∃ providerURN providerID,
    await_urn providerState 0 = Ready providerURN ∧
    await_id providerState 0 = Ready providerID ∧
    Some "urn:prov::04da6b54-80e4-46f7-96ec-b56ff0331ba9" =
      Some (to_string providerURN +:+ "::" +:+
            to_string (if truthy providerID then providerID
                       else unknownValue toyCodec)).
Proof.
  split; [vm_compute; reflexivity|]. split; [vm_compute; reflexivity|].
  apply (proj2 (bundle_parent_and_provider toyCodec providerState 1 provPrep provBundle
                  ltac:(vm_compute; reflexivity))).
Defined.

Lemma mergeState_reachable : reachable toyCodec (initial true) mergeState.
Proof.
  apply (exec_reachable toyCodec (initial true) mergeTrace (initial true));
    [apply reach_start|vm_compute; reflexivity].
Qed.

Lemma outputs_resolved_with_merge_witness :
  (∃ s' p', step toyCodec mergeState (OutputsResolved 0 ["out"; "in"]) = Some (Ok tt s') ∧
            preps s' !! 0 = Some p' ∧
            p_outputs p' = Some (<["in" := VStr "i"]> {[ "out" := VStr "v" ]}) ∧
            p_urn p' = Some (VStr "urn:a") ∧
            unhandled s' = unhandled mergeState) ∧
  (∃ s' p', step toyCodec shadowState (OutputsResolved 0 ["a"]) = Some (Ok tt s') ∧
            preps s' !! 0 = Some p' ∧ p_outputs p' = None ∧
            p_urn p' = Some (VStr "urn:a") ∧
            unhandled s' = unhandled shadowState ++
              [TypeError "allProps.hasOwnProperty is not a function"]).
Proof.
  split.
  - edestruct (outputs_resolved_with_merge toyCodec true mergeState 0)
      with (keys := ["out"; "in"]) as (p & Hp & _ & _ & _ & Hend).
    + apply mergeState_reachable.
    + vm_compute. reflexivity.
    + vm_compute. reflexivity.
    + vm_compute. reflexivity.
    + vm_compute in Hp. injection Hp as <-.
      destruct Hend as (s' & p' & Hs & Hp' & Hu & _ & _ & _ & Hm).
      * apply (bool_decide_unpack _). vm_compute. exact I.
      * vm_compute. reflexivity.
      * vm_compute. reflexivity.
      * vm_compute in Hm. destruct Hm as (Ho & _ & Hun).
        exists s', p'. split_and!; [exact Hs|exact Hp'| |exact Hu|exact Hun].
        vm_compute. exact Ho.
  - edestruct (outputs_resolved_with_merge toyCodec true shadowState 0)
      with (keys := ["a"]) as (p & Hp & _ & _ & _ & Hend).
    + apply shadowState_reachable.
    + vm_compute. reflexivity.
    + vm_compute. reflexivity.
    + vm_compute. reflexivity.
    + vm_compute in Hp. injection Hp as <-.
      destruct Hend as (s' & p' & Hs & Hp' & Hu & _ & _ & _ & Hm).
      * apply (bool_decide_unpack _). vm_compute. exact I.
      * vm_compute. reflexivity.
      * vm_compute. reflexivity.
      * vm_compute in Hm. destruct Hm as (Ho & _ & Hun).
        exists s', p'. split_and!; [exact Hs|exact Hp'|exact Ho|exact Hu|exact Hun].
Defined.

Lemma output_properties_resolve_last_witness :
  ∃ i op resop, ops familyState !! i = Some op ∧
                callback_resop (o_callback op) = Some resop ∧
                resolveURN resop = 0 ∧ o_phase op = Fulfilled.
Proof.
  edestruct (output_properties_resolve_last toyCodec true familyState 0)
    as (_ & _ & H).
  - apply familyState_reachable.
  - vm_compute. reflexivity.
  - vm_compute. eexists. reflexivity.
  - exact H.
Defined.

Lemma one_operation_per_declaration_witness :
  ∃ p, preps familyState !! 1 = Some p ∧ p_phase p = Handed ∧
       p_kind p = ThenRegister "t" "a" ∧ 1 = p_res p.
Proof.
  edestruct (proj1 (proj2 (one_operation_per_declaration toyCodec true familyState
                             familyState_reachable)) 1) as (p & Hp & Hh & Hk).
  - vm_compute. reflexivity.
  - vm_compute. reflexivity.
  - exists p. split_and!; [exact Hp|exact Hh|exact (proj1 Hk)|exact (proj2 Hk)].
Defined.



Lemma leaf_registration_completes_witness :
  ∃ s' p,
    exec toyCodec (initial true)
      [CallRegisterResource 0 "t" "a" true {[ "in" := VStr "i" ]} noOpts;
       PrepareDone 0; ChainTurn 0;
       RpcReturn 0 None (answer "urn:a" (VStr "id-a") (Some {[ "out" := VStr "v" ]}));
       OutputsResolved 0 ["in"]]
      = Some (Ok tt s') ∧
    preps s' !! 0 = Some p ∧ p_urn p = Some (VStr "urn:a") ∧
    (∃ allProps, p_outputs p = Some allProps ∧
                 allProps !! "in" = Some (VStr "i") ∧
                 allProps !! "out" = Some (VStr "v")) ∧
    keepAlive s' = 0 ∧ length (rpcLog s') = 1.
Proof.
  destruct (leaf_registration_completes toyCodec (initial true) 0 "t" "a" true
              {[ "in" := VStr "i" ]} noOpts
              (answer "urn:a" (VStr "id-a") (Some {[ "out" := VStr "v" ]})) ["in"])
    as (s' & p & op & allProps & Hrun & Hlog & Hp & Hu & Ho & Hlook & _ & _ & Hk & _);
    [reflexivity| reflexivity| reflexivity| reflexivity| reflexivity
    |apply (bool_decide_unpack _); vm_compute; exact I
    |vm_compute; reflexivity..|].
  exists s', p. split_and!; [exact Hrun|exact Hp|exact Hu| |exact Hk|].
  - exists allProps. split_and!; [exact Ho|rewrite Hlook|rewrite Hlook]; reflexivity.
  - rewrite Hlog. reflexivity.
Defined.
